(** * Clusternet: shadow API installation and cluster-status collection

    A shallow embedding of
    - [pkg/hub/apiserver/shadow/apiserver.go] (module [apiserver]) and
    - [pkg/controllers/clusters/clusterstatus/clusterstatus_controller.go]
      (module [clusterstatus]),
    followed by the properties proved about them. *)

From Stdlib Require Import ZArith Lia.
From stdpp Require Import base option list strings gmap.

Local Open Scope Z_scope.

(** ** The Go fragment shared by both packages *)

Module Go.

(** Run-time panics the embedded code can raise. *)
Inductive panic : Type :=
| IndexOutOfRange
| NilDereference.

(** The outcome of a call: a normal return, a returned [error], or a
    run-time panic. *)
Inductive result (E A : Type) : Type :=
| Ok (a : A)
| Err (e : E)
| Panic (p : panic).
Global Arguments Ok {E A} a.
Global Arguments Err {E A} e.
Global Arguments Panic {E A} p.

(** A signed integer of [bits] bits: the value a Go [intN] holds after an
    arithmetic result [z] wraps around. *)
Definition wrap (bits : Z) (z : Z) : Z :=
  (z + 2 ^ (bits - 1)) mod 2 ^ bits - 2 ^ (bits - 1).

(** [len(s)] of a string, in bytes. *)
Definition len (s : string) : Z := Z.of_nat (String.length s).

(** [strings.HasSuffix(s, suffix)]:
    [len(s) >= len(suffix) && s[len(s)-len(suffix):] == suffix]. *)
Definition HasSuffix (s suffix : string) : bool :=
  (String.length suffix <=? String.length s)%nat
  && String.eqb
       (String.substring (String.length s - String.length suffix)
                         (String.length suffix) s)
       suffix.

(** ASCII lower-casing of one byte and of a string: what [strings.ToLower]
    computes on an ASCII string. *)
Definition lower_ascii (c : Ascii.ascii) : Ascii.ascii :=
  let n := Ascii.nat_of_ascii c in
  if ((65 <=? n) && (n <=? 90))%nat then Ascii.ascii_of_nat (n + 32) else c.

Fixpoint asciiToLower (s : string) : string :=
  match s with
  | EmptyString => EmptyString
  | String c r => String (lower_ascii c) (asciiToLower r)
  end.

End Go.

Import Go.

(** ** The node-status side: [k8s.io/api/core/v1] as far as the controller
    reads it *)

Module corev1.

Definition NodeConditionType := string.
Definition ConditionStatus := string.

Definition NodeReady : NodeConditionType := "Ready".
Definition ConditionTrue : ConditionStatus := "True".
Definition ConditionFalse : ConditionStatus := "False".
Definition ConditionUnknown : ConditionStatus := "Unknown".

Record NodeCondition : Type := {
  Type_ : NodeConditionType;
  Status : ConditionStatus
}.

Definition ResourceCPU : string := "cpu".
Definition ResourceMemory : string := "memory".

(** [Capacity] and [Allocatable] are [ResourceList]s, maps from resource
    name to quantity; the controller only reads them.  A quantity is kept
    as its exact amount. *)
Record NodeStatus : Type := {
  Capacity : gmap string Z;
  Allocatable : gmap string Z;
  Conditions : list NodeCondition
}.

(** [ResourceList.Cpu] and [ResourceList.Memory]: the entry, or a zero
    quantity. *)
Definition Cpu (rl : gmap string Z) : Z := default 0 (rl !! ResourceCPU).
Definition Memory (rl : gmap string Z) : Z := default 0 (rl !! ResourceMemory).

Record Node : Type := {
  NStatus : NodeStatus
}.

End corev1.

Module clusterstatus.

Section Statistics.

(** The counters of [clusterapi.NodeStatistics] are fixed-width signed
    integers; the declaration lives outside the controller, so the width
    is a parameter here. *)
Variable counter_bits : Z.

Record NodeStatistics : Type := {
  ReadyNodes : Z;
  NotReadyNodes : Z;
  UnknownNodes : Z;
  LostNodes : Z
}.

(** [x += 1] on a counter. *)
Definition incr (x : Z) : Z := wrap counter_bits (x + 1).

(** [getNodeCondition]: index and address of the first condition of the
    given type, or [(-1, nil)]. *)
Fixpoint getNodeCondition_from (i : Z) (conds : list corev1.NodeCondition)
         (conditionType : corev1.NodeConditionType)
  : Z * option corev1.NodeCondition :=
  match conds with
  | [] => (-1, None)
  | c :: rest =>
      if String.eqb (corev1.Type_ c) conditionType then (i, Some c)
      else getNodeCondition_from (i + 1) rest conditionType
  end.

Definition getNodeCondition (status : option corev1.NodeStatus)
           (conditionType : corev1.NodeConditionType)
  : Z * option corev1.NodeCondition :=
  match status with
  | None => (-1, None)
  | Some s => getNodeCondition_from 0 (corev1.Conditions s) conditionType
  end.

(** The body of the [for] loop of [getNodeStatistics], on the named
    result [nodeStatistics].  A node is a [*corev1.Node]: [None] is the
    nil pointer, whose [node.Status] cannot be addressed. *)
Definition countNode (node : option corev1.Node) (ns : NodeStatistics)
  : result unit NodeStatistics :=
  match node with
  | None => Panic NilDereference
  | Some n =>
      let '(flag, condition) :=
        getNodeCondition (Some (corev1.NStatus n)) corev1.NodeReady in
      if flag =? -1 then
        Ok {| ReadyNodes := ReadyNodes ns;
              NotReadyNodes := NotReadyNodes ns;
              UnknownNodes := UnknownNodes ns;
              LostNodes := incr (LostNodes ns) |}
      else
        match condition with
        | None => Panic NilDereference
        | Some c =>
            if String.eqb (corev1.Status c) corev1.ConditionTrue then
              Ok {| ReadyNodes := incr (ReadyNodes ns);
                    NotReadyNodes := NotReadyNodes ns;
                    UnknownNodes := UnknownNodes ns;
                    LostNodes := LostNodes ns |}
            else if String.eqb (corev1.Status c) corev1.ConditionFalse then
              Ok {| ReadyNodes := ReadyNodes ns;
                    NotReadyNodes := incr (NotReadyNodes ns);
                    UnknownNodes := UnknownNodes ns;
                    LostNodes := LostNodes ns |}
            else if String.eqb (corev1.Status c) corev1.ConditionUnknown then
              Ok {| ReadyNodes := ReadyNodes ns;
                    NotReadyNodes := NotReadyNodes ns;
                    UnknownNodes := incr (UnknownNodes ns);
                    LostNodes := LostNodes ns |}
            else Ok ns
        end
  end.

Fixpoint getNodeStatistics_loop (nodes : list (option corev1.Node))
         (ns : NodeStatistics) : result unit NodeStatistics :=
  match nodes with
  | [] => Ok ns
  | node :: rest =>
      match countNode node ns with
      | Ok ns' => getNodeStatistics_loop rest ns'
      | Err e => Err e
      | Panic p => Panic p
      end
  end.

Definition getNodeStatistics (nodes : list (option corev1.Node))
  : result unit NodeStatistics :=
  getNodeStatistics_loop nodes
    {| ReadyNodes := 0; NotReadyNodes := 0; UnknownNodes := 0; LostNodes := 0 |}.

(** *** The controller and the memory it shares with its callers

    A [*ManagedClusterStatus] is the address of a struct cell; the two
    [ResourceList] fields of the struct are references to map cells. *)

Definition loc : Type := nat.

(** The fields of [clusterapi.ManagedClusterStatus] that the controller
    assigns. *)
Record ManagedClusterStatus : Type := {
  LastObservedTime : Z;
  KubernetesVersion : string;
  Platform : string;
  APIServerURL : string;
  Healthz : bool;
  Livez : bool;
  Readyz : bool;
  AppPusher : bool;
  UseSocket : bool;
  ParentAPIServerURL : string;
  ClusterCIDR : string;
  ServiceCIDR : string;
  StatusNodeStatistics : NodeStatistics;
  StatusAllocatable : option loc;
  StatusCapacity : option loc
}.

Definition zeroStatus : ManagedClusterStatus :=
  {| LastObservedTime := 0; KubernetesVersion := ""; Platform := "";
     APIServerURL := ""; Healthz := false; Livez := false; Readyz := false;
     AppPusher := false; UseSocket := false; ParentAPIServerURL := "";
     ClusterCIDR := ""; ServiceCIDR := "";
     StatusNodeStatistics :=
       {| ReadyNodes := 0; NotReadyNodes := 0; UnknownNodes := 0; LostNodes := 0 |};
     StatusAllocatable := None; StatusCapacity := None |}.

Definition withLastObservedTime (t : Z) (s : ManagedClusterStatus)
  : ManagedClusterStatus :=
  {| LastObservedTime := t; KubernetesVersion := KubernetesVersion s;
     Platform := Platform s; APIServerURL := APIServerURL s;
     Healthz := Healthz s; Livez := Livez s; Readyz := Readyz s;
     AppPusher := AppPusher s; UseSocket := UseSocket s;
     ParentAPIServerURL := ParentAPIServerURL s;
     ClusterCIDR := ClusterCIDR s; ServiceCIDR := ServiceCIDR s;
     StatusNodeStatistics := StatusNodeStatistics s;
     StatusAllocatable := StatusAllocatable s;
     StatusCapacity := StatusCapacity s |}.

Definition withResourceLists (allocatable capacity : option loc)
           (s : ManagedClusterStatus) : ManagedClusterStatus :=
  {| LastObservedTime := LastObservedTime s;
     KubernetesVersion := KubernetesVersion s;
     Platform := Platform s; APIServerURL := APIServerURL s;
     Healthz := Healthz s; Livez := Livez s; Readyz := Readyz s;
     AppPusher := AppPusher s; UseSocket := UseSocket s;
     ParentAPIServerURL := ParentAPIServerURL s;
     ClusterCIDR := ClusterCIDR s; ServiceCIDR := ServiceCIDR s;
     StatusNodeStatistics := StatusNodeStatistics s;
     StatusAllocatable := allocatable;
     StatusCapacity := capacity |}.

Record Heap : Type := {
  statuses : gmap loc ManagedClusterStatus;
  lists : gmap loc (gmap string Z)
}.

(** [new(ManagedClusterStatus)], or a struct value that escapes. *)
Definition allocStatus (s : ManagedClusterStatus) (h : Heap) : loc * Heap :=
  let p := fresh (dom (statuses h)) in
  (p, {| statuses := <[p := s]> (statuses h); lists := lists h |}).

(** [make(map[...]...)] filled with the entries [m]. *)
Definition allocList (m : gmap string Z) (h : Heap) : loc * Heap :=
  let l := fresh (dom (lists h)) in
  (l, {| statuses := statuses h; lists := <[l := m]> (lists h) |}).

(** The controller: its configuration and the pointer [clusterStatus].
    Every method takes [c.lock] for its whole body, so calls are run one
    at a time here. *)
Record Controller : Type := {
  clusterStatus : option loc;
  apiserverURL : string;
  appPusherEnabled : bool;
  useSocket : bool;
  parentAPIServer : string
}.

Definition withClusterStatus (p : option loc) (c : Controller) : Controller :=
  {| clusterStatus := p; apiserverURL := apiserverURL c;
     appPusherEnabled := appPusherEnabled c; useSocket := useSocket c;
     parentAPIServer := parentAPIServer c |}.

(** [NewController]: the mutable field starts out nil. *)
Definition NewController (apiserverURL parentAPIServerURL : string)
           (appPusher socket : bool) : Controller :=
  {| clusterStatus := None; apiserverURL := apiserverURL;
     appPusherEnabled := appPusher; useSocket := socket;
     parentAPIServer := parentAPIServerURL |}.

(** [setClusterStatus]; [now] is what [metav1.Now()] returns.  The
    parameter [status] is a copy of the caller's struct and its address
    becomes the stored pointer. *)
Definition setClusterStatus (status : ManagedClusterStatus) (now : Z)
           (c : Controller) (h : Heap) : Controller * Heap :=
  let '(c, h) :=
    match clusterStatus c with
    | None =>
        let '(p0, h) := allocStatus zeroStatus h in
        (withClusterStatus (Some p0) c, h)
    | Some _ => (c, h)
    end in
  let '(p, h) := allocStatus status h in
  let c := withClusterStatus (Some p) c in
  (c, {| statuses := alter (withLastObservedTime now) p (statuses h);
         lists := lists h |}).

(** The copy of one [ResourceList] field made by [DeepCopyInto]: nil stays
    nil, a map is copied entry by entry into a new map. *)
Definition copyList (ol : option loc) (h : Heap)
  : result unit (option loc) * Heap :=
  match ol with
  | None => (Ok None, h)
  | Some l =>
      match lists h !! l with
      | None => (Panic NilDereference, h)
      | Some m => let '(l', h) := allocList m h in (Ok (Some l'), h)
      end
  end.

(** Modelled from the spec: [ManagedClusterStatus.DeepCopy], generated code
    of [pkg/apis/clusters/v1beta1] that is not among the sources.  A deep
    copy is a new struct whose value fields equal the original's and whose
    reference fields point to new copies. *)
Definition DeepCopy (p : loc) (h : Heap) : result unit (option loc) * Heap :=
  match statuses h !! p with
  | None => (Panic NilDereference, h)
  | Some s =>
      match copyList (StatusAllocatable s) h with
      | (Ok a, h) =>
          match copyList (StatusCapacity s) h with
          | (Ok c, h) =>
              let '(q, h) := allocStatus (withResourceLists a c s) h in
              (Ok (Some q), h)
          | (r, h) => (r, h)
          end
      | (r, h) => (r, h)
      end
  end.

Definition GetClusterStatus (c : Controller) (h : Heap)
  : result unit (option loc) * Heap :=
  match clusterStatus c with
  | None => (Ok None, h)
  | Some p => DeepCopy p h
  end.

(** [getNodeResource]: the sums over the nodes, stored in two new maps. *)
Fixpoint getNodeResource_loop (nodes : list (option corev1.Node))
         (sums : Z * Z * Z * Z) : result unit (Z * Z * Z * Z) :=
  match nodes with
  | [] => Ok sums
  | None :: _ => Panic NilDereference
  | Some node :: rest =>
      let '(capacityCpu, capacityMem, allocatableCpu, allocatableMem) := sums in
      let status := corev1.NStatus node in
      getNodeResource_loop rest
        (capacityCpu + corev1.Cpu (corev1.Capacity status),
         capacityMem + corev1.Memory (corev1.Capacity status),
         allocatableCpu + corev1.Cpu (corev1.Allocatable status),
         allocatableMem + corev1.Memory (corev1.Allocatable status))
  end.

Definition getNodeResource (nodes : list (option corev1.Node)) (h : Heap)
  : result unit (loc * loc) * Heap :=
  let '(Capacity, h) := allocList ∅ h in
  let '(Allocatable, h) := allocList ∅ h in
  match getNodeResource_loop nodes (0, 0, 0, 0) with
  | Ok (capacityCpu, capacityMem, allocatableCpu, allocatableMem) =>
      (Ok (Capacity, Allocatable),
       {| statuses := statuses h;
          lists :=
            alter (λ m, <[corev1.ResourceMemory := allocatableMem]>
                          (<[corev1.ResourceCPU := allocatableCpu]> m))
                  Allocatable
                  (alter (λ m, <[corev1.ResourceMemory := capacityMem]>
                                 (<[corev1.ResourceCPU := capacityCpu]> m))
                         Capacity (lists h)) |})
  | Err e => (Err e, h)
  | Panic p => (Panic p, h)
  end.

(** What one round of [collectingClusterStatus] obtains from the cluster
    and the clock: the version info (nil when the query failed), the listed
    nodes, the two CIDRs, the three health probes and the time. *)
Record Observed : Type := {
  clusterVersion : option (string * string);
  nodes : list (option corev1.Node);
  clusterCIDR : string;
  serviceCIDR : string;
  healthz : bool;
  livez : bool;
  readyz : bool;
  now : Z
}.

Definition collectingClusterStatus (o : Observed) (c : Controller) (h : Heap)
  : result unit unit * (Controller * Heap) :=
  match getNodeStatistics (nodes o) with
  | Ok nodeStatistics =>
      match getNodeResource (nodes o) h with
      | (Ok (capacity, allocatable), h) =>
          match clusterVersion o with
          | None => (Panic NilDereference, (c, h))
          | Some (GitVersion, Platform) =>
              let status :=
                {| LastObservedTime := 0;
                   KubernetesVersion := GitVersion;
                   Platform := Platform;
                   APIServerURL := apiserverURL c;
                   Healthz := healthz o;
                   Livez := livez o;
                   Readyz := readyz o;
                   AppPusher := appPusherEnabled c;
                   UseSocket := useSocket c;
                   ParentAPIServerURL := parentAPIServer c;
                   ClusterCIDR := clusterCIDR o;
                   ServiceCIDR := serviceCIDR o;
                   StatusNodeStatistics := nodeStatistics;
                   StatusAllocatable := Some allocatable;
                   StatusCapacity := Some capacity |} in
              (Ok tt, setClusterStatus status (now o) c h)
          end
      | (Err e, h) => (Err e, (c, h))
      | (Panic p, h) => (Panic p, (c, h))
      end
  | Err e => (Err e, (c, h))
  | Panic p => (Panic p, (c, h))
  end.

(** What happens to a controller over time: rounds of collection and calls
    of [GetClusterStatus]. *)
Inductive event : Type :=
| Collect (o : Observed)
| Get.

Fixpoint run (events : list event) (c : Controller) (h : Heap)
  : result unit (Controller * Heap) :=
  match events with
  | [] => Ok (c, h)
  | Collect o :: rest =>
      match collectingClusterStatus o c h with
      | (Ok _, (c, h)) => run rest c h
      | (Err e, _) => Err e
      | (Panic p, _) => Panic p
      end
  | Get :: rest =>
      match GetClusterStatus c h with
      | (Ok _, h) => run rest c h
      | (Err e, _) => Err e
      | (Panic p, _) => Panic p
      end
  end.

(** What a holder of the pointer [p] can read through it: the struct's own
    fields and the contents of the two maps it refers to. *)
Definition view (h : Heap) (p : loc)
  : option (ManagedClusterStatus * option (gmap string Z) * option (gmap string Z)) :=
  s ← statuses h !! p;
  Some (withResourceLists None None s,
        l ← StatusAllocatable s; lists h !! l,
        l ← StatusCapacity s; lists h !! l).

End Statistics.

End clusterstatus.

(** ** The API-machinery types the shadow installer handles

    One module per Go struct, with the fields the installer reads or
    writes. *)

(** [k8s.io/apimachinery/pkg/runtime/schema] *)
Module GroupVersion.
Record t : Type := { Group : string; Version : string }.

(** [func (gv GroupVersion) String() string] *)
Definition String (gv : t) : string :=
  if 0 <? len (Group gv) then Group gv +:+ "/" +:+ Version gv else Version gv.
End GroupVersion.

Module GroupVersionKind.
Record t : Type := { Group : string; Version : string; Kind : string }.
End GroupVersionKind.

(** [func (gv GroupVersion) WithKind(kind string) GroupVersionKind] *)
Definition WithKind (gv : GroupVersion.t) (kind : string) : GroupVersionKind.t :=
  {| GroupVersionKind.Group := GroupVersion.Group gv;
     GroupVersionKind.Version := GroupVersion.Version gv;
     GroupVersionKind.Kind := kind |}.

(** [k8s.io/apimachinery/pkg/apis/meta/v1] *)
Module GroupVersionForDiscovery.
Record t : Type := { GroupVersion : string; Version : string }.
End GroupVersionForDiscovery.

Module APIResource.
Record t : Type := {
  Name : string;
  Namespaced : bool;
  Kind : string;
  ShortNames : list string
}.
End APIResource.

Module APIGroup.
Record t : Type := {
  Name : string;
  Versions : list GroupVersionForDiscovery.t;
  PreferredVersion : GroupVersionForDiscovery.t
}.
End APIGroup.

(** [k8s.io/client-go/restmapper]: one discovered group with the resources
    of each of its versions. *)
Module APIGroupResources.
Record t : Type := {
  Group : APIGroup.t;
  VersionedResources : gmap string (list APIResource.t)
}.
End APIGroupResources.

(** Modelled from the spec: the storage adapter [template.REST] of
    [pkg/registry/shadow/template], which is not among the sources.  "Each
    adapter is constructed with a fixed descriptor (name, kind, group,
    version, namespaced flag, short names)"; the downstream-access clients it
    also holds are opaque handles and carry nothing the installer reads. *)
Module REST.
Record t : Type := {
  name : string;
  shortNames : list string;
  kind : string;
  group : string;
  version : string;
  namespaced : bool
}.

Definition NewREST : t :=
  {| name := ""; shortNames := []; kind := ""; group := ""; version := "";
     namespaced := false |}.

Definition SetNamespaceScoped (b : bool) (r : t) : t :=
  {| name := name r; shortNames := shortNames r; kind := kind r;
     group := group r; version := version r; namespaced := b |}.
Definition SetName (s : string) (r : t) : t :=
  {| name := s; shortNames := shortNames r; kind := kind r;
     group := group r; version := version r; namespaced := namespaced r |}.
Definition SetShortNames (l : list string) (r : t) : t :=
  {| name := name r; shortNames := l; kind := kind r;
     group := group r; version := version r; namespaced := namespaced r |}.
Definition SetKind (s : string) (r : t) : t :=
  {| name := name r; shortNames := shortNames r; kind := s;
     group := group r; version := version r; namespaced := namespaced r |}.
Definition SetGroup (s : string) (r : t) : t :=
  {| name := name r; shortNames := shortNames r; kind := kind r;
     group := s; version := version r; namespaced := namespaced r |}.
Definition SetVersion (s : string) (r : t) : t :=
  {| name := name r; shortNames := shortNames r; kind := kind r;
     group := group r; version := s; namespaced := namespaced r |}.
End REST.

(** [k8s.io/apiserver/pkg/server.APIGroupInfo].  [rest.Storage] is an
    interface; the adapters above are its only implementation here. *)
Module APIGroupInfo.
Record t : Type := {
  PrioritizedVersions : list GroupVersion.t;
  VersionedResourcesStorageMap : gmap string (gmap string REST.t);
  OptionsExternalVersion : option GroupVersion.t
}.
End APIGroupInfo.

(** [k8s.io/apiserver/pkg/endpoints.APIGroupVersion]: what is handed to the
    route installer for one group-version.  The serializer, scheme,
    admission and authorizer it also binds are references to collaborators
    and hold no data of the installer. *)
Module APIGroupVersion.
Record t : Type := {
  GroupVersion : GroupVersion.t;
  Root : string;
  Storage : gmap string REST.t;
  OptionsExternalVersion : option GroupVersion.t;
  MaxRequestBodyBytes : Z;
  MinRequestTimeout : Z
}.
End APIGroupVersion.

(** [k8s.io/apiserver/pkg/storageversion.ResourceInfo] *)
Module ResourceInfo.
Record t : Type := {
  Group : string;
  Resource : string;
  EncodingVersion : string
}.
End ResourceInfo.

(** The feature gates the installer consults. *)
Inductive Feature : Type :=
| StorageVersionAPI
| APIServerIdentity.

(** ** [pkg/hub/apiserver/shadow/apiserver.go] *)

Module apiserver.

(** Modelled from the spec: the constants [GroupName] and
    [SchemeGroupVersion] of [pkg/apis/shadow/v1alpha1], which is not among
    the sources; the shadow API is served under [/apis/shadow/v1alpha1]. *)
Module shadowapi.
Definition GroupName : string := "shadow".
Definition SchemeGroupVersion : GroupVersion.t :=
  {| GroupVersion.Group := GroupName; GroupVersion.Version := "v1alpha1" |}.
End shadowapi.

Definition clusternetGroupSuffix : string := ".clusternet.io".

(** [genericapiserver.APIGroupPrefix] *)
Definition APIGroupPrefix : string := "/apis".

(** The [error] values the installer returns: the ones it formats itself,
    each around what it was formatted from, and the ones it receives from
    its collaborators. *)
Inductive error : Type :=
| ExternalError (msg : string)
| EmptyGroup (info : APIGroupInfo.t)
| EmptyVersion (info : APIGroupInfo.t)
| UnableToInstall (err : error)
| UnableToSetup (info : APIGroupInfo.t) (err : error).

(** What [GoRestfulContainer] holds: the web service of a group-version
    (added by [InstallREST]) or the version-enumeration handler of a group. *)
Inductive WebService : Type :=
| VersionWS (v : APIGroupVersion.t)
| GroupWS (g : APIGroup.t).

(** The mutable state the installer writes to: the package-level [Scheme]
    and the parts of [ss.GenericAPIServer] it touches.  Each is kept as
    the sequence of additions made so far. *)
Record ServerState : Type := {
  Scheme : list GroupVersionKind.t;
  GoRestfulContainer : list WebService;
  DiscoveryGroupManager : list APIGroup.t;
  StorageVersionManager : list (list ResourceInfo.t)
}.

(** The configuration fields of [ShadowAPIServer]. *)
Record ShadowAPIServer : Type := {
  maxRequestBodyBytes : Z;
  minRequestTimeout : Z
}.

(** What the installer calls but does not define.  Calls return what their
    Go signatures return; failures inside them that are not returned as an
    [error] are outside this model. *)
Class External : Type := {
  (** [discovery.DiscoveryInterface], the downstream discovery client *)
  DiscoveryInterface : Type;
  (** [restmapper.GetAPIGroupResources] *)
  GetAPIGroupResources :
    DiscoveryInterface → error + list APIGroupResources.t;
  (** [strings.ToLower] *)
  ToLower : string → string;
  (** the order in which [range] visits the entries of a map, which Go
      leaves unspecified: any enumeration of the entries *)
  range_order : gmap string REST.t → list (string * REST.t);
  range_order_perm : ∀ m, range_order m ≡ₚ map_to_list m;
  (** what [APIGroupVersion.InstallREST] returns on a container *)
  InstallREST_returns :
    list WebService → APIGroupVersion.t → error + list ResourceInfo.t;
  (** [utilfeature.DefaultFeatureGate.Enabled] *)
  Enabled : Feature → bool;
  (** [Scheme.PrioritizedVersionsForGroup], read by
      [genericapiserver.NewDefaultAPIGroupInfo] *)
  PrioritizedVersionsForGroup :
    list GroupVersionKind.t → string → list GroupVersion.t
}.

(** State and error passing: a call reads and writes the server state and
    returns, fails with an [error], or panics; the writes made before a
    failure stay. *)
Definition M (A : Type) : Type := ServerState → result error A * ServerState.

Definition ret {A} (a : A) : M A := λ st, (Ok a, st).
Definition fail {A} (e : error) : M A := λ st, (Err e, st).
Definition panic_with {A} (p : panic) : M A := λ st, (Panic p, st).
Definition bind {A B} (c : M A) (k : A → M B) : M B :=
  λ st, match c st with
        | (Ok a, st') => k a st'
        | (Err e, st') => (Err e, st')
        | (Panic p, st') => (Panic p, st')
        end.

Notation "x <~ c ;; k" := (bind c (λ x, k))
  (at level 100, c at next level, right associativity).
Notation "c ;;; k" := (bind c (λ _, k))
  (at level 100, right associativity).

(** [vs[0]] *)
Definition index0 {A} (vs : list A) : M A :=
  match vs with
  | [] => panic_with IndexOutOfRange
  | v :: _ => ret v
  end.

(** [m[k]] on a map of maps or of slices: the zero value when [k] is absent. *)
Definition storageOf (info : APIGroupInfo.t) (version : string)
  : gmap string REST.t :=
  default ∅ (APIGroupInfo.VersionedResourcesStorageMap info !! version).

Definition resourcesOf (g : APIGroupResources.t) (version : string)
  : list APIResource.t :=
  default [] (APIGroupResources.VersionedResources g !! version).

(** *** The writes to the collaborators

    Each write is kept as what it adds; a panic raised inside a
    collaborator is outside this model. *)

Definition AddKnownTypeWithName (gvk : GroupVersionKind.t) (st : ServerState)
  : ServerState :=
  {| Scheme := Scheme st ++ [gvk];
     GoRestfulContainer := GoRestfulContainer st;
     DiscoveryGroupManager := DiscoveryGroupManager st;
     StorageVersionManager := StorageVersionManager st |}.

Definition ContainerAdd (ws : WebService) (st : ServerState) : ServerState :=
  {| Scheme := Scheme st;
     GoRestfulContainer := GoRestfulContainer st ++ [ws];
     DiscoveryGroupManager := DiscoveryGroupManager st;
     StorageVersionManager := StorageVersionManager st |}.

Definition AddGroup (g : APIGroup.t) (st : ServerState) : ServerState :=
  {| Scheme := Scheme st;
     GoRestfulContainer := GoRestfulContainer st;
     DiscoveryGroupManager := DiscoveryGroupManager st ++ [g];
     StorageVersionManager := StorageVersionManager st |}.

Definition AddResourceInfo (infos : list ResourceInfo.t) (st : ServerState)
  : ServerState :=
  {| Scheme := Scheme st;
     GoRestfulContainer := GoRestfulContainer st;
     DiscoveryGroupManager := DiscoveryGroupManager st;
     StorageVersionManager := StorageVersionManager st ++ [infos] |}.

Section Installer.

Context {external : External}.

(** [apiGroupVersion.InstallREST(container)]: the group-version's web
    service goes into the container and the call returns the resource
    infos or an error. *)
Definition InstallREST (v : APIGroupVersion.t) : M (list ResourceInfo.t) :=
  λ st,
    match InstallREST_returns (GoRestfulContainer st) v with
    | inl err => (Err err, ContainerAdd (VersionWS v) st)
    | inr infos => (Ok infos, ContainerAdd (VersionWS v) st)
    end.

Definition newAPIGroupVersion (ss : ShadowAPIServer)
           (apiGroupInfo : APIGroupInfo.t) (groupVersion : GroupVersion.t)
  : APIGroupVersion.t :=
  {| APIGroupVersion.GroupVersion := groupVersion;
     APIGroupVersion.Root := "";
     APIGroupVersion.Storage := ∅;
     APIGroupVersion.OptionsExternalVersion := None;
     APIGroupVersion.MaxRequestBodyBytes := 0;
     APIGroupVersion.MinRequestTimeout :=
       wrap 64 (wrap 64 (minRequestTimeout ss) * 1000000000) |}.

(** The [for k, v := range ...] loop of [getAPIGroupVersion] over the
    entries in the order they are visited. *)
Definition lowerKeys (entries : list (string * REST.t)) : gmap string REST.t :=
  foldl (λ storage kv, <[ToLower kv.1 := kv.2]> storage) ∅ entries.

Definition getAPIGroupVersion (ss : ShadowAPIServer)
           (apiGroupInfo : APIGroupInfo.t) (groupVersion : GroupVersion.t)
           (apiPrefix : string) : APIGroupVersion.t :=
  let storage :=
    lowerKeys (range_order (storageOf apiGroupInfo (GroupVersion.Version groupVersion))) in
  let version := newAPIGroupVersion ss apiGroupInfo groupVersion in
  {| APIGroupVersion.GroupVersion := APIGroupVersion.GroupVersion version;
     APIGroupVersion.Root := apiPrefix;
     APIGroupVersion.Storage := storage;
     APIGroupVersion.OptionsExternalVersion :=
       APIGroupVersion.OptionsExternalVersion version;
     APIGroupVersion.MaxRequestBodyBytes :=
       APIGroupVersion.MaxRequestBodyBytes version;
     APIGroupVersion.MinRequestTimeout :=
       APIGroupVersion.MinRequestTimeout version |}.

(** The group-version as [installAPIResources] hands it to [InstallREST]. *)
Definition preparedVersion (ss : ShadowAPIServer) (apiPrefix : string)
           (apiGroupInfo : APIGroupInfo.t) (groupVersion : GroupVersion.t)
  : APIGroupVersion.t :=
  let apiGroupVersion := getAPIGroupVersion ss apiGroupInfo groupVersion apiPrefix in
  {| APIGroupVersion.GroupVersion := APIGroupVersion.GroupVersion apiGroupVersion;
     APIGroupVersion.Root := APIGroupVersion.Root apiGroupVersion;
     APIGroupVersion.Storage := APIGroupVersion.Storage apiGroupVersion;
     APIGroupVersion.OptionsExternalVersion :=
       match APIGroupInfo.OptionsExternalVersion apiGroupInfo with
       | Some v => Some v
       | None => APIGroupVersion.OptionsExternalVersion apiGroupVersion
       end;
     APIGroupVersion.MaxRequestBodyBytes := maxRequestBodyBytes ss;
     APIGroupVersion.MinRequestTimeout :=
       APIGroupVersion.MinRequestTimeout apiGroupVersion |}.

(** The first loop of [installAPIResources], over the prioritized versions
    still to visit, with the resource infos gathered so far. *)
Fixpoint installVersions (ss : ShadowAPIServer) (apiPrefix : string)
         (apiGroupInfo : APIGroupInfo.t) (versions : list GroupVersion.t)
         (resourceInfos : list ResourceInfo.t) : M (list ResourceInfo.t) :=
  match versions with
  | [] => ret resourceInfos
  | groupVersion :: rest =>
      if (size (storageOf apiGroupInfo (GroupVersion.Version groupVersion)) =? 0)%nat
      then installVersions ss apiPrefix apiGroupInfo rest resourceInfos
      else
        λ st,
          match InstallREST (preparedVersion ss apiPrefix apiGroupInfo groupVersion) st with
          | (Ok r, st') =>
              installVersions ss apiPrefix apiGroupInfo rest (resourceInfos ++ r) st'
          | (Err err, st') => (Err (UnableToSetup apiGroupInfo err), st')
          | (Panic p, st') => (Panic p, st')
          end
  end.

Definition installAPIResources (ss : ShadowAPIServer) (apiPrefix : string)
           (apiGroupInfo : APIGroupInfo.t) : M unit :=
  resourceInfos <~ installVersions ss apiPrefix apiGroupInfo
                     (APIGroupInfo.PrioritizedVersions apiGroupInfo) [] ;;
  if Enabled StorageVersionAPI && Enabled APIServerIdentity
  then λ st, (Ok tt, AddResourceInfo resourceInfos st)
  else ret tt.

(** The first loop of [installAPIGroups]. *)
Fixpoint validateGroups (apiGroupInfos : list APIGroupInfo.t) : M unit :=
  match apiGroupInfos with
  | [] => ret tt
  | apiGroupInfo :: rest =>
      v <~ index0 (APIGroupInfo.PrioritizedVersions apiGroupInfo) ;;
      if len (GroupVersion.Group v) =? 0 then fail (EmptyGroup apiGroupInfo)
      else
        v <~ index0 (APIGroupInfo.PrioritizedVersions apiGroupInfo) ;;
        if len (GroupVersion.Version v) =? 0 then fail (EmptyVersion apiGroupInfo)
        else validateGroups rest
  end.

Definition toDiscovery (groupVersion : GroupVersion.t) : GroupVersionForDiscovery.t :=
  {| GroupVersionForDiscovery.GroupVersion := GroupVersion.String groupVersion;
     GroupVersionForDiscovery.Version := GroupVersion.Version groupVersion |}.

(** The inner loop of [installAPIGroups] that builds
    [apiVersionsForDiscovery]. *)
Definition discoveryVersions (apiGroupInfo : APIGroupInfo.t)
  : list GroupVersionForDiscovery.t :=
  foldl (λ apiVersionsForDiscovery groupVersion,
           if (size (storageOf apiGroupInfo (GroupVersion.Version groupVersion)) =? 0)%nat
           then apiVersionsForDiscovery
           else apiVersionsForDiscovery ++ [toDiscovery groupVersion])
        [] (APIGroupInfo.PrioritizedVersions apiGroupInfo).

(** The body of the second loop of [installAPIGroups]. *)
Definition installGroup (ss : ShadowAPIServer) (apiGroupInfo : APIGroupInfo.t)
  : M unit :=
  (λ st, match installAPIResources ss APIGroupPrefix apiGroupInfo st with
         | (Ok _, st') => (Ok tt, st')
         | (Err err, st') => (Err (UnableToInstall err), st')
         | (Panic p, st') => (Panic p, st')
         end) ;;;
  let apiVersionsForDiscovery := discoveryVersions apiGroupInfo in
  v <~ index0 (APIGroupInfo.PrioritizedVersions apiGroupInfo) ;;
  let preferredVersionForDiscovery := toDiscovery v in
  v <~ index0 (APIGroupInfo.PrioritizedVersions apiGroupInfo) ;;
  let apiGroup :=
    {| APIGroup.Name := GroupVersion.Group v;
       APIGroup.Versions := apiVersionsForDiscovery;
       APIGroup.PreferredVersion := preferredVersionForDiscovery |} in
  λ st, (Ok tt, ContainerAdd (GroupWS apiGroup) (AddGroup apiGroup st)).

Fixpoint installGroups (ss : ShadowAPIServer) (apiGroupInfos : list APIGroupInfo.t)
  : M unit :=
  match apiGroupInfos with
  | [] => ret tt
  | apiGroupInfo :: rest =>
      installGroup ss apiGroupInfo ;;; installGroups ss rest
  end.

Definition installAPIGroups (ss : ShadowAPIServer)
           (apiGroupInfos : list APIGroupInfo.t) : M unit :=
  validateGroups apiGroupInfos ;;; installGroups ss apiGroupInfos.

(** The adapter [InstallShadowAPIGroups] builds for one resource of a
    group at its preferred version. *)
Definition resourceRest (groupName preferredVersion : string)
           (apiresource : APIResource.t) : REST.t :=
  REST.SetVersion preferredVersion
    (REST.SetGroup groupName
       (REST.SetKind (APIResource.Kind apiresource)
          (REST.SetShortNames (APIResource.ShortNames apiresource)
             (REST.SetName (APIResource.Name apiresource)
                (REST.SetNamespaceScoped (APIResource.Namespaced apiresource)
                   REST.NewREST))))).

(** The body of the inner loop of [InstallShadowAPIGroups], on the map
    [shadowv1alpha1storage] and the state. *)
Definition mirrorResource (groupName preferredVersion : string)
           (acc : gmap string REST.t * ServerState) (apiresource : APIResource.t)
  : gmap string REST.t * ServerState :=
  let st :=
    AddKnownTypeWithName
      (WithKind {| GroupVersion.Group := groupName;
                   GroupVersion.Version := preferredVersion |}
                (APIResource.Kind apiresource))
      acc.2 in
  (<[APIResource.Name apiresource :=
       resourceRest groupName preferredVersion apiresource]> acc.1, st).

(** The body of the outer loop. *)
Definition mirrorGroup (acc : gmap string REST.t * ServerState)
           (apiGroupResource : APIGroupResources.t)
  : gmap string REST.t * ServerState :=
  let groupName := APIGroup.Name (APIGroupResources.Group apiGroupResource) in
  if HasSuffix groupName clusternetGroupSuffix then acc
  else if String.eqb groupName shadowapi.GroupName then acc
  else
    let preferredVersion :=
      GroupVersionForDiscovery.Version
        (APIGroup.PreferredVersion (APIGroupResources.Group apiGroupResource)) in
    foldl (mirrorResource groupName preferredVersion) acc
          (resourcesOf apiGroupResource preferredVersion).

(** [genericapiserver.NewDefaultAPIGroupInfo] *)
Definition NewDefaultAPIGroupInfo (group : string) (scheme : list GroupVersionKind.t)
  : APIGroupInfo.t :=
  {| APIGroupInfo.PrioritizedVersions := PrioritizedVersionsForGroup scheme group;
     APIGroupInfo.VersionedResourcesStorageMap := ∅;
     APIGroupInfo.OptionsExternalVersion :=
       Some {| GroupVersion.Group := ""; GroupVersion.Version := "v1" |} |}.

(** The group info [InstallShadowAPIGroups] assembles around the storage
    map. *)
Definition shadowAPIGroupInfo (scheme : list GroupVersionKind.t)
           (shadowv1alpha1storage : gmap string REST.t) : APIGroupInfo.t :=
  let info := NewDefaultAPIGroupInfo shadowapi.GroupName scheme in
  {| APIGroupInfo.PrioritizedVersions :=
       [ {| GroupVersion.Group := shadowapi.GroupName;
            GroupVersion.Version :=
              GroupVersion.Version shadowapi.SchemeGroupVersion |} ];
     APIGroupInfo.VersionedResourcesStorageMap :=
       <["v1alpha1" := shadowv1alpha1storage]>
         (APIGroupInfo.VersionedResourcesStorageMap info);
     APIGroupInfo.OptionsExternalVersion :=
       APIGroupInfo.OptionsExternalVersion info |}.

Definition InstallShadowAPIGroups (ss : ShadowAPIServer) (cl : DiscoveryInterface)
  : M unit :=
  λ st,
    match GetAPIGroupResources cl with
    | inl err => (Err err, st)
    | inr apiGroupResources =>
        let acc := foldl mirrorGroup (∅, st) apiGroupResources in
        installAPIGroups ss [shadowAPIGroupInfo (Scheme acc.2) acc.1] acc.2
    end.

End Installer.

End apiserver.

(** * Part II: properties *)

(** ** Strings *)

Module GoSpec.

Lemma append_cons a s t : String a s +:+ t = String a (s +:+ t).
Proof. reflexivity. Qed.

Lemma append_nil t : "" +:+ t = t.
Proof. reflexivity. Qed.

Lemma substring_all t : String.substring 0 (String.length t) t = t.
Proof. induction t as [|a t IH]; simpl; [done|]. by rewrite IH. Qed.

Lemma substring_app_r p t :
  String.substring (String.length p) (String.length t) (p +:+ t) = t.
Proof.
  induction p as [|a p IH]; [rewrite append_nil; apply substring_all|].
  rewrite append_cons. simpl. done.
Qed.

Lemma substring_split n s :
  (n ≤ String.length s)%nat →
  s = String.substring 0 n s +:+ String.substring n (String.length s - n) s.
Proof.
  revert n. induction s as [|a s IH]; intros [|n] Hn; simpl in *; try lia.
  - done.
  - by rewrite substring_all.
  - rewrite append_cons. f_equal. apply IH. lia.
Qed.

Lemma length_app p t :
  String.length (p +:+ t) = (String.length p + String.length t)%nat.
Proof.
  induction p as [|a p IH]; [done|]. rewrite append_cons. simpl. by rewrite IH.
Qed.

(** [HasSuffix] decides "ends with". *)
Lemma HasSuffix_spec s suffix :
  HasSuffix s suffix = true ↔ ∃ p, s = p +:+ suffix.
Proof.
  unfold HasSuffix. rewrite andb_true_iff, Nat.leb_le, String.eqb_eq. split.
  - intros [Hle Hsub].
    exists (String.substring 0 (String.length s - String.length suffix) s).
    pose proof (substring_split (String.length s - String.length suffix) s
                  ltac:(lia)) as Hsplit.
    replace (String.length s - (String.length s - String.length suffix))%nat
      with (String.length suffix) in Hsplit by lia.
    by rewrite Hsub in Hsplit.
  - intros [p ->]. rewrite length_app. split; [lia|].
    replace (String.length p + String.length suffix - String.length suffix)%nat
      with (String.length p) by lia.
    apply substring_app_r.
Qed.

End GoSpec.

(** * Properties of the shadow API installer *)

Module ShadowSpec.

Import apiserver.

(** ** Last writer wins

    What a loop of map assignments [m[key x] = val x] over a sequence
    leaves under a key: the value of the last element with that key. *)

Definition lastWriter {A} (key : A → string) (k : string) (l : list A)
  : option A :=
  last (filter (λ x, key x = k) l).

Definition assignAll {A V} (key : A → string) (val : A → V)
           (m : gmap string V) (l : list A) : gmap string V :=
  foldl (λ m x, <[key x := val x]> m) m l.

Lemma lastWriter_cons {A} (key : A → string) k x l :
  lastWriter key k (x :: l) =
    match lastWriter key k l with
    | Some y => Some y
    | None => if decide (key x = k) then Some x else None
    end.
Proof.
  unfold lastWriter. rewrite filter_cons. case_decide; [|by destruct (last _)].
  rewrite last_cons. by destruct (last _).
Qed.


Lemma lastWriter_Some {A} (key : A → string) k l x :
  lastWriter key k l = Some x → x ∈ l ∧ key x = k.
Proof.
  unfold lastWriter. intros Hl.
  assert (x ∈ filter (λ x, key x = k) l) as Hin.
  { apply last_Some in Hl as [l' ->]. set_solver. }
  by apply list_elem_of_filter in Hin as [? ?].
Qed.

Lemma lastWriter_None {A} (key : A → string) k l :
  lastWriter key k l = None ↔ ∀ x, x ∈ l → key x ≠ k.
Proof.
  unfold lastWriter. rewrite last_None. split.
  - intros Hnil x Hx Hk.
    assert (x ∈ filter (λ x, key x = k) l) as Hin by by apply list_elem_of_filter.
    rewrite Hnil in Hin. by apply not_elem_of_nil in Hin.
  - intros Hno. induction l as [|x l IH]; [done|].
    rewrite filter_cons, decide_False.
    + apply IH. intros y Hy. apply Hno. by right.
    + apply Hno. by left.
Qed.

Lemma assignAll_lookup {A V} (key : A → string) (val : A → V) l : ∀ m k,
  assignAll key val m l !! k =
    match lastWriter key k l with
    | Some x => Some (val x)
    | None => m !! k
    end.
Proof.
  induction l as [|x l IH]; intros m k; simpl; [done|].
  rewrite IH, lastWriter_cons. destruct (lastWriter key k l); [done|].
  case_decide as Hk.
  - subst. by rewrite lookup_insert_eq.
  - by rewrite lookup_insert_ne.
Qed.

Lemma assignAll_app {A V} (key : A → string) (val : A → V) m l1 l2 :
  assignAll key val m (l1 ++ l2) = assignAll key val (assignAll key val m l1) l2.
Proof. apply foldl_app. Qed.

(** ** The resources [InstallShadowAPIGroups] mirrors *)

Definition groupName (g : APIGroupResources.t) : string :=
  APIGroup.Name (APIGroupResources.Group g).

Definition preferredVersion (g : APIGroupResources.t) : string :=
  GroupVersionForDiscovery.Version
    (APIGroup.PreferredVersion (APIGroupResources.Group g)).

(** A group is excluded when its name ends with the reserved suffix or is
    the shadow group's own name. *)
Definition excluded (g : APIGroupResources.t) : Prop :=
  (∃ p, groupName g = p +:+ clusternetGroupSuffix)
  ∨ groupName g = shadowapi.GroupName.

Definition isExcluded (g : APIGroupResources.t) : bool :=
  HasSuffix (groupName g) clusternetGroupSuffix
  || String.eqb (groupName g) shadowapi.GroupName.

Lemma isExcluded_spec g : isExcluded g = true ↔ excluded g.
Proof.
  unfold isExcluded, excluded.
  by rewrite orb_true_iff, GoSpec.HasSuffix_spec, String.eqb_eq.
Qed.

(** One mirrored resource: a resource with the group and version it is
    mirrored from. *)
Record Mirrored : Type := {
  fromGroup : string;
  fromVersion : string;
  resource : APIResource.t
}.

Definition adapterOf (x : Mirrored) : REST.t :=
  resourceRest (fromGroup x) (fromVersion x) (resource x).

Definition kindOf (x : Mirrored) : GroupVersionKind.t :=
  {| GroupVersionKind.Group := fromGroup x;
     GroupVersionKind.Version := fromVersion x;
     GroupVersionKind.Kind := APIResource.Kind (resource x) |}.

Definition nameOf (x : Mirrored) : string := APIResource.Name (resource x).

(** The resources of one group that are mirrored: none of an excluded
    group, otherwise those listed under the preferred version, in order. *)
Definition mirroredOf (g : APIGroupResources.t) : list Mirrored :=
  if isExcluded g then []
  else (λ r, {| fromGroup := groupName g; fromVersion := preferredVersion g;
                resource := r |}) <$> resourcesOf g (preferredVersion g).

Definition mirrored (groups : list APIGroupResources.t) : list Mirrored :=
  groups ≫= mirroredOf.

Definition registerAll (l : list Mirrored) (st : ServerState) : ServerState :=
  {| Scheme := Scheme st ++ (kindOf <$> l);
     GoRestfulContainer := GoRestfulContainer st;
     DiscoveryGroupManager := DiscoveryGroupManager st;
     StorageVersionManager := StorageVersionManager st |}.

Lemma registerAll_nil st : registerAll [] st = st.
Proof. destruct st. unfold registerAll. simpl. by rewrite app_nil_r. Qed.

Lemma registerAll_app l1 l2 st :
  registerAll (l1 ++ l2) st = registerAll l2 (registerAll l1 st).
Proof. unfold registerAll. simpl. by rewrite fmap_app, app_assoc. Qed.

Lemma mirrorResource_fold g v rs : ∀ acc,
  foldl (mirrorResource g v) acc rs =
    (assignAll nameOf adapterOf acc.1
       ((λ r, {| fromGroup := g; fromVersion := v; resource := r |}) <$> rs),
     registerAll ((λ r, {| fromGroup := g; fromVersion := v; resource := r |}) <$> rs)
                 acc.2).
Proof.
  induction rs as [|r rs IH]; intros [m st]; simpl.
  - by rewrite registerAll_nil.
  - rewrite IH. simpl. f_equal.
    unfold registerAll, AddKnownTypeWithName. simpl. by rewrite <- app_assoc.
Qed.

Lemma mirrorGroup_spec acc g :
  mirrorGroup acc g =
    (assignAll nameOf adapterOf acc.1 (mirroredOf g), registerAll (mirroredOf g) acc.2).
Proof.
  unfold mirrorGroup, mirroredOf, isExcluded. fold (groupName g).
  destruct (HasSuffix (groupName g) clusternetGroupSuffix); simpl.
  { rewrite registerAll_nil. by destruct acc. }
  destruct (String.eqb (groupName g) shadowapi.GroupName); simpl.
  { rewrite registerAll_nil. by destruct acc. }
  apply mirrorResource_fold.
Qed.

Lemma mirrorGroups_spec groups : ∀ acc,
  foldl mirrorGroup acc groups =
    (assignAll nameOf adapterOf acc.1 (mirrored groups),
     registerAll (mirrored groups) acc.2).
Proof.
  induction groups as [|g groups IH]; intros acc; simpl.
  - rewrite registerAll_nil. by destruct acc.
  - rewrite IH, mirrorGroup_spec. simpl. unfold mirrored. simpl.
    by rewrite assignAll_app, registerAll_app.
Qed.

Lemma elem_of_mirrored groups x :
  x ∈ mirrored groups ↔
  ∃ g, g ∈ groups ∧ ¬ excluded g
       ∧ fromGroup x = groupName g ∧ fromVersion x = preferredVersion g
       ∧ resource x ∈ resourcesOf g (preferredVersion g).
Proof.
  unfold mirrored. rewrite list_elem_of_bind. split.
  - intros (g & Hx & Hg). exists g. split; [done|].
    unfold mirroredOf in Hx. destruct (isExcluded g) eqn:He.
    { by apply not_elem_of_nil in Hx. }
    apply list_elem_of_fmap in Hx as (r & -> & Hr). simpl.
    split; [|done]. rewrite <- isExcluded_spec. congruence.
  - intros (g & Hg & Hne & Hgn & Hv & Hr). exists g. split; [|done].
    unfold mirroredOf. destruct (isExcluded g) eqn:He.
    { by apply isExcluded_spec in He. }
    apply list_elem_of_fmap. exists (resource x). split; [|done].
    destruct x; simpl in *; by subst.
Qed.


Section InstallerSpec.

Context {external : External}.

(** ** The storage map and what is published of it *)

(** The map [shadowv1alpha1storage] after the loops of
    [InstallShadowAPIGroups]. *)
Definition shadowStorage (groups : list APIGroupResources.t) : gmap string REST.t :=
  assignAll nameOf adapterOf ∅ (mirrored groups).

(** The storage map of the group-version handed to the route installer. *)
Definition publishedStorage (groups : list APIGroupResources.t)
  : gmap string REST.t :=
  lowerKeys (range_order (shadowStorage groups)).

Lemma lowerKeys_lookup entries k :
  lowerKeys entries !! k
  = snd <$> lastWriter (λ kv : string * REST.t, ToLower kv.1) k entries.
Proof.
  unfold lowerKeys.
  change (foldl _ ∅ entries)
    with (assignAll (λ kv : string * REST.t, ToLower kv.1) snd ∅ entries).
  rewrite assignAll_lookup. by destruct (lastWriter _ k entries).
Qed.

Lemma shadowStorage_lookup groups n :
  shadowStorage groups !! n = adapterOf <$> lastWriter nameOf n (mirrored groups).
Proof.
  unfold shadowStorage. rewrite assignAll_lookup.
  by destruct (lastWriter nameOf n (mirrored groups)).
Qed.

Lemma shadowStorage_key groups x :
  x ∈ mirrored groups → is_Some (shadowStorage groups !! nameOf x).
Proof.
  intros Hx. rewrite shadowStorage_lookup.
  destruct (lastWriter nameOf (nameOf x) (mirrored groups)) eqn:Hl; [by eexists|].
  rewrite lastWriter_None in Hl. by destruct (Hl x Hx).
Qed.

Lemma shadowStorage_entry groups n a :
  shadowStorage groups !! n = Some a →
  ∃ x, x ∈ mirrored groups ∧ nameOf x = n ∧ a = adapterOf x.
Proof.
  rewrite shadowStorage_lookup.
  destruct (lastWriter nameOf n (mirrored groups)) as [x|] eqn:Hl; [|done].
  intros [= <-]. apply lastWriter_Some in Hl as [? ?]. by exists x.
Qed.

Lemma publishedStorage_key groups x :
  x ∈ mirrored groups → is_Some (publishedStorage groups !! ToLower (nameOf x)).
Proof.
  intros Hx. destruct (shadowStorage_key groups x Hx) as [a Ha].
  unfold publishedStorage. rewrite lowerKeys_lookup.
  destruct (lastWriter _ _ _) eqn:Hl; [by eexists|].
  rewrite lastWriter_None in Hl. destruct (Hl (nameOf x, a)); [|done].
  rewrite range_order_perm. by apply elem_of_map_to_list.
Qed.

Lemma publishedStorage_entry groups k a :
  publishedStorage groups !! k = Some a →
  ∃ x, x ∈ mirrored groups ∧ ToLower (nameOf x) = k ∧ a = adapterOf x.
Proof.
  unfold publishedStorage. rewrite lowerKeys_lookup.
  destruct (lastWriter _ _ _) as [[n a']|] eqn:Hl; [|done].
  intros [= <-]. apply lastWriter_Some in Hl as [Hin Hk]. simpl in *.
  rewrite range_order_perm in Hin. apply elem_of_map_to_list in Hin.
  destruct (shadowStorage_entry groups n a' Hin) as (x & Hx & Hn & Ha).
  exists x. by subst.
Qed.

Lemma shadowStorage_empty groups :
  shadowStorage groups = ∅ ↔ mirrored groups = [].
Proof.
  split.
  - intros Hempty. destruct (mirrored groups) as [|x l] eqn:Hm; [done|].
    destruct (shadowStorage_key groups x) as [a Ha].
    { rewrite Hm. by left. }
    by rewrite Hempty in Ha.
  - intros Hm. unfold shadowStorage. by rewrite Hm.
Qed.

(** ** Validation *)

(** A descriptor passes validation when its first prioritized version
    exists and has a group and a version. *)
Definition wellFormed (info : APIGroupInfo.t) : Prop :=
  ∃ v, head (APIGroupInfo.PrioritizedVersions info) = Some v
       ∧ GroupVersion.Group v ≠ "" ∧ GroupVersion.Version v ≠ "".

(** A descriptor whose first prioritized version has an empty group or an
    empty version. *)
Definition malformed (info : APIGroupInfo.t) : Prop :=
  ∃ v, head (APIGroupInfo.PrioritizedVersions info) = Some v
       ∧ (GroupVersion.Group v = "" ∨ GroupVersion.Version v = "").

Lemma len_zero s : (len s =? 0) = true ↔ s = "".
Proof.
  unfold len. rewrite Z.eqb_eq. destruct s; simpl; [done|]. split; [lia|done].
Qed.

Lemma len_nonzero s : (len s =? 0) = false ↔ s ≠ "".
Proof. rewrite <- len_zero. by destruct (len s =? 0). Qed.

Lemma validateGroups_cases infos st :
  (validateGroups infos st).2 = st
  ∧ match (validateGroups infos st).1 with
    | Ok _ => Forall wellFormed infos
    | Err e => ∃ info, info ∈ infos ∧ malformed info
                      ∧ (e = EmptyGroup info ∨ e = EmptyVersion info)
    | Panic p => p = IndexOutOfRange
                 ∧ ∃ info, info ∈ infos ∧ APIGroupInfo.PrioritizedVersions info = []
    end.
Proof.
  induction infos as [|info infos [IHst IH]]; simpl; [by split|].
  unfold bind, index0.
  destruct (APIGroupInfo.PrioritizedVersions info) as [|v vs] eqn:Hpv; simpl.
  { split; [done|]. split; [done|]. exists info. split; [by left|done]. }
  destruct (len (GroupVersion.Group v) =? 0) eqn:Hg; simpl.
  { split; [done|]. exists info. apply len_zero in Hg.
    split; [by left|]. split; [|by left]. exists v. rewrite Hpv. by split; [|left]. }
  destruct (len (GroupVersion.Version v) =? 0) eqn:Hv; simpl.
  { split; [done|]. exists info. apply len_zero in Hv.
    split; [by left|]. split; [|by right]. exists v. rewrite Hpv. by split; [|right]. }
  split; [done|]. apply len_nonzero in Hg, Hv.
  destruct (validateGroups infos st).1 as [[]|e|p].
  - constructor; [|done]. exists v. by rewrite Hpv.
  - destruct IH as (i & Hi & Hm & He). exists i. split; [by right|done].
  - destruct IH as (-> & i & Hi & Hm). split; [done|]. exists i.
    split; [by right|done].
Qed.

Lemma validateGroups_ok infos st :
  Forall wellFormed infos → validateGroups infos st = (Ok tt, st).
Proof.
  induction 1 as [|info infos (v & Hv & Hg & Hver) _ IH]; simpl; [done|].
  unfold bind, index0.
  destruct (APIGroupInfo.PrioritizedVersions info) as [|v' vs]; [done|].
  simpl in Hv. injection Hv as ->. simpl.
  apply len_nonzero in Hg, Hver. by rewrite Hg, Hver.
Qed.

Lemma wellFormed_not_malformed info : wellFormed info → ¬ malformed info.
Proof.
  intros (v & Hv & Hg & Hver) (v' & Hv' & Hbad).
  rewrite Hv in Hv'. injection Hv' as <-. by destruct Hbad.
Qed.


(** ** Publication of routes and discovery entries *)

(** A prioritized version has resources when its storage map has at least
    one entry. *)
Definition hasResources (info : APIGroupInfo.t) (gv : GroupVersion.t) : Prop :=
  (0 < size (storageOf info (GroupVersion.Version gv)))%nat.

Global Instance hasResources_dec info gv : Decision (hasResources info gv).
Proof. unfold hasResources. apply _. Defined.

(** The versions a group advertises: the prioritized versions that have
    resources, in their order. *)
Definition advertised (info : APIGroupInfo.t) : list GroupVersionForDiscovery.t :=
  toDiscovery <$> filter (hasResources info) (APIGroupInfo.PrioritizedVersions info).

(** The discovery entry of a group whose first prioritized version is [v]. *)
Definition discoveryEntry (info : APIGroupInfo.t) (v : GroupVersion.t) : APIGroup.t :=
  {| APIGroup.Name := GroupVersion.Group v;
     APIGroup.Versions := advertised info;
     APIGroup.PreferredVersion := toDiscovery v |}.

(** The entry of a descriptor, if it has a first prioritized version. *)
Definition entryOf (info : APIGroupInfo.t) : option APIGroup.t :=
  discoveryEntry info <$> head (APIGroupInfo.PrioritizedVersions info).

Lemma size_zero_iff (m : gmap string REST.t) :
  (size m =? 0)%nat = true ↔ ¬ (0 < size m)%nat.
Proof. rewrite Nat.eqb_eq. lia. Qed.

Lemma discoveryVersions_spec info : discoveryVersions info = advertised info.
Proof.
  unfold discoveryVersions, advertised.
  enough (∀ vs acc,
    foldl (λ apiVersionsForDiscovery groupVersion,
             if (size (storageOf info (GroupVersion.Version groupVersion)) =? 0)%nat
             then apiVersionsForDiscovery
             else apiVersionsForDiscovery ++ [toDiscovery groupVersion]) acc vs
    = acc ++ (toDiscovery <$> filter (hasResources info) vs)) as Hgen
    by apply (Hgen _ []).
  induction vs as [|gv vs IH]; intros acc; simpl; [by rewrite app_nil_r|].
  rewrite IH, filter_cons.
  destruct (size (storageOf info (GroupVersion.Version gv)) =? 0)%nat eqn:Hsz.
  - apply size_zero_iff in Hsz. by rewrite decide_False.
  - rewrite decide_True; [by rewrite <- app_assoc|].
    unfold hasResources. apply Nat.eqb_neq in Hsz. lia.
Qed.

(** What [installVersions] touches: it only adds group-version web
    services to the container, each for a prioritized version that has
    resources. *)
Lemma installVersions_frame ss prefix info vs : ∀ acc st,
  let out := installVersions ss prefix info vs acc st in
  Scheme out.2 = Scheme st
  ∧ DiscoveryGroupManager out.2 = DiscoveryGroupManager st
  ∧ StorageVersionManager out.2 = StorageVersionManager st
  ∧ ∃ gvs, GoRestfulContainer out.2
           = GoRestfulContainer st
               ++ ((λ gv, VersionWS (preparedVersion ss prefix info gv)) <$> gvs)
           ∧ (∀ gv, gv ∈ gvs → gv ∈ vs ∧ hasResources info gv)
           ∧ (∀ r, out.1 = Ok r → gvs = filter (hasResources info) vs).
Proof.
  induction vs as [|gv vs IH]; intros acc st; simpl.
  - repeat split; try done. exists []. simpl. rewrite app_nil_r.
    split; [done|]. split; [|done]. intros gv Hgv. by apply not_elem_of_nil in Hgv.
  - rewrite filter_cons.
    destruct (size (storageOf info (GroupVersion.Version gv)) =? 0)%nat eqn:Hsz.
    { destruct (IH acc st) as (HS & HD & HV & gvs & HC & Hin & Hok).
      apply size_zero_iff in Hsz. rewrite decide_False by done.
      repeat split; try done. exists gvs. split; [done|]. split; [|done].
      intros g Hg. destruct (Hin g Hg). split; [by right|done]. }
    assert (hasResources info gv) as Hres.
    { unfold hasResources. apply Nat.eqb_neq in Hsz. lia. }
    rewrite decide_True by done. unfold InstallREST.
    destruct (InstallREST_returns (GoRestfulContainer st)
                (preparedVersion ss prefix info gv)) as [err|r]; simpl.
    { repeat split; try done. exists [gv]. split; [done|]. split; [|done].
      intros g Hg. apply list_elem_of_singleton in Hg as ->. split; [by left|done]. }
    destruct (IH (acc ++ r) (ContainerAdd (VersionWS (preparedVersion ss prefix info gv)) st))
      as (HS & HD & HV & gvs & HC & Hin & Hok).
    repeat split; try done. exists (gv :: gvs). split.
    { rewrite HC. simpl. by rewrite <- app_assoc. }
    split.
    + intros g Hg. apply elem_of_cons in Hg as [->|Hg]; [split; [by left|done]|].
      destruct (Hin g Hg). split; [by right|done].
    + intros r' Hr'. f_equal. by eapply Hok.
Qed.

(** The route installer accepts the versions [gvs] of a descriptor one
    after the other, starting on the container [container], and answers
    with [rs]: its answer for the i-th version, on the container as the
    versions before it have left it, is the i-th list of resource infos. *)
Definition installerReturns (ss : ShadowAPIServer) (prefix : string)
           (info : APIGroupInfo.t) (container : list WebService)
           (gvs : list GroupVersion.t) (rs : list (list ResourceInfo.t)) : Prop :=
  length rs = length gvs
  ∧ ∀ i gv r, gvs !! i = Some gv → rs !! i = Some r →
      InstallREST_returns
        (container
           ++ ((λ gv, VersionWS (preparedVersion ss prefix info gv)) <$> take i gvs))
        (preparedVersion ss prefix info gv) = inr r.

Lemma installerReturns_nil ss prefix info container :
  installerReturns ss prefix info container [] [].
Proof. split; [done|]. intros i gv r Hgv. by rewrite lookup_nil in Hgv. Qed.

Lemma installerReturns_cons ss prefix info container gv gvs r rs :
  InstallREST_returns container (preparedVersion ss prefix info gv) = inr r →
  installerReturns ss prefix info
    (container ++ [VersionWS (preparedVersion ss prefix info gv)]) gvs rs →
  installerReturns ss prefix info container (gv :: gvs) (r :: rs).
Proof.
  intros Hr [Hlen Hrs]. split; [simpl; by rewrite Hlen|].
  intros [|i] gv' r' Hgv Hr'; simpl in *.
  - injection Hgv as <-. injection Hr' as <-. by rewrite app_nil_r.
  - specialize (Hrs i gv' r' Hgv Hr'). by rewrite <- app_assoc in Hrs.
Qed.

Lemma installerReturns_cons_inv ss prefix info container gv gvs rs :
  installerReturns ss prefix info container (gv :: gvs) rs →
  ∃ r rs', rs = r :: rs'
           ∧ InstallREST_returns container (preparedVersion ss prefix info gv) = inr r
           ∧ installerReturns ss prefix info
               (container ++ [VersionWS (preparedVersion ss prefix info gv)]) gvs rs'.
Proof.
  intros [Hlen Hrs]. destruct rs as [|r rs']; [done|]. exists r, rs'.
  split; [done|]. split.
  - specialize (Hrs 0%nat gv r eq_refl eq_refl). simpl in Hrs.
    by rewrite app_nil_r in Hrs.
  - split; [simpl in Hlen; lia|]. intros i gv' r' Hgv Hr'.
    specialize (Hrs (S i) gv' r' Hgv Hr'). simpl in Hrs.
    by rewrite <- app_assoc.
Qed.

(** When the route installer accepts every prioritized version that has
    resources, the loop returns what the installer returned, in order. *)
Lemma installVersions_returns ss prefix info vs : ∀ acc st rs,
  installerReturns ss prefix info (GoRestfulContainer st)
    (filter (hasResources info) vs) rs →
  (installVersions ss prefix info vs acc st).1 = Ok (acc ++ concat rs).
Proof.
  induction vs as [|gv vs IH]; intros acc st rs Hrs; simpl.
  - destruct Hrs as [Hlen _]. destruct rs; [|done]. simpl. by rewrite app_nil_r.
  - rewrite filter_cons in Hrs.
    destruct (size (storageOf info (GroupVersion.Version gv)) =? 0)%nat eqn:Hsz.
    { apply size_zero_iff in Hsz. rewrite decide_False in Hrs by done. by apply IH. }
    rewrite decide_True in Hrs
      by (unfold hasResources; apply Nat.eqb_neq in Hsz; lia).
    apply installerReturns_cons_inv in Hrs as (r & rs' & -> & Hr & Hrs').
    unfold InstallREST. rewrite Hr.
    rewrite (IH (acc ++ r) _ rs') by done. simpl. by rewrite <- app_assoc.
Qed.

(** The run of the loop of [installAPIResources]: it goes through the
    prioritized versions that have resources until the route installer
    refuses one. *)
Lemma installVersions_run ss prefix info vs : ∀ acc st,
  match (installVersions ss prefix info vs acc st).1 with
  | Ok r =>
      ∃ rs, installerReturns ss prefix info (GoRestfulContainer st)
              (filter (hasResources info) vs) rs
            ∧ r = acc ++ concat rs
            ∧ GoRestfulContainer (installVersions ss prefix info vs acc st).2
              = GoRestfulContainer st
                  ++ ((λ gv, VersionWS (preparedVersion ss prefix info gv))
                        <$> filter (hasResources info) vs)
  | Err e =>
      ∃ before gv after err rs,
        filter (hasResources info) vs = before ++ gv :: after
        ∧ installerReturns ss prefix info (GoRestfulContainer st) before rs
        ∧ InstallREST_returns
            (GoRestfulContainer st
               ++ ((λ gv, VersionWS (preparedVersion ss prefix info gv)) <$> before))
            (preparedVersion ss prefix info gv) = inl err
        ∧ e = UnableToSetup info err
        ∧ GoRestfulContainer (installVersions ss prefix info vs acc st).2
          = GoRestfulContainer st
              ++ ((λ gv, VersionWS (preparedVersion ss prefix info gv))
                    <$> before ++ [gv])
  | Panic _ => False
  end.
Proof.
  induction vs as [|gv vs IH]; intros acc st; simpl.
  - exists []. split; [apply installerReturns_nil|]. by rewrite !app_nil_r.
  - rewrite filter_cons.
    destruct (size (storageOf info (GroupVersion.Version gv)) =? 0)%nat eqn:Hsz.
    { apply size_zero_iff in Hsz. rewrite decide_False by done. apply IH. }
    rewrite decide_True by (unfold hasResources; apply Nat.eqb_neq in Hsz; lia).
    unfold InstallREST.
    destruct (InstallREST_returns (GoRestfulContainer st)
                (preparedVersion ss prefix info gv)) as [err|r] eqn:Hret; simpl.
    { exists [], gv, (filter (hasResources info) vs), err, []. simpl.
      rewrite app_nil_r. split; [done|]. split; [apply installerReturns_nil|].
      by split. }
    specialize (IH (acc ++ r)
                   (ContainerAdd (VersionWS (preparedVersion ss prefix info gv)) st)).
    destruct (installVersions ss prefix info vs (acc ++ r) _) as [[r'|e|p] st'];
      simpl in *; [| |done].
    + destruct IH as (rs & Hrs & -> & Hc). exists (r :: rs).
      split; [by apply installerReturns_cons|]. split.
      * simpl. by rewrite <- app_assoc.
      * rewrite Hc. by rewrite <- app_assoc.
    + destruct IH as (before & gv' & after & err & rs & Hf & Hrs & Hret' & -> & Hc).
      exists (gv :: before), gv', after, err, (r :: rs). rewrite Hf.
      split; [done|]. split; [by apply installerReturns_cons|].
      rewrite <- app_assoc in Hret', Hc. by split.
Qed.

(** Whether both feature gates of the storage-version step are enabled. *)
Definition bothEnabled : bool :=
  Enabled StorageVersionAPI && Enabled APIServerIdentity.

(** The last step of [installAPIResources] on the gathered resource
    infos. *)
Definition recorded (infos : list ResourceInfo.t) (st : ServerState) : ServerState :=
  if bothEnabled then AddResourceInfo infos st else st.

Lemma installAPIResources_spec ss prefix info st :
  installAPIResources ss prefix info st =
    match installVersions ss prefix info (APIGroupInfo.PrioritizedVersions info) [] st with
    | (Ok infos, st1) => (Ok tt, recorded infos st1)
    | (Err e, st1) => (Err e, st1)
    | (Panic p, st1) => (Panic p, st1)
    end.
Proof.
  unfold installAPIResources, bind, recorded, bothEnabled.
  destruct (installVersions _ _ _ _ _ _) as [[infos|e|p] st1]; try done.
  by destruct (Enabled StorageVersionAPI && Enabled APIServerIdentity).
Qed.

Lemma installGroup_spec ss info st v :
  head (APIGroupInfo.PrioritizedVersions info) = Some v →
  installGroup ss info st =
    match installAPIResources ss APIGroupPrefix info st with
    | (Ok _, st1) =>
        (Ok tt, ContainerAdd (GroupWS (discoveryEntry info v))
                  (AddGroup (discoveryEntry info v) st1))
    | (Err err, st1) => (Err (UnableToInstall err), st1)
    | (Panic p, st1) => (Panic p, st1)
    end.
Proof.
  intros Hv. unfold installGroup, bind.
  destruct (installAPIResources ss APIGroupPrefix info st) as [[[]|e|p] st1];
    try done.
  destruct (APIGroupInfo.PrioritizedVersions info) as [|v' vs]; [done|].
  simpl in Hv. injection Hv as ->. simpl.
  by rewrite discoveryVersions_spec.
Qed.


Lemma recorded_frame infos st :
  Scheme (recorded infos st) = Scheme st
  ∧ GoRestfulContainer (recorded infos st) = GoRestfulContainer st
  ∧ DiscoveryGroupManager (recorded infos st) = DiscoveryGroupManager st.
Proof. unfold recorded. by destruct bothEnabled. Qed.

Lemma installAPIResources_discovery ss prefix info st :
  DiscoveryGroupManager (installAPIResources ss prefix info st).2
  = DiscoveryGroupManager st.
Proof.
  rewrite installAPIResources_spec.
  pose proof (installVersions_frame ss prefix info
                (APIGroupInfo.PrioritizedVersions info) [] st) as (_ & HD & _).
  destruct (installVersions _ _ _ _ _ _) as [[infos|e|p] st1]; simpl in *; try done.
  by rewrite (proj2 (proj2 (recorded_frame infos st1))).
Qed.

Lemma validateGroups_app pre l st :
  Forall wellFormed pre → validateGroups (pre ++ l) st = validateGroups l st.
Proof.
  induction 1 as [|info infos (v & Hv & Hg & Hver) _ IH]; simpl; [done|].
  unfold bind, index0.
  destruct (APIGroupInfo.PrioritizedVersions info) as [|v' vs]; [done|].
  simpl in Hv. injection Hv as ->. simpl.
  apply len_nonzero in Hg, Hver. by rewrite Hg, Hver.
Qed.

Lemma installGroups_entries ss infos :
  Forall wellFormed infos → ∀ st,
  ∃ n, DiscoveryGroupManager (installGroups ss infos st).2
       = DiscoveryGroupManager st ++ omap entryOf (take n infos)
       ∧ ((installGroups ss infos st).1 = Ok tt → n = length infos).
Proof.
  induction 1 as [|info infos (v & Hv & _) _ IH]; intros st; simpl.
  - exists 0%nat. simpl. by rewrite app_nil_r.
  - unfold bind. rewrite (installGroup_spec ss info st v Hv).
    pose proof (installAPIResources_discovery ss APIGroupPrefix info st) as HD.
    destruct (installAPIResources ss APIGroupPrefix info st) as [[[]|e|p] st1];
      simpl in *.
    + destruct (IH (ContainerAdd (GroupWS (discoveryEntry info v))
                      (AddGroup (discoveryEntry info v) st1))) as (n & Hn & Hok).
      exists (S n). split; [|by intros ->%Hok].
      rewrite Hn. simpl. unfold entryOf at 2. rewrite Hv, HD. simpl.
      by rewrite <- app_assoc.
    + exists 0%nat. simpl. by rewrite app_nil_r.
    + exists 0%nat. simpl. by rewrite app_nil_r.
Qed.

(** C3, as amended.  If some descriptor of the batch has an empty group or
    an empty version in its first prioritized version, [installAPIGroups]
    publishes nothing, for any group of the batch: the server is left as
    it was found, no route and no discovery entry.  The call then either
    returns the validation error of such a descriptor, or it panics with
    an index out of range on a descriptor of the batch that has no
    prioritized version at all; it never returns nil.  When every
    descriptor of the batch has a first prioritized version, the call
    returns the validation error. *)
Theorem validation_precedes_publication
        (ss : ShadowAPIServer) (infos : list APIGroupInfo.t) (st : ServerState) :
  Exists malformed infos →
  (installAPIGroups ss infos st).2 = st
  ∧ ((∃ info, info ∈ infos ∧ malformed info
              ∧ ((installAPIGroups ss infos st).1 = Err (EmptyGroup info)
                 ∨ (installAPIGroups ss infos st).1 = Err (EmptyVersion info)))
     ∨ ((installAPIGroups ss infos st).1 = Panic IndexOutOfRange
        ∧ ∃ info, info ∈ infos ∧ APIGroupInfo.PrioritizedVersions info = []))
  ∧ (Forall (λ info, APIGroupInfo.PrioritizedVersions info ≠ []) infos →
     ∃ info, info ∈ infos ∧ malformed info
             ∧ ((installAPIGroups ss infos st).1 = Err (EmptyGroup info)
                ∨ (installAPIGroups ss infos st).1 = Err (EmptyVersion info))).
Proof.
  intros Hbad. unfold installAPIGroups, bind.
  destruct (validateGroups_cases infos st) as [Hst Hcases].
  destruct (validateGroups infos st) as [[[]|e|p] st1]; simpl in *; subst st1.
  - exfalso. apply Exists_exists in Hbad as (info & Hin & Hm).
    rewrite Forall_forall in Hcases. by eapply wellFormed_not_malformed; eauto.
  - assert (∃ info, info ∈ infos ∧ malformed info
                    ∧ (Err (A:=unit) e = Err (EmptyGroup info)
                       ∨ Err (A:=unit) e = Err (EmptyVersion info))) as Herr.
    { destruct Hcases as (info & Hin & Hm & [->| ->]); exists info; auto. }
    split; [done|]. split; [by left|done].
  - destruct Hcases as (-> & info & Hin & Hnil).
    split; [done|]. split; [right; split; [done|by exists info]|].
    intros Hne. rewrite Forall_forall in Hne. by destruct (Hne info Hin).
Qed.

(** A descriptor whose [PrioritizedVersions] is empty, reached by
    validation after descriptors that pass it, makes [installAPIGroups]
    panic with an index out of range at [PrioritizedVersions[0]]. *)
Lemma empty_prioritizedVersions_panics
        (ss : ShadowAPIServer) (pre post : list APIGroupInfo.t)
        (info : APIGroupInfo.t) (st : ServerState) :
  Forall wellFormed pre →
  APIGroupInfo.PrioritizedVersions info = [] →
  installAPIGroups ss (pre ++ info :: post) st = (Panic IndexOutOfRange, st).
Proof.
  intros Hpre Hnil. unfold installAPIGroups, bind.
  rewrite validateGroups_app by done. simpl. unfold bind, index0.
  by rewrite Hnil.
Qed.

(** C5.  The discovery entries [installAPIGroups] adds are those of the
    groups it installed, a prefix of the batch and the whole batch when it
    succeeds; the entry of each such group advertises exactly the
    prioritized versions whose storage map has at least one entry, in their
    order of preference, and names the first prioritized version as the
    preferred one; a prioritized version without resources is not among
    the advertised versions. *)
Theorem discovery_entry_advertises_versions_with_resources
        (ss : ShadowAPIServer) (infos : list APIGroupInfo.t) (st : ServerState) :
  ∃ n,
    DiscoveryGroupManager (installAPIGroups ss infos st).2
    = DiscoveryGroupManager st ++ omap entryOf (take n infos)
    ∧ ((installAPIGroups ss infos st).1 = Ok tt → n = length infos)
    ∧ ∀ info, info ∈ take n infos →
        ∃ v e,
          head (APIGroupInfo.PrioritizedVersions info) = Some v
          ∧ entryOf info = Some e
          ∧ APIGroup.Name e = GroupVersion.Group v
          ∧ APIGroup.Versions e
            = toDiscovery <$> filter (hasResources info)
                                     (APIGroupInfo.PrioritizedVersions info)
          ∧ APIGroup.PreferredVersion e = toDiscovery v
          ∧ ∀ gv, gv ∈ APIGroupInfo.PrioritizedVersions info →
                  storageOf info (GroupVersion.Version gv) = ∅ →
                  ∀ d, d ∈ APIGroup.Versions e →
                       GroupVersionForDiscovery.Version d ≠ GroupVersion.Version gv.
Proof.
  unfold installAPIGroups, bind.
  destruct (validateGroups_cases infos st) as [Hst Hcases].
  destruct (validateGroups infos st) as [[[]|e|p] st1]; simpl in *; subst st1;
    [|exists 0%nat; simpl; rewrite app_nil_r; split; [done|];
      split; [done|]; intros info Hin; by apply not_elem_of_nil in Hin..].
  destruct (installGroups_entries ss infos Hcases st) as (n & Hn & Hok).
  exists n. split; [done|]. split; [done|]. intros info Hin.
  apply elem_of_take in Hin as (i & Hin & _).
  apply list_elem_of_lookup_2 in Hin.
  rewrite Forall_forall in Hcases. destruct (Hcases info Hin) as (v & Hv & _).
  exists v, (discoveryEntry info v). unfold entryOf. rewrite Hv. simpl.
  do 5 (split; [done|]). intros gv Hgv Hempty d Hd Heq.
  apply list_elem_of_fmap in Hd as (gv' & -> & Hgv').
  apply list_elem_of_filter in Hgv' as [Hres _]. simpl in Heq.
  unfold hasResources in Hres. rewrite Heq, Hempty, map_size_empty in Hres. lia.
Qed.

(** C6.  When the discovery query fails, [InstallShadowAPIGroups] returns
    that error and the server is as before the call: nothing was
    registered with the scheme, nothing added to the container, to the
    discovery index or to the storage-version registry. *)
Theorem discovery_failure_installs_nothing
        (ss : ShadowAPIServer) (cl : DiscoveryInterface) (st : ServerState)
        (err : error) :
  GetAPIGroupResources cl = inl err →
  InstallShadowAPIGroups ss cl st = (Err err, st).
Proof. intros Herr. unfold InstallShadowAPIGroups. by rewrite Herr. Qed.

(** C7.  [installAPIResources] hands the resource infos of the published
    versions to the storage-version registry if and only if both feature
    gates are enabled.  With either gate disabled the registry is left as
    it was, whatever else the call does.  In a call whose route
    installations all succeed, the route installer answering with [rs]
    for the prioritized versions that have resources, taken one after the
    other, the call returns without error and its routes are in the
    container; the registry gains one record, the resource infos the
    installer returned, in the order of the versions, exactly when both
    gates are enabled. *)
Theorem storage_versions_recorded_iff_both_gates
        (ss : ShadowAPIServer) (apiPrefix : string) (info : APIGroupInfo.t)
        (st : ServerState) :
  (Enabled StorageVersionAPI = false ∨ Enabled APIServerIdentity = false →
   StorageVersionManager (installAPIResources ss apiPrefix info st).2
   = StorageVersionManager st)
  ∧ ∀ rs,
      installerReturns ss apiPrefix info (GoRestfulContainer st)
        (filter (hasResources info) (APIGroupInfo.PrioritizedVersions info)) rs →
      (installAPIResources ss apiPrefix info st).1 = Ok tt
      ∧ GoRestfulContainer (installAPIResources ss apiPrefix info st).2
        = GoRestfulContainer st
            ++ ((λ gv, VersionWS (preparedVersion ss apiPrefix info gv))
                  <$> filter (hasResources info)
                             (APIGroupInfo.PrioritizedVersions info))
      ∧ (StorageVersionManager (installAPIResources ss apiPrefix info st).2
         = StorageVersionManager st ++ [concat rs]
         ↔ Enabled StorageVersionAPI = true ∧ Enabled APIServerIdentity = true).
Proof.
  rewrite installAPIResources_spec.
  pose proof (installVersions_frame ss apiPrefix info
                (APIGroupInfo.PrioritizedVersions info) [] st) as (_ & _ & HV & _).
  split.
  - intros Hoff.
    destruct (installVersions _ _ _ _ _ _) as [[infos|e|p] st1]; simpl in *;
      try done.
    unfold recorded, bothEnabled.
    by destruct Hoff as [-> | ->]; rewrite ?andb_false_r.
  - intros rs Hrs.
    pose proof (installVersions_returns ss apiPrefix info
                  (APIGroupInfo.PrioritizedVersions info) [] st rs Hrs) as Hrun.
    pose proof (installVersions_run ss apiPrefix info
                  (APIGroupInfo.PrioritizedVersions info) [] st) as Hout.
    destruct (installVersions _ _ _ _ _ _) as [[infos|e|p] st1]; simpl in *;
      try done.
    injection Hrun as ->. destruct Hout as (_ & _ & _ & Hc).
    destruct (recorded_frame (concat rs) st1) as (_ & -> & _).
    split; [done|]. split; [done|]. unfold recorded, bothEnabled.
    destruct (Enabled StorageVersionAPI), (Enabled APIServerIdentity); simpl;
      rewrite ?HV.
    + by split.
    + split; [|by intros [_ ?]].
      intros Heq. apply (f_equal length) in Heq. rewrite length_app in Heq.
      simpl in Heq. lia.
    + split; [|by intros [? _]].
      intros Heq. apply (f_equal length) in Heq. rewrite length_app in Heq.
      simpl in Heq. lia.
    + split; [|by intros [? _]].
      intros Heq. apply (f_equal length) in Heq. rewrite length_app in Heq.
      simpl in Heq. lia.
Qed.


(** ** The run of [InstallShadowAPIGroups] *)

(** The descriptor of the shadow group, the one prioritized version it
    lists, and the group-version handed to the route installer. *)
Definition shadowInfo (groups : list APIGroupResources.t) (st : ServerState)
  : APIGroupInfo.t :=
  shadowAPIGroupInfo (Scheme (registerAll (mirrored groups) st)) (shadowStorage groups).

Definition shadowGV : GroupVersion.t :=
  {| GroupVersion.Group := shadowapi.GroupName;
     GroupVersion.Version := GroupVersion.Version shadowapi.SchemeGroupVersion |}.

Definition shadowRoutes (ss : ShadowAPIServer) (groups : list APIGroupResources.t)
           (st : ServerState) : APIGroupVersion.t :=
  preparedVersion ss APIGroupPrefix (shadowInfo groups st) shadowGV.

Lemma shadowInfo_storage groups st :
  storageOf (shadowInfo groups st) (GroupVersion.Version shadowGV)
  = shadowStorage groups.
Proof. unfold storageOf, shadowInfo. simpl. by rewrite lookup_insert_eq. Qed.

Lemma shadowRoutes_storage ss groups st :
  APIGroupVersion.Storage (shadowRoutes ss groups st) = publishedStorage groups.
Proof.
  unfold shadowRoutes, preparedVersion, getAPIGroupVersion, publishedStorage.
  cbn [APIGroupVersion.Storage]. by rewrite (shadowInfo_storage groups st).
Qed.

Lemma shadowInfo_wellFormed groups st : wellFormed (shadowInfo groups st).
Proof. exists shadowGV. by repeat split. Qed.

(** What a call of [InstallShadowAPIGroups] does once discovery has
    returned [groups]: the kinds of the mirrored resources are registered;
    if there is any, the route installer is called once, on
    [shadowRoutes], and its error, if any, is the only error the call
    returns. *)
Lemma InstallShadowAPIGroups_outcome ss cl groups st :
  GetAPIGroupResources cl = inr groups →
  let st1 := registerAll (mirrored groups) st in
  let info := shadowInfo groups st in
  let e := discoveryEntry info shadowGV in
  let v := shadowRoutes ss groups st in
  InstallShadowAPIGroups ss cl st =
    if decide (mirrored groups = []) then
      (Ok tt, ContainerAdd (GroupWS e) (AddGroup e (recorded [] st1)))
    else
      match InstallREST_returns (GoRestfulContainer st) v with
      | inl err =>
          (Err (UnableToInstall (UnableToSetup info err)),
           ContainerAdd (VersionWS v) st1)
      | inr r =>
          (Ok tt, ContainerAdd (GroupWS e)
                    (AddGroup e (recorded r (ContainerAdd (VersionWS v) st1))))
      end.
Proof.
  intros Hcl. simpl. unfold InstallShadowAPIGroups. rewrite Hcl.
  rewrite mirrorGroups_spec. simpl. fold (shadowStorage groups).
  change (shadowAPIGroupInfo _ _) with (shadowInfo groups st).
  unfold installAPIGroups, bind.
  rewrite validateGroups_ok by (constructor; [apply shadowInfo_wellFormed|done]).
  simpl. unfold bind.
  rewrite (installGroup_spec ss _ _ shadowGV) by done.
  rewrite installAPIResources_spec.
  change (APIGroupInfo.PrioritizedVersions (shadowInfo groups st)) with [shadowGV].
  cbn [installVersions]. rewrite (shadowInfo_storage groups st).
  case_decide as Hm.
  - apply shadowStorage_empty in Hm. rewrite Hm, map_size_empty. done.
  - destruct (size (shadowStorage groups) =? 0)%nat eqn:Hsz.
    { apply Nat.eqb_eq, map_size_empty_iff, shadowStorage_empty in Hsz. done. }
    unfold InstallREST. fold (shadowRoutes ss groups st). simpl.
    by destruct (InstallREST_returns (GoRestfulContainer st)
                   (shadowRoutes ss groups st)).
Qed.

Lemma adapterOf_group x : REST.group (adapterOf x) = fromGroup x.
Proof. done. Qed.

Lemma excluded_by_name g g' : groupName g = groupName g' → excluded g → excluded g'.
Proof. unfold excluded. by intros ->. Qed.

Lemma mirrored_not_excluded groups x G :
  x ∈ mirrored groups → excluded G → fromGroup x ≠ groupName G.
Proof.
  intros Hx HG Heq. apply elem_of_mirrored in Hx as (g & _ & Hne & Hg & _).
  apply Hne. apply (excluded_by_name G); [congruence|done].
Qed.



Lemma InstallShadowAPIGroups_effect ss cl groups st :
  GetAPIGroupResources cl = inr groups →
  let st' := (InstallShadowAPIGroups ss cl st).2 in
  Scheme st' = Scheme st ++ (kindOf <$> mirrored groups)
  ∧ ∃ ws, GoRestfulContainer st' = GoRestfulContainer st ++ ws
          ∧ (∀ v, VersionWS v ∈ ws → v = shadowRoutes ss groups st)
          ∧ (mirrored groups ≠ [] → VersionWS (shadowRoutes ss groups st) ∈ ws).
Proof.
  intros Hcl. simpl. rewrite (InstallShadowAPIGroups_outcome ss cl groups st Hcl).
  case_decide as Hm.
  - simpl. destruct (recorded_frame [] (registerAll (mirrored groups) st))
      as (-> & -> & _).
    split; [done|]. eexists [_]. split; [done|]. split; [|done].
    intros v Hv. by apply list_elem_of_singleton in Hv.
  - destruct (InstallREST_returns _ _) as [err|r]; simpl.
    + split; [done|]. eexists [_]. split; [done|]. split.
      * intros v Hv. apply list_elem_of_singleton in Hv. congruence.
      * intros _. by left.
    + destruct (recorded_frame r
        (ContainerAdd (VersionWS (shadowRoutes ss groups st))
           (registerAll (mirrored groups) st))) as (-> & -> & _). simpl.
      split; [done|]. eexists [_; _]. split; [by rewrite <- app_assoc|]. split.
      * intros v Hv. apply elem_of_cons in Hv as [Hv|Hv]; [congruence|].
        by apply list_elem_of_singleton in Hv.
      * intros _. by left.
Qed.

(** C1.  For a discovered group whose name ends with [.clusternet.io] or
    is the shadow group's own name: the loop of [InstallShadowAPIGroups]
    passes over it without any effect (no kind is registered, no adapter
    built or stored); and after the call no kind the call registered, no
    entry of the storage map it built and no entry of the storage map of a
    group-version it handed to the route installer belongs to that
    group. *)
Theorem excluded_group_is_not_mirrored
        (ss : ShadowAPIServer) (cl : DiscoveryInterface)
        (groups : list APIGroupResources.t) (st : ServerState)
        (G : APIGroupResources.t) :
  GetAPIGroupResources cl = inr groups →
  G ∈ groups →
  excluded G →
  (∀ acc, mirrorGroup acc G = acc)
  ∧ (∀ n a, (foldl mirrorGroup (∅, st) groups).1 !! n = Some a →
            REST.group a ≠ groupName G)
  ∧ (∃ added, Scheme (InstallShadowAPIGroups ss cl st).2 = Scheme st ++ added
              ∧ ∀ gvk, gvk ∈ added → GroupVersionKind.Group gvk ≠ groupName G)
  ∧ (∃ ws, GoRestfulContainer (InstallShadowAPIGroups ss cl st).2
           = GoRestfulContainer st ++ ws
           ∧ ∀ v k a, VersionWS v ∈ ws → APIGroupVersion.Storage v !! k = Some a →
                      REST.group a ≠ groupName G).
Proof.
  intros Hcl HG Hex.
  destruct (InstallShadowAPIGroups_effect ss cl groups st Hcl)
    as (Hscheme & ws & Hws & Honly & _).
  split; [|split; [|split]].
  - intros acc. rewrite mirrorGroup_spec. unfold mirroredOf.
    apply isExcluded_spec in Hex. rewrite Hex. simpl.
    rewrite registerAll_nil. by destruct acc.
  - intros n a. rewrite mirrorGroups_spec. simpl. fold (shadowStorage groups).
    intros (x & Hx & _ & ->)%shadowStorage_entry.
    rewrite adapterOf_group. by eapply mirrored_not_excluded.
  - eexists. split; [exact Hscheme|]. intros gvk (x & -> & Hx)%list_elem_of_fmap.
    simpl. by eapply mirrored_not_excluded.
  - exists ws. split; [done|]. intros v k a Hv.
    rewrite (Honly v Hv), shadowRoutes_storage.
    intros (x & Hx & _ & ->)%publishedStorage_entry.
    rewrite adapterOf_group. by eapply mirrored_not_excluded.
Qed.

(** C2, as amended.  For a discovered group that is not excluded and a
    resource listed under its preferred version, [InstallShadowAPIGroups]
    hands exactly one group-version to the route installer, and in its
    storage map: the lower-cased name of the resource is a key; the entry
    under it is the adapter of this resource when every mirrored resource
    with the same lower-cased name has the same adapter; and every entry is
    the adapter of a resource listed under the preferred version of a
    group that is not excluded, under that resource's lower-cased name. *)
Theorem preferred_resources_are_published
        (ss : ShadowAPIServer) (cl : DiscoveryInterface)
        (groups : list APIGroupResources.t) (st : ServerState)
        (g : APIGroupResources.t) (r : APIResource.t) :
  GetAPIGroupResources cl = inr groups →
  g ∈ groups →
  ¬ excluded g →
  r ∈ resourcesOf g (preferredVersion g) →
  ∃ v ws,
    GoRestfulContainer (InstallShadowAPIGroups ss cl st).2
    = GoRestfulContainer st ++ ws
    ∧ VersionWS v ∈ ws
    ∧ (∀ v', VersionWS v' ∈ ws → v' = v)
    ∧ is_Some (APIGroupVersion.Storage v !! ToLower (APIResource.Name r))
    ∧ ((∀ g' r', g' ∈ groups → ¬ excluded g' →
                 r' ∈ resourcesOf g' (preferredVersion g') →
                 ToLower (APIResource.Name r') = ToLower (APIResource.Name r) →
                 resourceRest (groupName g') (preferredVersion g') r'
                 = resourceRest (groupName g) (preferredVersion g) r) →
       APIGroupVersion.Storage v !! ToLower (APIResource.Name r)
       = Some (resourceRest (groupName g) (preferredVersion g) r))
    ∧ (∀ k a, APIGroupVersion.Storage v !! k = Some a →
              ∃ g' r', g' ∈ groups ∧ ¬ excluded g'
                       ∧ r' ∈ resourcesOf g' (preferredVersion g')
                       ∧ k = ToLower (APIResource.Name r')
                       ∧ a = resourceRest (groupName g') (preferredVersion g') r').
Proof.
  intros Hcl Hg Hne Hr.
  set (x := {| fromGroup := groupName g; fromVersion := preferredVersion g;
               resource := r |}).
  assert (x ∈ mirrored groups) as Hx.
  { apply elem_of_mirrored. exists g. by repeat split. }
  assert (∀ k a, publishedStorage groups !! k = Some a →
            ∃ g' r', g' ∈ groups ∧ ¬ excluded g'
                     ∧ r' ∈ resourcesOf g' (preferredVersion g')
                     ∧ k = ToLower (APIResource.Name r')
                     ∧ a = resourceRest (groupName g') (preferredVersion g') r')
    as Hentries.
  { intros k a (y & Hy & Hk & ->)%publishedStorage_entry.
    apply elem_of_mirrored in Hy as (g' & Hg' & Hne' & Hgn & Hv & Hr').
    exists g', (resource y). unfold adapterOf. rewrite Hgn, Hv.
    by repeat split. }
  destruct (InstallShadowAPIGroups_effect ss cl groups st Hcl)
    as (_ & ws & Hws & Honly & Hsome).
  exists (shadowRoutes ss groups st), ws. rewrite shadowRoutes_storage.
  split; [done|]. split; [apply Hsome; by intros Hnil; rewrite Hnil in Hx;
                          apply not_elem_of_nil in Hx|].
  split; [done|].
  pose proof (publishedStorage_key groups x Hx) as [a Ha].
  split; [by exists a|]. split; [|done].
  intros Huniq. change (APIResource.Name r) with (nameOf x). rewrite Ha. f_equal.
  destruct (Hentries _ _ Ha) as (g' & r' & Hg' & Hne' & Hr' & Hk & ->).
  by apply Huniq.
Qed.


(** C4, as amended.  [installAPIGroups] does not check that a descriptor
    has a prioritized version before it reads the first one: a descriptor
    whose [PrioritizedVersions] is empty, reached by validation after
    descriptors that pass it, is not rejected with an error; the call
    panics with an index out of range, the server left as it was found.
    No such descriptor is ever built: [InstallShadowAPIGroups] hands
    [installAPIGroups] one descriptor, whose [PrioritizedVersions] is the
    one version of the shadow group, and never panics. *)
Theorem empty_prioritizedVersions_is_not_checked (ss : ShadowAPIServer) :
  (∀ pre info post st,
     Forall wellFormed pre →
     APIGroupInfo.PrioritizedVersions info = [] →
     installAPIGroups ss (pre ++ info :: post) st = (Panic IndexOutOfRange, st))
  ∧ (∀ cl groups st,
       GetAPIGroupResources cl = inr groups →
       InstallShadowAPIGroups ss cl st
       = installAPIGroups ss [shadowInfo groups st] (registerAll (mirrored groups) st)
       ∧ APIGroupInfo.PrioritizedVersions (shadowInfo groups st) = [shadowGV])
  ∧ (∀ cl st p, (InstallShadowAPIGroups ss cl st).1 ≠ Panic p).
Proof.
  split; [|split].
  - intros pre info post st Hpre Hnil. by apply empty_prioritizedVersions_panics.
  - intros cl groups st Hcl. split; [|done].
    unfold InstallShadowAPIGroups. rewrite Hcl, mirrorGroups_spec. done.
  - intros cl st p.
    destruct (GetAPIGroupResources cl) as [err|groups] eqn:Hcl.
    + unfold InstallShadowAPIGroups. by rewrite Hcl.
    + rewrite (InstallShadowAPIGroups_outcome ss cl groups st Hcl).
      case_decide; [done|]. by destruct (InstallREST_returns _ _).
Qed.

End InstallerSpec.

(** ** A concrete setting

    Discovery is its own answer, lower-casing is ASCII, a map is ranged in
    the order of its entry list; what the route installer returns and the
    feature gates are given. *)

Definition exampleExternal
           (returns : APIGroupVersion.t → error + list ResourceInfo.t)
           (gates : Feature → bool) : External :=
  {| DiscoveryInterface := error + list APIGroupResources.t;
     GetAPIGroupResources := λ cl, cl;
     ToLower := asciiToLower;
     range_order := map_to_list;
     range_order_perm := λ m, Permutation_refl (map_to_list m);
     InstallREST_returns := λ _ v, returns v;
     Enabled := gates;
     PrioritizedVersionsForGroup := λ _ _, [] |}.

(** Every route installation succeeds and both gates are enabled. *)
Definition sunny : External := exampleExternal (λ _, inr []) (λ _, true).

Definition exResource (name kind : string) : APIResource.t :=
  {| APIResource.Name := name; APIResource.Namespaced := true;
     APIResource.Kind := kind; APIResource.ShortNames := [] |}.

Definition exGroup (name version : string) (resources : list APIResource.t)
  : APIGroupResources.t :=
  {| APIGroupResources.Group :=
       {| APIGroup.Name := name;
          APIGroup.Versions := [];
          APIGroup.PreferredVersion :=
            {| GroupVersionForDiscovery.GroupVersion := name +:+ "/" +:+ version;
               GroupVersionForDiscovery.Version := version |} |};
     APIGroupResources.VersionedResources := {[ version := resources ]} |}.

Definition emptyServer : ServerState :=
  {| Scheme := []; GoRestfulContainer := []; DiscoveryGroupManager := [];
     StorageVersionManager := [] |}.

Definition exServer : ShadowAPIServer :=
  {| maxRequestBodyBytes := 3145728; minRequestTimeout := 1800 |}.

(** Scenario A of the specification: a group to mirror, the shadow group
    itself and a group of the control plane. *)
Definition appsGroup : APIGroupResources.t :=
  exGroup "apps" "v1"
          [exResource "deployments" "Deployment"; exResource "daemonsets" "DaemonSet"].
Definition selfGroup : APIGroupResources.t :=
  exGroup "shadow" "v1alpha1" [exResource "manifests" "Manifest"].
Definition internalGroup : APIGroupResources.t :=
  exGroup "clusters.clusternet.io" "v1beta1"
          [exResource "managedclusters" "ManagedCluster"].
Definition scenarioA : list APIGroupResources.t :=
  [appsGroup; selfGroup; internalGroup].

(** Two groups that both list a resource named [events], as the core
    group and [events.k8s.io] do. *)
Definition coreEvents : APIResource.t := exResource "events" "Event".
Definition coreGroup : APIGroupResources.t := exGroup "" "v1" [coreEvents].
Definition eventsGroup : APIGroupResources.t :=
  exGroup "events.k8s.io" "v1" [exResource "events" "Event"].
Definition twoEvents : list APIGroupResources.t := [coreGroup; eventsGroup].

(** The group-versions the call has handed to the route installer. *)
Definition installedVersions (st : ServerState) : list APIGroupVersion.t :=
  omap (λ ws, match ws with VersionWS v => Some v | GroupWS _ => None end)
       (GoRestfulContainer st).

Example scenarioA_storage :
  APIGroupVersion.Storage
    <$> installedVersions
          (InstallShadowAPIGroups (external := sunny) exServer
             (inr scenarioA) emptyServer).2
  = [ <["deployments" := resourceRest "apps" "v1" (exResource "deployments" "Deployment")]>
        (<["daemonsets" := resourceRest "apps" "v1" (exResource "daemonsets" "DaemonSet")]>
           ∅) ].
Proof. vm_compute. reflexivity. Qed.

Example twoEvents_storage :
  APIGroupVersion.Storage
    <$> installedVersions
          (InstallShadowAPIGroups (external := sunny) exServer
             (inr twoEvents) emptyServer).2
  = [ {[ "events" := resourceRest "events.k8s.io" "v1" (exResource "events" "Event") ]} ].
Proof. vm_compute. reflexivity. Qed.

(** Scenario A: the control-plane group contributes nothing. *)
Lemma excluded_group_is_not_mirrored_witness :
  GetAPIGroupResources (External := sunny) (inr scenarioA) = inr scenarioA
  ∧ internalGroup ∈ scenarioA
  ∧ excluded internalGroup
  ∧ (∀ acc, mirrorGroup acc internalGroup = acc)
  ∧ (∀ n a, (foldl mirrorGroup (∅, emptyServer) scenarioA).1 !! n = Some a →
            REST.group a ≠ groupName internalGroup).
Proof.
  assert (internalGroup ∈ scenarioA) as Hin by (do 2 right; left).
  assert (excluded internalGroup) as Hex by (left; exists "clusters"; reflexivity).
  destruct (excluded_group_is_not_mirrored (external := sunny) exServer
              (inr scenarioA) scenarioA emptyServer internalGroup
              eq_refl Hin Hex) as (Hloop & Hmap & _).
  repeat split; assumption.
Defined.

(** Scenario A: [deployments] of [apps/v1] is published. *)
Lemma preferred_resources_are_published_witness :
  GetAPIGroupResources (External := sunny) (inr scenarioA) = inr scenarioA
  ∧ appsGroup ∈ scenarioA
  ∧ ¬ excluded appsGroup
  ∧ exResource "deployments" "Deployment"
      ∈ resourcesOf appsGroup (preferredVersion appsGroup)
  ∧ ∃ v ws,
      GoRestfulContainer
        (InstallShadowAPIGroups (external := sunny) exServer
           (inr scenarioA) emptyServer).2
      = GoRestfulContainer emptyServer ++ ws
      ∧ VersionWS v ∈ ws
      ∧ (∀ v', VersionWS v' ∈ ws → v' = v)
      ∧ is_Some (APIGroupVersion.Storage v !! "deployments").
Proof.
  assert (appsGroup ∈ scenarioA) as Hin by left.
  assert (¬ excluded appsGroup) as Hne.
  { intros Hex%isExcluded_spec. vm_compute in Hex. discriminate. }
  assert (exResource "deployments" "Deployment"
            ∈ resourcesOf appsGroup (preferredVersion appsGroup)) as Hr.
  { vm_compute. left. }
  destruct (preferred_resources_are_published (external := sunny) exServer
              (inr scenarioA) scenarioA emptyServer appsGroup
              (exResource "deployments" "Deployment") eq_refl Hin Hne Hr)
    as (v & ws & Hws & Hv & Honly & Hkey & _).
  repeat split; try assumption. exists v, ws. repeat split; assumption.
Defined.

(** C2 as it is stated fails where two groups list resources of the same
    name: of the two [events] only the one processed last is in the
    published map, so the [events] of the core group, listed under its
    preferred version, does not appear. *)
Lemma every_preferred_resource_appears_counterexample :
  ¬ (∀ g r,
       g ∈ twoEvents → ¬ excluded g →
       r ∈ resourcesOf g (preferredVersion g) →
       ∃ v, v ∈ installedVersions
                  (InstallShadowAPIGroups (external := sunny) exServer
                     (inr twoEvents) emptyServer).2
            ∧ APIGroupVersion.Storage v !! asciiToLower (APIResource.Name r)
              = Some (resourceRest (groupName g) (preferredVersion g) r)).
Proof.
  intros Hclaim.
  destruct (Hclaim coreGroup coreEvents) as (v & Hv & Hlook).
  - left.
  - intros Hex%isExcluded_spec. vm_compute in Hex. discriminate.
  - vm_compute. left.
  - vm_compute in Hv. apply list_elem_of_singleton in Hv. subst v.
    vm_compute in Hlook. discriminate.
Qed.

Definition goodInfo : APIGroupInfo.t :=
  {| APIGroupInfo.PrioritizedVersions :=
       [ {| GroupVersion.Group := "apps"; GroupVersion.Version := "v1" |} ];
     APIGroupInfo.VersionedResourcesStorageMap :=
       {[ "v1" := {[ "deployments" :=
                       resourceRest "apps" "v1" (exResource "deployments" "Deployment") ]} ]};
     APIGroupInfo.OptionsExternalVersion := None |}.

Definition noVersionInfo : APIGroupInfo.t :=
  {| APIGroupInfo.PrioritizedVersions :=
       [ {| GroupVersion.Group := "batch"; GroupVersion.Version := "" |} ];
     APIGroupInfo.VersionedResourcesStorageMap := ∅;
     APIGroupInfo.OptionsExternalVersion := None |}.

Definition emptyInfo : APIGroupInfo.t :=
  {| APIGroupInfo.PrioritizedVersions := [];
     APIGroupInfo.VersionedResourcesStorageMap := ∅;
     APIGroupInfo.OptionsExternalVersion := None |}.

(** A malformed descriptor after a good one: nothing of either is
    installed, and the error names the malformed one. *)
Lemma validation_precedes_publication_witness :
  Exists malformed [goodInfo; noVersionInfo]
  ∧ (installAPIGroups (external := sunny) exServer [goodInfo; noVersionInfo]
       emptyServer).2 = emptyServer
  ∧ ∃ info, info ∈ [goodInfo; noVersionInfo] ∧ malformed info
            ∧ ((installAPIGroups (external := sunny) exServer
                  [goodInfo; noVersionInfo] emptyServer).1 = Err (EmptyGroup info)
               ∨ (installAPIGroups (external := sunny) exServer
                    [goodInfo; noVersionInfo] emptyServer).1
                 = Err (EmptyVersion info)).
Proof.
  assert (Exists malformed [goodInfo; noVersionInfo]) as Hbad.
  { right. left. eexists. split; [reflexivity|]. right. reflexivity. }
  assert (Forall (λ info, APIGroupInfo.PrioritizedVersions info ≠ [])
                 [goodInfo; noVersionInfo]) as Hne
    by (repeat constructor; discriminate).
  destruct (validation_precedes_publication (external := sunny) exServer
              [goodInfo; noVersionInfo] emptyServer Hbad) as (Hst & _ & Herr).
  split; [exact Hbad|]. split; [exact Hst|]. exact (Herr Hne).
Defined.

Example noVersionInfo_rejected :
  installAPIGroups (external := sunny) exServer [goodInfo; noVersionInfo] emptyServer
  = (Err (EmptyVersion noVersionInfo), emptyServer).
Proof. vm_compute. reflexivity. Qed.

(** C3 as it is stated fails on a batch in which a descriptor without
    prioritized versions comes before the malformed one: validation does
    not return an error, it panics at [PrioritizedVersions[0]]. *)
Lemma malformed_batch_returns_error_counterexample :
  ¬ (∀ infos, Exists malformed infos →
              ∃ e, (installAPIGroups (external := sunny) exServer infos
                      emptyServer).1 = Err e).
Proof.
  intros Hclaim. destruct (Hclaim [emptyInfo; noVersionInfo]) as [e He].
  - right. left. eexists. split; [reflexivity|]. right. reflexivity.
  - vm_compute in He. discriminate.
Qed.

(** C4 as it is stated fails on a descriptor without prioritized
    versions: it is not rejected with an error, the call panics. *)
Lemma empty_prioritizedVersions_rejected_counterexample :
  ¬ (∀ info, APIGroupInfo.PrioritizedVersions info = [] →
             ∃ e, (installAPIGroups (external := sunny) exServer [info]
                     emptyServer).1 = Err e).
Proof.
  intros Hclaim. destruct (Hclaim emptyInfo eq_refl) as [e He].
  vm_compute in He. discriminate.
Qed.

Example emptyInfo_panics :
  installAPIGroups (external := sunny) exServer [goodInfo; emptyInfo] emptyServer
  = (Panic IndexOutOfRange, emptyServer).
Proof. vm_compute. reflexivity. Qed.

Lemma discovery_failure_installs_nothing_witness :
  GetAPIGroupResources (External := sunny) (inl (ExternalError "connection refused"))
  = inl (ExternalError "connection refused")
  ∧ InstallShadowAPIGroups (external := sunny) exServer
      (inl (ExternalError "connection refused")) emptyServer
    = (Err (ExternalError "connection refused"), emptyServer).
Proof.
  split; [reflexivity|].
  apply (discovery_failure_installs_nothing (external := sunny)). reflexivity.
Defined.

(** A route installer that reports one resource info for each
    group-version, with the given feature gates. *)
Definition deploymentsInfo : ResourceInfo.t :=
  {| ResourceInfo.Group := "apps"; ResourceInfo.Resource := "deployments";
     ResourceInfo.EncodingVersion := "apps/v1" |}.

Definition reporting (gates : Feature → bool) : External :=
  exampleExternal (λ _, inr [deploymentsInfo]) gates.

Definition identityOff (f : Feature) : bool :=
  match f with StorageVersionAPI => true | APIServerIdentity => false end.

Lemma goodInfo_installerReturns gates :
  installerReturns (external := reporting gates) exServer APIGroupPrefix goodInfo
    (GoRestfulContainer emptyServer)
    (filter (hasResources goodInfo) (APIGroupInfo.PrioritizedVersions goodInfo))
    [[deploymentsInfo]].
Proof.
  assert (filter (hasResources goodInfo) (APIGroupInfo.PrioritizedVersions goodInfo)
          = APIGroupInfo.PrioritizedVersions goodInfo) as ->
    by (vm_compute; reflexivity).
  split; [reflexivity|]. intros [|i] gv r Hgv Hr; [|done].
  injection Hr as <-. reflexivity.
Qed.

(** With both gates on the registry gains the resource infos the route
    installer returned; with the API-server identity gate off, the same
    installation records nothing. *)
Lemma storage_versions_recorded_iff_both_gates_witness :
  (installAPIResources (external := reporting (λ _, true)) exServer APIGroupPrefix
     goodInfo emptyServer).1 = Ok tt
  ∧ StorageVersionManager
      (installAPIResources (external := reporting (λ _, true)) exServer
         APIGroupPrefix goodInfo emptyServer).2 = [[deploymentsInfo]]
  ∧ (installAPIResources (external := reporting identityOff) exServer APIGroupPrefix
       goodInfo emptyServer).1 = Ok tt
  ∧ StorageVersionManager
      (installAPIResources (external := reporting identityOff) exServer
         APIGroupPrefix goodInfo emptyServer).2 = [].
Proof.
  destruct (storage_versions_recorded_iff_both_gates
              (external := reporting (λ _, true)) exServer APIGroupPrefix goodInfo
              emptyServer) as (_ & Hon).
  destruct (Hon _ (goodInfo_installerReturns (λ _, true))) as (Hok & _ & Hrec).
  destruct (storage_versions_recorded_iff_both_gates
              (external := reporting identityOff) exServer APIGroupPrefix goodInfo
              emptyServer) as (Hoff & Hon').
  destruct (Hon' _ (goodInfo_installerReturns identityOff)) as (Hok' & _ & _).
  split; [exact Hok|]. split; [apply Hrec; by split|].
  split; [exact Hok'|]. apply Hoff. right. reflexivity.
Defined.


End ShadowSpec.

(** * Properties of the cluster-status controller *)

Module ClusterStatusSpec.

Import clusterstatus.

(** The Ready condition of a node, read off its condition list: the first
    condition whose type is [Ready]. *)
Definition readyCondition (n : corev1.Node) : option corev1.NodeCondition :=
  snd <$> list_find (λ c, corev1.Type_ c = corev1.NodeReady)
                    (corev1.Conditions (corev1.NStatus n)).

(** The four ways a node is counted. *)
Inductive bucket : Type := Lost | Ready | NotReady | Unknown.

Global Instance bucket_eq_dec : EqDecision bucket.
Proof. solve_decision. Defined.

(** The bucket of a node, by its Ready condition: absent, or present with
    one of the three statuses; [None] for any other status. *)
Definition bucketOf (n : corev1.Node) : option bucket :=
  match readyCondition n with
  | None => Some Lost
  | Some c =>
      if decide (corev1.Status c = corev1.ConditionTrue) then Some Ready
      else if decide (corev1.Status c = corev1.ConditionFalse) then Some NotReady
      else if decide (corev1.Status c = corev1.ConditionUnknown) then Some Unknown
      else None
  end.

(** How many of the nodes fall in bucket [b]. *)
Definition inBucket (b : bucket) (nodes : list (option corev1.Node)) : Z :=
  Z.of_nat (length (filter (λ node, node ≫= bucketOf = Some b) nodes)).

(** A node pointer that is not nil and whose Ready condition is absent or
    carries one of the three statuses. *)
Definition wellFormed (node : option corev1.Node) : Prop :=
  ∃ n, node = Some n ∧
       match readyCondition n with
       | None => True
       | Some c => corev1.Status c = corev1.ConditionTrue
                   ∨ corev1.Status c = corev1.ConditionFalse
                   ∨ corev1.Status c = corev1.ConditionUnknown
       end.

Lemma wrap_id bits z :
  - 2 ^ (bits - 1) ≤ z < 2 ^ (bits - 1) → wrap bits z = z.
Proof.
  intros Hz. unfold wrap.
  assert (1 ≤ bits) as Hb.
  { destruct (Z.lt_ge_cases (bits - 1) 0) as [Hneg|]; [|lia].
    rewrite (Z.pow_neg_r 2 (bits - 1)) in Hz by lia. lia. }
  replace (2 ^ bits) with (2 * 2 ^ (bits - 1)).
  - rewrite Z.mod_small; lia.
  - rewrite <- Z.pow_succ_r by lia. f_equal. lia.
Qed.

Lemma getNodeCondition_from_spec i conds t :
  getNodeCondition_from i conds t =
    match list_find (λ c, corev1.Type_ c = t) conds with
    | None => (-1, None)
    | Some (j, c) => (i + Z.of_nat j, Some c)
    end.
Proof.
  revert i. induction conds as [|c conds IH]; intros i; simpl; [done|].
  destruct (String.eqb_spec (corev1.Type_ c) t) as [->|Hne].
  - rewrite decide_True by done. f_equal. lia.
  - rewrite decide_False by done. rewrite IH.
    destruct (list_find _ conds) as [[j c']|]; simpl; [|done]. f_equal. lia.
Qed.

Lemma getNodeCondition_ready n :
  ∃ flag, getNodeCondition (Some (corev1.NStatus n)) corev1.NodeReady
          = (flag, readyCondition n)
          ∧ (flag = -1 ↔ readyCondition n = None).
Proof.
  unfold getNodeCondition, readyCondition. rewrite getNodeCondition_from_spec.
  destruct (list_find _ _) as [[j c]|]; simpl.
  - eexists; split; [done|]. split; [lia|done].
  - by eexists.
Qed.

Section Counters.

Variable counter_bits : Z.

Definition total (ns : NodeStatistics) : Z :=
  ReadyNodes ns + NotReadyNodes ns + UnknownNodes ns + LostNodes ns.

Lemma inBucket_cons b node nodes :
  inBucket b (node :: nodes) =
    (if decide (node ≫= bucketOf = Some b) then 1 else 0) + inBucket b nodes.
Proof.
  unfold inBucket. rewrite filter_cons. case_decide; simpl; lia.
Qed.

Lemma inBucket_nonneg b nodes : 0 ≤ inBucket b nodes.
Proof. unfold inBucket. lia. Qed.

(** Case analysis on the status tests of [bucketOf]. *)
Ltac by_status :=
  unfold corev1.ConditionTrue, corev1.ConditionFalse, corev1.ConditionUnknown in *;
  repeat case_decide; simpl in *;
  repeat split; first [lia | congruence | tauto].

Lemma buckets_cover nodes :
  Forall wellFormed nodes →
  inBucket Ready nodes + inBucket NotReady nodes + inBucket Unknown nodes
    + inBucket Lost nodes = Z.of_nat (length nodes).
Proof.
  induction 1 as [|node nodes (n & -> & Hn) _ IH]; [done|].
  rewrite !inBucket_cons. simpl length. simpl mbind. unfold bucketOf.
  destruct (readyCondition n) as [c|]; by_status.
Qed.

Lemma countNode_spec node ns :
  wellFormed node →
  0 ≤ ReadyNodes ns → 0 ≤ NotReadyNodes ns → 0 ≤ UnknownNodes ns →
  0 ≤ LostNodes ns →
  total ns + 1 < 2 ^ (counter_bits - 1) →
  ∃ ns', countNode counter_bits node ns = Ok ns'
         ∧ ReadyNodes ns' = ReadyNodes ns + inBucket Ready [node]
         ∧ NotReadyNodes ns' = NotReadyNodes ns + inBucket NotReady [node]
         ∧ UnknownNodes ns' = UnknownNodes ns + inBucket Unknown [node]
         ∧ LostNodes ns' = LostNodes ns + inBucket Lost [node].
Proof.
  intros (n & -> & Hn) ???? Hlt. unfold total in Hlt.
  unfold countNode.
  destruct (getNodeCondition_ready n) as (flag & -> & Hflag).
  rewrite !inBucket_cons. unfold inBucket. simpl. unfold bucketOf, incr.
  destruct (readyCondition n) as [c|] eqn:Hc.
  - destruct (Z.eqb_spec flag (-1)) as [E|_]; [by apply Hflag in E|].
    destruct (String.eqb_spec (corev1.Status c) corev1.ConditionTrue) as [E1|E1];
      [|destruct (String.eqb_spec (corev1.Status c) corev1.ConditionFalse) as [E2|E2];
        [|destruct (String.eqb_spec (corev1.Status c) corev1.ConditionUnknown) as [E3|E3];
          [|exfalso; tauto]]];
      (eexists; split; [done|]; simpl; rewrite wrap_id by lia; by_status).
  - destruct (Z.eqb_spec flag (-1)) as [_|E]; [|by destruct E; apply Hflag].
    eexists; split; [done|]. simpl. rewrite wrap_id by lia. by_status.
Qed.

Lemma getNodeStatistics_loop_spec nodes : ∀ ns,
  Forall wellFormed nodes →
  0 ≤ ReadyNodes ns → 0 ≤ NotReadyNodes ns → 0 ≤ UnknownNodes ns →
  0 ≤ LostNodes ns →
  total ns + Z.of_nat (length nodes) < 2 ^ (counter_bits - 1) →
  ∃ ns', getNodeStatistics_loop counter_bits nodes ns = Ok ns'
         ∧ ReadyNodes ns' = ReadyNodes ns + inBucket Ready nodes
         ∧ NotReadyNodes ns' = NotReadyNodes ns + inBucket NotReady nodes
         ∧ UnknownNodes ns' = UnknownNodes ns + inBucket Unknown nodes
         ∧ LostNodes ns' = LostNodes ns + inBucket Lost nodes.
Proof.
  induction nodes as [|node nodes IH]; intros ns Hwf ???? Hlt.
  - exists ns. unfold inBucket. simpl. repeat split; lia.
  - apply Forall_cons in Hwf as [Hnode Hwf]. simpl length in Hlt.
    destruct (countNode_spec node ns) as (ns1 & Hc & Hr & Hn & Hu & Hl);
      [done..|lia|].
    simpl. rewrite Hc.
    pose proof (buckets_cover [node] ltac:(by constructor)) as Hone.
    simpl in Hone.
    pose proof (inBucket_nonneg Ready [node]).
    pose proof (inBucket_nonneg NotReady [node]).
    pose proof (inBucket_nonneg Unknown [node]).
    pose proof (inBucket_nonneg Lost [node]).
    destruct (IH ns1) as (ns' & Hloop & Hr' & Hn' & Hu' & Hl');
      [done|lia..| |].
    { unfold total in *. lia. }
    exists ns'. split; [done|].
    rewrite !(inBucket_cons _ node nodes).
    rewrite !inBucket_cons in Hr, Hn, Hu, Hl. unfold inBucket in Hr, Hn, Hu, Hl.
    simpl in Hr, Hn, Hu, Hl. repeat split; lia.
Qed.

(** C10.  For every list of (non-nil) nodes in which each node's Ready
    condition is either absent or has status True, False or Unknown, and
    whose length fits the counters, [getNodeStatistics] returns, and in its
    result [LostNodes] is the number of nodes without a Ready condition,
    [ReadyNodes], [NotReadyNodes] and [UnknownNodes] the numbers of nodes
    whose Ready condition has status True, False and Unknown; every node
    is in exactly one of these, so the four counters sum to the length of
    the list. *)
Theorem getNodeStatistics_counts_each_node_once
        (nodes : list (option corev1.Node)) :
  Forall wellFormed nodes →
  Z.of_nat (length nodes) < 2 ^ (counter_bits - 1) →
  ∃ ns, getNodeStatistics counter_bits nodes = Ok ns
        ∧ LostNodes ns = inBucket Lost nodes
        ∧ ReadyNodes ns = inBucket Ready nodes
        ∧ NotReadyNodes ns = inBucket NotReady nodes
        ∧ UnknownNodes ns = inBucket Unknown nodes
        ∧ Forall (λ node, ∃ b, node ≫= bucketOf = Some b) nodes
        ∧ ReadyNodes ns + NotReadyNodes ns + UnknownNodes ns + LostNodes ns
          = Z.of_nat (length nodes).
Proof.
  intros Hwf Hlen.
  destruct (getNodeStatistics_loop_spec nodes
              {| ReadyNodes := 0; NotReadyNodes := 0; UnknownNodes := 0;
                 LostNodes := 0 |}) as (ns & Hrun & Hr & Hn & Hu & Hl);
    [done|unfold total; simpl; lia..|].
  exists ns. simpl in *. repeat split; try done.
  - eapply Forall_impl; [exact Hwf|]. intros node (n & -> & Hn'). simpl.
    unfold bucketOf. destruct (readyCondition n); [|by eexists].
    repeat case_decide; eauto. tauto.
  - rewrite Hr, Hn, Hu, Hl. by apply buckets_cover.
Qed.

End Counters.

(** ** A concrete cluster *)

Definition exNode (conditions : list (string * string)) (cpu memory : Z)
  : option corev1.Node :=
  Some {| corev1.NStatus :=
            {| corev1.Capacity := {[ "cpu" := cpu; "memory" := memory ]};
               corev1.Allocatable := {[ "cpu" := cpu - 1; "memory" := memory - 1 ]};
               corev1.Conditions :=
                 (λ c, {| corev1.Type_ := c.1; corev1.Status := c.2 |})
                   <$> conditions |} |}.

Definition exNodes : list (option corev1.Node) :=
  [ exNode [("MemoryPressure", "False"); ("Ready", "True")] 8 32;
    exNode [("Ready", "False")] 4 16;
    exNode [("DiskPressure", "False")] 4 16;
    exNode [("Ready", "Unknown"); ("Ready", "True")] 2 8;
    exNode [("Ready", "True")] 16 64 ].

Example exNodes_statistics :
  getNodeStatistics 32 exNodes
  = Ok {| ReadyNodes := 2; NotReadyNodes := 1; UnknownNodes := 1; LostNodes := 1 |}.
Proof. vm_compute. reflexivity. Qed.

(** A Ready condition with any other status is in none of the counters. *)
Example other_status_is_not_counted :
  getNodeStatistics 32 [exNode [("Ready", "")] 1 1]
  = Ok {| ReadyNodes := 0; NotReadyNodes := 0; UnknownNodes := 0; LostNodes := 0 |}.
Proof. vm_compute. reflexivity. Qed.

Lemma getNodeStatistics_counts_each_node_once_witness :
  Forall wellFormed exNodes
  ∧ Z.of_nat (length exNodes) < 2 ^ (32 - 1)
  ∧ ∃ ns, getNodeStatistics 32 exNodes = Ok ns
          ∧ LostNodes ns = inBucket Lost exNodes
          ∧ ReadyNodes ns = inBucket Ready exNodes
          ∧ NotReadyNodes ns = inBucket NotReady exNodes
          ∧ UnknownNodes ns = inBucket Unknown exNodes
          ∧ Forall (λ node, ∃ b, node ≫= bucketOf = Some b) exNodes
          ∧ ReadyNodes ns + NotReadyNodes ns + UnknownNodes ns + LostNodes ns
            = Z.of_nat (length exNodes).
Proof.
  assert (Forall wellFormed exNodes) as Hwf.
  { repeat (apply Forall_cons; split;
            [eexists; split; [reflexivity|vm_compute; auto]|]).
    apply Forall_nil. constructor. }
  assert (Z.of_nat (length exNodes) < 2 ^ (32 - 1)) as Hlen
    by (vm_compute; reflexivity).
  split; [exact Hwf|]. split; [exact Hlen|].
  exact (getNodeStatistics_counts_each_node_once 32 exNodes Hwf Hlen).
Defined.

End ClusterStatusSpec.

Module ControllerSpec.
Import clusterstatus.

(** The stored pointer, when set, refers to a struct whose map references
    are allocated. *)
Definition refs_allocated (h : Heap) (s : ManagedClusterStatus) : Prop :=
  (∀ l, StatusAllocatable s = Some l → is_Some (lists h !! l))
  ∧ (∀ l, StatusCapacity s = Some l → is_Some (lists h !! l)).

Definition valid (c : Controller) (h : Heap) : Prop :=
  ∀ p, clusterStatus c = Some p →
       ∃ s, statuses h !! p = Some s ∧ refs_allocated h s.

(** [h'] results from [h] by writes to the struct at [q] and to the maps
    that struct refers to: every other cell is as it was. *)
Definition mutated_through (q : loc) (h h' : Heap) : Prop :=
  (∀ p, p ≠ q → statuses h' !! p = statuses h !! p)
  ∧ (∀ l, (∀ s, statuses h !! q = Some s →
                StatusAllocatable s ≠ Some l ∧ StatusCapacity s ≠ Some l) →
          lists h' !! l = lists h !! l).

(** [h'] extends [h]: every cell of [h] is in [h'] with the same content. *)
Definition extends (h h' : Heap) : Prop :=
  statuses h ⊆ statuses h' ∧ lists h ⊆ lists h'.

Lemma extends_refl h : extends h h.
Proof. by split. Qed.

Lemma extends_trans h1 h2 h3 : extends h1 h2 → extends h2 h3 → extends h1 h3.
Proof. intros [??] [??]. split; by etrans. Qed.

Lemma fresh_lookup {A} (m : gmap loc A) : m !! fresh (dom m) = None.
Proof. apply not_elem_of_dom, is_fresh. Qed.

Lemma allocStatus_extends s h : extends h (allocStatus s h).2.
Proof.
  split; simpl; [|done]. apply insert_subseteq, fresh_lookup.
Qed.

Lemma allocList_extends m h : extends h (allocList m h).2.
Proof.
  split; simpl; [done|]. apply insert_subseteq, fresh_lookup.
Qed.

Lemma lists_extends h h' ol :
  extends h h' → (∀ l, ol = Some l → is_Some (lists h !! l)) →
  (ol ≫= (lists h' !!.)) = (ol ≫= (lists h !!.)).
Proof.
  intros [_ Hl] Hal. destruct ol as [l|]; [|done]. simpl.
  destruct (Hal l eq_refl) as [m Hm]. rewrite Hm. by eapply lookup_weaken.
Qed.

Lemma view_extends h h' p s :
  extends h h' → statuses h !! p = Some s → refs_allocated h s →
  view h' p = view h p.
Proof.
  intros Hext Hp [Ha Hc]. unfold view.
  rewrite Hp, (lookup_weaken _ _ _ _ Hp (proj1 Hext)). simpl.
  by rewrite (lists_extends h h' _ Hext Ha), (lists_extends h h' _ Hext Hc).
Qed.

Lemma refs_allocated_extends h h' s :
  extends h h' → refs_allocated h s → refs_allocated h' s.
Proof.
  intros [_ Hl] [Ha Hc]. split; intros l Hlk.
  - destruct (Ha l Hlk) as [m Hm]. exists m. by eapply lookup_weaken.
  - destruct (Hc l Hlk) as [m Hm]. exists m. by eapply lookup_weaken.
Qed.

Lemma valid_extends c h h' : extends h h' → valid c h → valid c h'.
Proof.
  intros Hext Hv p Hp. destruct (Hv p Hp) as (s & Hs & Hr).
  exists s. split; [by eapply lookup_weaken, Hext|by eapply refs_allocated_extends].
Qed.

(** What [copyList] does to an allocated reference. *)
Lemma copyList_spec ol h :
  (∀ l, ol = Some l → is_Some (lists h !! l)) →
  ∃ ol' h', copyList ol h = (Ok ol', h')
            ∧ extends h h'
            ∧ statuses h' = statuses h
            ∧ (ol' ≫= (lists h' !!.)) = (ol ≫= (lists h !!.))
            ∧ (ol = None ↔ ol' = None)
            ∧ (∀ l', ol' = Some l' → lists h !! l' = None ∧ is_Some (lists h' !! l'))
            ∧ (∀ l, lists h' !! l = lists h !! l ∨ ol' = Some l).
Proof.
  intros Hal. destruct ol as [l|]; simpl.
  - destruct (Hal l eq_refl) as [m Hm]. rewrite Hm.
    eexists _, _. split; [done|]. split; [apply allocList_extends|].
    split; [done|]. simpl. rewrite lookup_insert_eq.
    split; [done|]. split; [done|]. split.
    + intros ? [= <-]. split; [apply fresh_lookup|by rewrite lookup_insert_eq].
    + intros l0. destruct (decide (l0 = fresh (dom (lists h)))) as [->|Hne];
        [by right|left; by rewrite lookup_insert_ne].
  - exists None, h. split; [done|]. split; [apply extends_refl|].
    split; [done|]. split; [done|]. split; [done|]. split; [done|by left].
Qed.

(** What [GetClusterStatus] does on a controller holding a status. *)
Lemma GetClusterStatus_copy c h p :
  valid c h → clusterStatus c = Some p →
  ∃ q h' s sq,
    GetClusterStatus c h = (Ok (Some q), h')
    ∧ extends h h'
    ∧ statuses h !! p = Some s ∧ refs_allocated h s
    ∧ statuses h !! q = None
    ∧ statuses h' !! q = Some sq
    ∧ view h' q = view h p
    ∧ (∀ l, StatusAllocatable sq = Some l ∨ StatusCapacity sq = Some l →
            lists h !! l = None).
Proof.
  intros Hv Hp. destruct (Hv p Hp) as (s & Hs & [Ha Hc]).
  unfold GetClusterStatus, DeepCopy. rewrite Hp, Hs.
  destruct (copyList_spec (StatusAllocatable s) h Ha)
    as (a & h1 & -> & Hext1 & Hst1 & Hla & Hna & Hfa & Hda).
  destruct (copyList_spec (StatusCapacity s) h1) as
    (k & h2 & -> & Hext2 & Hst2 & Hlk & Hnk & Hfk & Hdk).
  { intros l Hl. destruct (Hc l Hl) as [m Hm]. exists m.
    by eapply lookup_weaken, Hext1. }
  simpl. eexists _, _, s, _. split; [done|].
  assert (statuses h !! fresh (dom (statuses h2)) = None) as Hq.
  { rewrite Hst2, Hst1. apply fresh_lookup. }
  split; [|split; [done|split; [done|split; [done|]]]].
  { eapply extends_trans; [exact Hext1|].
    eapply extends_trans; [exact Hext2|]. apply allocStatus_extends. }
  simpl. rewrite lookup_insert_eq. split; [done|]. split.
  - unfold view. simpl. rewrite lookup_insert_eq, Hs. simpl.
    rewrite (lists_extends h1 h2 a Hext2) by (intros l' Hl'; by apply Hfa).
    rewrite Hla, Hlk, (lists_extends h h1 _ Hext1 Hc). done.
  - intros l [Hl|Hl]; simpl in Hl.
    + by apply Hfa.
    + destruct (Hfk l Hl) as [Hnone _].
      destruct (lists h !! l) as [m|] eqn:Hm; [|done].
      by rewrite (lookup_weaken _ _ _ _ Hm (proj2 Hext1)) in Hnone.
Qed.


(** Writes through the returned pointer leave the stored status as it was. *)
Lemma mutation_frame c h p q h' h'' r :
  valid c h → clusterStatus c = Some p →
  GetClusterStatus c h = (Ok r, h') → r = Some q →
  mutated_through q h' h'' →
  view h'' p = view h p ∧ valid c h''.
Proof.
  intros Hv Hp Hget -> [Hst Hli].
  destruct (GetClusterStatus_copy c h p Hv Hp)
    as (q' & h1 & s & sq & Hget' & Hext & Hs & Hr & Hq & Hsq & _ & Hfresh).
  rewrite Hget in Hget'. injection Hget' as <- <-.
  assert (p ≠ q) as Hpq by (intros ->; congruence).
  assert (statuses h'' !! p = Some s) as Hs''.
  { rewrite (Hst p Hpq). by eapply lookup_weaken, Hext. }
  assert (∀ l, is_Some (lists h !! l) → lists h'' !! l = lists h !! l) as Hkeep.
  { intros l [m Hm]. rewrite Hli.
    - rewrite Hm. by eapply lookup_weaken, Hext.
    - intros s' Hs'. rewrite Hsq in Hs'. injection Hs' as <-.
      split; intros Hl; rewrite (Hfresh l) in Hm by auto; done. }
  destruct Hr as [Ha Hc]. split.
  - unfold view. rewrite Hs'', Hs. simpl. f_equal. f_equal; [f_equal|].
    + destruct (StatusAllocatable s) as [l|]; [|done]. simpl. by apply Hkeep, Ha.
    + destruct (StatusCapacity s) as [l|]; [|done]. simpl. by apply Hkeep, Hc.
  - intros p' Hp'. rewrite Hp in Hp'. injection Hp' as <-.
    exists s. split; [done|]. split; intros l Hl.
    + rewrite Hkeep; by apply Ha.
    + rewrite Hkeep; by apply Hc.
Qed.

Section Rounds.

Variable counter_bits : Z.

(** The configuration of the controller, which no call changes. *)
Definition sameConfig (c c' : Controller) : Prop :=
  apiserverURL c' = apiserverURL c
  ∧ appPusherEnabled c' = appPusherEnabled c
  ∧ useSocket c' = useSocket c
  ∧ parentAPIServer c' = parentAPIServer c.

(** What a reader sees of the status stored by a completed round [o]: the
    struct (map references left out) and the contents of [Allocatable] and
    [Capacity]. *)
Definition snapshot (c : Controller) (o : Observed)
  : option (ManagedClusterStatus * option (gmap string Z) * option (gmap string Z)) :=
  match getNodeStatistics counter_bits (nodes o),
        getNodeResource_loop (nodes o) (0, 0, 0, 0),
        clusterVersion o with
  | Ok nodeStatistics,
    Ok (capacityCpu, capacityMem, allocatableCpu, allocatableMem),
    Some (GitVersion, Platform) =>
      Some ({| LastObservedTime := now o;
               KubernetesVersion := GitVersion;
               Platform := Platform;
               APIServerURL := apiserverURL c;
               Healthz := healthz o;
               Livez := livez o;
               Readyz := readyz o;
               AppPusher := appPusherEnabled c;
               UseSocket := useSocket c;
               ParentAPIServerURL := parentAPIServer c;
               ClusterCIDR := clusterCIDR o;
               ServiceCIDR := serviceCIDR o;
               StatusNodeStatistics := nodeStatistics;
               StatusAllocatable := None;
               StatusCapacity := None |},
            Some (<[corev1.ResourceMemory := allocatableMem]>
                    (<[corev1.ResourceCPU := allocatableCpu]> ∅)),
            Some (<[corev1.ResourceMemory := capacityMem]>
                    (<[corev1.ResourceCPU := capacityCpu]> ∅)))
  | _, _, _ => None
  end.

(** The last round of collection among the events. *)
Fixpoint lastCollect (events : list event) : option Observed :=
  match events with
  | [] => None
  | Collect o :: rest =>
      match lastCollect rest with Some o' => Some o' | None => Some o end
  | Get :: rest => lastCollect rest
  end.

Lemma lastCollect_None events :
  lastCollect events = None ↔ ∀ o, Collect o ∉ events.
Proof.
  induction events as [|[o|] events IH]; simpl.
  - split; [|done]. intros _ o. apply not_elem_of_nil.
  - split; [by destruct (lastCollect events)|].
    intros Hno. destruct (Hno o). by left.
  - rewrite IH. split; intros Hno o.
    + rewrite elem_of_cons. intros [Heq|Hin]; [done|by apply (Hno o)].
    + intros Hin. apply (Hno o). by right.
Qed.

Lemma setClusterStatus_spec status t c h :
  ∃ p, let '(c', h') := setClusterStatus status t c h in
       clusterStatus c' = Some p
       ∧ sameConfig c c'
       ∧ statuses h' !! p = Some (withLastObservedTime t status)
       ∧ lists h' = lists h.
Proof.
  unfold setClusterStatus.
  destruct (clusterStatus c); simpl;
    (eexists; split; [done|]; split; [done|]; split; [|done]);
    by rewrite lookup_alter, decide_True, lookup_insert_eq.
Qed.

Lemma collectingClusterStatus_spec o c h c' h' :
  collectingClusterStatus counter_bits o c h = (Ok tt, (c', h')) →
  ∃ p, clusterStatus c' = Some p ∧ valid c' h' ∧ sameConfig c c'
       ∧ view h' p = snapshot c o.
Proof.
  unfold collectingClusterStatus, snapshot, getNodeResource.
  destruct (getNodeStatistics counter_bits (nodes o)) as [ns| |]; [|done..].
  simpl.
  destruct (getNodeResource_loop (nodes o) (0, 0, 0, 0))
    as [[[[cc cm] ac] am]| |]; [|done..].
  destruct (clusterVersion o) as [[v pf]|]; [|done].
  set (l1 := fresh (dom (lists h))).
  set (l2 := fresh (dom (<[l1:=∅]> (lists h)))).
  assert (l2 ≠ l1) as Hne.
  { intros Heq. pose proof (is_fresh (dom (<[l1:=∅]> (lists h)))) as Hf.
    fold l2 in Hf. rewrite Heq in Hf. apply Hf.
    rewrite dom_insert_L. set_solver. }
  match goal with
  | |- (_, setClusterStatus ?st ?t c ?hh) = _ → _ =>
      destruct (setClusterStatus_spec st t c hh) as (p & Hset);
      destruct (setClusterStatus st t c hh) as [c1 h1] eqn:Hs1
  end.
  destruct Hset as (Hp & Hcfg & Hst & Hli).
  intros [= <- <-]. exists p. split; [done|].
  assert (lists h1 !! l2
          = Some (<[corev1.ResourceMemory := am]> (<[corev1.ResourceCPU := ac]> ∅)))
    as Hl2.
  { rewrite Hli. simpl. rewrite lookup_alter, decide_True by done.
    rewrite lookup_alter, decide_False by done. by rewrite lookup_insert_eq. }
  assert (lists h1 !! l1
          = Some (<[corev1.ResourceMemory := cm]> (<[corev1.ResourceCPU := cc]> ∅)))
    as Hl1.
  { rewrite Hli. simpl. rewrite lookup_alter, decide_False by done.
    rewrite lookup_alter, decide_True by done.
    by rewrite lookup_insert_ne, lookup_insert_eq. }
  split; [|split; [done|]].
  - intros p' Hp'. rewrite Hp in Hp'. injection Hp' as <-.
    eexists. split; [exact Hst|]. split; simpl; intros l [= <-]; eauto.
  - unfold view. rewrite Hst. simpl. by rewrite Hl1, Hl2.
Qed.

Lemma GetClusterStatus_extends c h :
  valid c h →
  ∃ r h', GetClusterStatus c h = (Ok r, h') ∧ extends h h'
          ∧ (r = None ↔ clusterStatus c = None).
Proof.
  intros Hv. destruct (clusterStatus c) as [p|] eqn:Hp.
  - destruct (GetClusterStatus_copy c h p Hv Hp)
      as (q & h' & s & sq & Hget & Hext & _).
    exists (Some q), h'. split; [done|]. split; [done|]. by split.
  - unfold GetClusterStatus. rewrite Hp. exists None, h.
    split; [done|]. split; [apply extends_refl|done].
Qed.

Lemma sameConfig_trans c1 c2 c3 :
  sameConfig c1 c2 → sameConfig c2 c3 → sameConfig c1 c3.
Proof.
  intros (H1 & H2 & H3 & H4) (H5 & H6 & H7 & H8). unfold sameConfig.
  repeat split; congruence.
Qed.

Lemma snapshot_config c c' o : sameConfig c c' → snapshot c' o = snapshot c o.
Proof. intros (H1 & H2 & H3 & H4). unfold snapshot. by rewrite H1, H2, H3, H4. Qed.

(** What holds of a controller after any sequence of completed rounds and
    reads. *)
Lemma run_spec events : ∀ c0 h0 c h,
  valid c0 h0 →
  run counter_bits events c0 h0 = Ok (c, h) →
  valid c h ∧ sameConfig c0 c
  ∧ match lastCollect events with
    | None => clusterStatus c = clusterStatus c0
              ∧ ∀ p, clusterStatus c0 = Some p → view h p = view h0 p
    | Some o => ∃ p, clusterStatus c = Some p ∧ view h p = snapshot c0 o
    end.
Proof.
  induction events as [|[o|] events IH]; intros c0 h0 c h Hv Hrun; simpl in Hrun.
  - injection Hrun as <- <-. by repeat split.
  - destruct (collectingClusterStatus counter_bits o c0 h0)
      as [[[]| |] [c1 h1]] eqn:Hcol; [|done..].
    destruct (collectingClusterStatus_spec _ _ _ _ _ Hcol)
      as (p & Hp & Hv1 & Hcfg & Hview).
    destruct (IH c1 h1 c h Hv1 Hrun) as (Hvc & Hcfg' & Hlast).
    split; [done|]. split; [by eapply sameConfig_trans|]. simpl.
    destruct (lastCollect events) as [o'|].
    + destruct Hlast as (p' & Hp' & Hview'). exists p'. split; [done|].
      by rewrite Hview', (snapshot_config c0 c1).
    + destruct Hlast as [Hsame Hkeep]. exists p. split; [congruence|].
      by rewrite (Hkeep p Hp).
  - destruct (GetClusterStatus_extends c0 h0 Hv) as (r & h1 & Hget & Hext & _).
    rewrite Hget in Hrun.
    destruct (IH c0 h1 c h (valid_extends _ _ _ Hext Hv) Hrun)
      as (Hvc & Hcfg & Hlast).
    split; [done|]. split; [done|]. simpl.
    destruct (lastCollect events) as [o'|]; [done|].
    destruct Hlast as [Hsame Hkeep]. split; [done|]. intros p Hp.
    rewrite (Hkeep p Hp). destruct (Hv p Hp) as (s & Hs & Hr).
    by eapply view_extends.
Qed.

(** C9.  On a controller that started with no status and has gone through
    any rounds of collection and reads: [GetClusterStatus] returns nil if
    and only if no round of collection has completed; otherwise it returns
    a pointer [q] to a copy of the status stored by the last completed
    round, and whatever is then written through [q] (to the struct it
    points to, or to the maps that struct refers to), the status stored in
    the controller reads as before, also through a second
    [GetClusterStatus]. *)
Theorem GetClusterStatus_nil_or_deep_copy
        (events : list event) (c0 c : Controller) (h0 h : Heap) :
  clusterStatus c0 = None →
  run counter_bits events c0 h0 = Ok (c, h) →
  ((GetClusterStatus c h).1 = Ok None ↔ ∀ o, Collect o ∉ events)
  ∧ (∀ o, lastCollect events = Some o →
       ∃ p q h',
         clusterStatus c = Some p
         ∧ GetClusterStatus c h = (Ok (Some q), h')
         ∧ q ≠ p
         ∧ view h p = snapshot c0 o
         ∧ view h' q = snapshot c0 o
         ∧ ∀ h'', mutated_through q h' h'' →
             view h'' p = snapshot c0 o
             ∧ ∃ q2 h3, GetClusterStatus c h'' = (Ok (Some q2), h3)
                        ∧ view h3 q2 = snapshot c0 o).
Proof.
  intros Hnil Hrun.
  assert (valid c0 h0) as Hv0 by (intros p Hp; congruence).
  destruct (run_spec events c0 h0 c h Hv0 Hrun) as (Hv & Hcfg & Hlast).
  split.
  - rewrite <- lastCollect_None.
    destruct (GetClusterStatus_extends c h Hv) as (r & h' & Hget & _ & Hr).
    rewrite Hget. simpl. destruct (lastCollect events) as [o|].
    + destruct Hlast as (p & Hp & _). split; [|done].
      intros [= ->]. destruct Hr as [Hr _]. rewrite Hr in Hp; done.
    + destruct Hlast as [Hc _]. split; [done|]. intros _. f_equal.
      apply Hr. congruence.
  - intros o Ho. rewrite Ho in Hlast. destruct Hlast as (p & Hp & Hview).
    destruct (GetClusterStatus_copy c h p Hv Hp)
      as (q & h' & s & sq & Hget & Hext & Hs & Hr & Hq & Hsq & Hcopy & Hfresh).
    exists p, q, h'. split; [done|]. split; [done|].
    split; [intros ->; congruence|]. split; [done|].
    split; [by rewrite Hcopy|]. intros h'' Hmut.
    destruct (mutation_frame c h p q h' h'' _ Hv Hp Hget eq_refl Hmut)
      as [Hview'' Hv''].
    split; [by rewrite Hview''|].
    destruct (GetClusterStatus_copy c h'' p Hv'' Hp)
      as (q2 & h3 & _ & _ & Hget2 & _ & _ & _ & _ & _ & Hcopy2 & _).
    exists q2, h3. split; [done|]. by rewrite Hcopy2, Hview''.
Qed.

End Rounds.

(** ** A concrete run: one round of collection, then a read *)

Definition exController : Controller :=
  NewController "https://10.0.0.1:6443" "https://hub.example:443" true false.

Definition emptyHeap : Heap := {| statuses := ∅; lists := ∅ |}.

Definition exObserved : Observed :=
  {| clusterVersion := Some ("v1.21.2", "linux/amd64");
     nodes := ClusterStatusSpec.exNodes;
     clusterCIDR := "10.244.0.0/16";
     serviceCIDR := "10.96.0.0/12";
     healthz := true;
     livez := true;
     readyz := false;
     now := 1625097600 |}.

Example exObserved_snapshot :
  snapshot 32 exController exObserved
  = Some ({| LastObservedTime := 1625097600;
             KubernetesVersion := "v1.21.2";
             Platform := "linux/amd64";
             APIServerURL := "https://10.0.0.1:6443";
             Healthz := true; Livez := true; Readyz := false;
             AppPusher := true; UseSocket := false;
             ParentAPIServerURL := "https://hub.example:443";
             ClusterCIDR := "10.244.0.0/16";
             ServiceCIDR := "10.96.0.0/12";
             StatusNodeStatistics :=
               {| ReadyNodes := 2; NotReadyNodes := 1; UnknownNodes := 1;
                  LostNodes := 1 |};
             StatusAllocatable := None; StatusCapacity := None |},
          Some {[ "cpu" := 29; "memory" := 131 ]},
          Some {[ "cpu" := 34; "memory" := 136 ]}).
Proof. vm_compute. reflexivity. Qed.

Lemma GetClusterStatus_nil_or_deep_copy_witness :
  ∃ c h,
    clusterStatus exController = None
    ∧ run 32 [Collect exObserved; Get] exController emptyHeap = Ok (c, h)
    ∧ ((GetClusterStatus c h).1 = Ok None
       ↔ ∀ o, Collect o ∉ [Collect exObserved; Get])
    ∧ ∃ p q h',
        clusterStatus c = Some p
        ∧ GetClusterStatus c h = (Ok (Some q), h')
        ∧ q ≠ p
        ∧ view h' q = snapshot 32 exController exObserved.
Proof.
  eexists _, _. split; [reflexivity|].
  assert (∀ P Q : Prop, P → (P → Q) → P ∧ Q) as Hcut by tauto.
  apply Hcut; [vm_compute; reflexivity|]. intros Hrun.
  destruct (GetClusterStatus_nil_or_deep_copy 32 [Collect exObserved; Get]
              exController _ emptyHeap _ eq_refl Hrun) as [Hnil Hcopy].
  split; [exact Hnil|].
  destruct (Hcopy exObserved eq_refl) as (p & q & h' & Hp & Hget & Hne & _ & Hq & _).
  exists p, q, h'. repeat split; assumption.
Defined.

End ControllerSpec.

(** * Further properties of the node statistics and resources *)

Module NodeSpec.

Import clusterstatus ClusterStatusSpec.

(** How many of the nodes fall in bucket [b], as a number of increments. *)
Definition hits (b : bucket) (nodes : list (option corev1.Node)) : nat :=
  length (filter (λ node, node ≫= bucketOf = Some b) nodes).

(** How many of the nodes carry a Ready condition whose status is none of
    True, False and Unknown. *)
Definition uncounted (nodes : list (option corev1.Node)) : Z :=
  Z.of_nat (length (filter (λ node, node ≫= bucketOf = None) nodes)).

(** The sum of one quantity over the nodes. *)
Definition sumOf (f : corev1.NodeStatus → Z) (nodes : list (option corev1.Node))
  : Z :=
  foldr (λ node acc, from_option (λ n, f (corev1.NStatus n)) 0 node + acc) 0 nodes.

Definition capacityCpu (s : corev1.NodeStatus) : Z := corev1.Cpu (corev1.Capacity s).
Definition capacityMem (s : corev1.NodeStatus) : Z := corev1.Memory (corev1.Capacity s).
Definition allocatableCpu (s : corev1.NodeStatus) : Z :=
  corev1.Cpu (corev1.Allocatable s).
Definition allocatableMem (s : corev1.NodeStatus) : Z :=
  corev1.Memory (corev1.Allocatable s).

(** The two entries [getNodeResource] writes into each of its maps. *)
Definition resourceList (cpu memory : Z) : gmap string Z :=
  <[corev1.ResourceMemory := memory]> (<[corev1.ResourceCPU := cpu]> ∅).

Lemma hits_cons b node nodes :
  hits b (node :: nodes)
  = ((if decide (node ≫= bucketOf = Some b) then 1 else 0) + hits b nodes)%nat.
Proof. unfold hits. rewrite filter_cons. by case_decide. Qed.

Lemma inBucket_hits b nodes : inBucket b nodes = Z.of_nat (hits b nodes).
Proof. done. Qed.

Lemma hits_perm b nodes nodes' : nodes ≡ₚ nodes' → hits b nodes = hits b nodes'.
Proof. intros Hperm. unfold hits. apply Permutation_length. by rewrite Hperm. Qed.

(** ** [getNodeCondition] *)

(** X1.  [getNodeCondition] returns the first condition of the given type
    with its index; it returns [-1] and nil exactly when the status is nil
    or lists no condition of that type. *)
Theorem getNodeCondition_finds_first
        (status : option corev1.NodeStatus) (t : corev1.NodeConditionType) :
  match getNodeCondition status t with
  | (flag, None) =>
      flag = -1
      ∧ ∀ s c, status = Some s → c ∈ corev1.Conditions s → corev1.Type_ c ≠ t
  | (flag, Some c) =>
      ∃ s i, status = Some s ∧ flag = Z.of_nat i
             ∧ corev1.Conditions s !! i = Some c
             ∧ corev1.Type_ c = t
             ∧ ∀ j c', (j < i)%nat → corev1.Conditions s !! j = Some c' →
                       corev1.Type_ c' ≠ t
  end.
Proof.
  destruct status as [s|]; simpl; [|by split].
  rewrite getNodeCondition_from_spec.
  destruct (list_find _ _) as [[i c]|] eqn:Hfind.
  - apply list_find_Some in Hfind as (Hi & Ht & Hfirst).
    exists s, i. split; [done|]. split; [lia|]. split; [done|]. split; [done|].
    intros j c' Hj Hc'. apply (Hfirst j c' Hc'). lia.
  - apply list_find_None in Hfind. split; [done|].
    intros s' c [= <-] Hc. rewrite Forall_forall in Hfind. by apply Hfind.
Qed.

(** ** [getNodeStatistics] *)

(** A list of node pointers holds a nil pointer or it does not. *)
Lemma nil_node_cases (nodes : list (option corev1.Node)) :
  None ∈ nodes ∨ None ∉ nodes.
Proof.
  induction nodes as [|[n|] nodes [IH|IH]].
  - right. apply not_elem_of_nil.
  - left. by right.
  - right. by intros [|]%elem_of_cons.
  - left. by left.
  - left. by left.
Qed.

Section Counters.

Variable counter_bits : Z.

(** One step of the loop on a node that is not nil: the counter of the
    node's bucket is incremented, if it has one. *)
Lemma countNode_Some n ns :
  countNode counter_bits (Some n) ns =
    Ok match bucketOf n with
       | Some Ready =>
           {| ReadyNodes := incr counter_bits (ReadyNodes ns);
              NotReadyNodes := NotReadyNodes ns;
              UnknownNodes := UnknownNodes ns; LostNodes := LostNodes ns |}
       | Some NotReady =>
           {| ReadyNodes := ReadyNodes ns;
              NotReadyNodes := incr counter_bits (NotReadyNodes ns);
              UnknownNodes := UnknownNodes ns; LostNodes := LostNodes ns |}
       | Some Unknown =>
           {| ReadyNodes := ReadyNodes ns; NotReadyNodes := NotReadyNodes ns;
              UnknownNodes := incr counter_bits (UnknownNodes ns);
              LostNodes := LostNodes ns |}
       | Some Lost =>
           {| ReadyNodes := ReadyNodes ns; NotReadyNodes := NotReadyNodes ns;
              UnknownNodes := UnknownNodes ns;
              LostNodes := incr counter_bits (LostNodes ns) |}
       | None => ns
       end.
Proof.
  unfold countNode. destruct (getNodeCondition_ready n) as (flag & -> & Hflag).
  unfold bucketOf. destruct (readyCondition n) as [c|] eqn:Hc.
  - destruct (Z.eqb_spec flag (-1)) as [E|_]; [by apply Hflag in E|].
    unfold corev1.ConditionTrue, corev1.ConditionFalse, corev1.ConditionUnknown.
    destruct (String.eqb_spec (corev1.Status c) "True") as [E1|E1];
      [by rewrite decide_True|rewrite decide_False by done].
    destruct (String.eqb_spec (corev1.Status c) "False") as [E2|E2];
      [by rewrite decide_True|rewrite decide_False by done].
    destruct (String.eqb_spec (corev1.Status c) "Unknown") as [E3|E3];
      [by rewrite decide_True|by rewrite decide_False].
  - destruct (Z.eqb_spec flag (-1)) as [_|E]; [done|]. by destruct E; apply Hflag.
Qed.

Lemma iter_succ_r {A} (f : A → A) n x : Nat.iter (S n) f x = Nat.iter n f (f x).
Proof. induction n as [|n IH]; [done|]. simpl in *. by rewrite IH. Qed.

(** The loop on nodes none of which is nil, whatever the counters hold:
    each counter is incremented once per node of its bucket. *)
Lemma getNodeStatistics_loop_iter nodes : ∀ ns,
  None ∉ nodes →
  getNodeStatistics_loop counter_bits nodes ns =
    Ok {| ReadyNodes := Nat.iter (hits Ready nodes) (incr counter_bits) (ReadyNodes ns);
          NotReadyNodes :=
            Nat.iter (hits NotReady nodes) (incr counter_bits) (NotReadyNodes ns);
          UnknownNodes :=
            Nat.iter (hits Unknown nodes) (incr counter_bits) (UnknownNodes ns);
          LostNodes := Nat.iter (hits Lost nodes) (incr counter_bits) (LostNodes ns) |}.
Proof.
  induction nodes as [|[n|] nodes IH]; intros ns Hnil.
  - by destruct ns.
  - cbn [getNodeStatistics_loop]. rewrite countNode_Some, IH
      by (intros Hin; apply Hnil; by right).
    rewrite !hits_cons. cbn [mbind option_bind].
    destruct (bucketOf n) as [[]|]; f_equal; f_equal;
      repeat (case_decide; try congruence); simpl Nat.add;
      by rewrite ?iter_succ_r.
  - destruct Hnil. by left.
Qed.

Lemma getNodeStatistics_loop_nil nodes : ∀ ns,
  None ∈ nodes → getNodeStatistics_loop counter_bits nodes ns = Panic NilDereference.
Proof.
  induction nodes as [|[n|] nodes IH]; intros ns Hnil.
  - by apply not_elem_of_nil in Hnil.
  - cbn [getNodeStatistics_loop]. rewrite countNode_Some. apply IH.
    by apply elem_of_cons in Hnil as [|].
  - done.
Qed.

Lemma iter_incr n : ∀ x,
  0 ≤ x → x + Z.of_nat n < 2 ^ (counter_bits - 1) →
  Nat.iter n (incr counter_bits) x = x + Z.of_nat n.
Proof.
  induction n as [|n IH]; intros x Hx Hlt; [simpl; lia|].
  rewrite iter_succ_r. unfold incr at 2. rewrite wrap_id by lia.
  rewrite IH by lia. lia.
Qed.

Lemma hits_partition nodes :
  None ∉ nodes →
  (hits Ready nodes + hits NotReady nodes + hits Unknown nodes + hits Lost nodes
   + length (filter (λ node, node ≫= bucketOf = None) nodes) = length nodes)%nat.
Proof.
  induction nodes as [|[n|] nodes IH]; intros Hnil; [done| |by destruct Hnil; left].
  rewrite !hits_cons, filter_cons. cbn [mbind option_bind length].
  specialize (IH ltac:(intros Hin; apply Hnil; by right)).
  destruct (bucketOf n) as [[]|];
    repeat (case_decide; try congruence); simpl length; lia.
Qed.

(** X2.  [getNodeStatistics] returns normally exactly when no node pointer
    of the list is nil, and panics with a nil dereference exactly when one
    is: it never returns an error and raises no other panic. *)
Theorem getNodeStatistics_panics_iff_nil_node (nodes : list (option corev1.Node)) :
  ((∃ ns, getNodeStatistics counter_bits nodes = Ok ns) ↔ None ∉ nodes)
  ∧ (getNodeStatistics counter_bits nodes = Panic NilDereference ↔ None ∈ nodes)
  ∧ (∀ e, getNodeStatistics counter_bits nodes ≠ Err e)
  ∧ (∀ p, getNodeStatistics counter_bits nodes = Panic p → p = NilDereference).
Proof.
  unfold getNodeStatistics.
  destruct (nil_node_cases nodes) as [Hin|Hnot].
  - rewrite getNodeStatistics_loop_nil by done.
    split; [split; [by intros [ns ?]|done]|].
    split; [done|]. split; [done|]. by intros p [= <-].
  - rewrite getNodeStatistics_loop_iter by done.
    split; [split; [done|by eexists]|]. by split.
Qed.

(** X3.  On nodes none of which is nil and whose number fits the counters,
    each counter of [getNodeStatistics] is the number of nodes of its
    bucket, and a node whose Ready condition has a status other than True,
    False and Unknown is counted nowhere: the four counters sum to the
    number of nodes less the number of such nodes. *)
Theorem getNodeStatistics_leaves_other_statuses_uncounted
        (nodes : list (option corev1.Node)) :
  None ∉ nodes →
  Z.of_nat (length nodes) < 2 ^ (counter_bits - 1) →
  ∃ ns, getNodeStatistics counter_bits nodes = Ok ns
        ∧ ReadyNodes ns = inBucket Ready nodes
        ∧ NotReadyNodes ns = inBucket NotReady nodes
        ∧ UnknownNodes ns = inBucket Unknown nodes
        ∧ LostNodes ns = inBucket Lost nodes
        ∧ ReadyNodes ns + NotReadyNodes ns + UnknownNodes ns + LostNodes ns
          = Z.of_nat (length nodes) - uncounted nodes.
Proof.
  intros Hnil Hlen. unfold getNodeStatistics.
  rewrite getNodeStatistics_loop_iter by done. eexists. split; [done|].
  pose proof (hits_partition nodes Hnil) as Hpart. cbn [ReadyNodes NotReadyNodes
    UnknownNodes LostNodes]. unfold uncounted. rewrite !inBucket_hits.
  rewrite !iter_incr by lia. repeat split; lia.
Qed.

(** X4.  The statistics do not depend on the order in which the nodes are
    listed: on two lists that are permutations of one another
    [getNodeStatistics] gives the same outcome, counters that have wrapped
    around and the panic on a nil node included. *)
Theorem getNodeStatistics_order_independent
        (nodes nodes' : list (option corev1.Node)) :
  nodes ≡ₚ nodes' →
  getNodeStatistics counter_bits nodes = getNodeStatistics counter_bits nodes'.
Proof.
  intros Hperm. unfold getNodeStatistics.
  destruct (nil_node_cases nodes) as [Hin|Hnot].
  - rewrite !getNodeStatistics_loop_nil; [done|by rewrite <- Hperm|done].
  - rewrite !getNodeStatistics_loop_iter; [|by rewrite <- Hperm|done].
    by rewrite !(hits_perm _ nodes nodes' Hperm).
Qed.

End Counters.

(** ** [getNodeResource] *)

Lemma getNodeResource_loop_spec nodes : ∀ a b c d,
  None ∉ nodes →
  getNodeResource_loop nodes (a, b, c, d)
  = Ok (a + sumOf capacityCpu nodes, b + sumOf capacityMem nodes,
        c + sumOf allocatableCpu nodes, d + sumOf allocatableMem nodes).
Proof.
  induction nodes as [|[n|] nodes IH]; intros a b c d Hnil.
  - simpl. by rewrite !Z.add_0_r.
  - cbn [getNodeResource_loop]. rewrite IH by (intros Hin; apply Hnil; by right).
    unfold sumOf, capacityCpu, capacityMem, allocatableCpu, allocatableMem.
    simpl. by rewrite !Z.add_assoc.
  - destruct Hnil. by left.
Qed.

Lemma getNodeResource_loop_nil nodes : ∀ sums,
  None ∈ nodes → getNodeResource_loop nodes sums = Panic NilDereference.
Proof.
  induction nodes as [|[n|] nodes IH]; intros [[[a b] c] d] Hnil.
  - by apply not_elem_of_nil in Hnil.
  - cbn [getNodeResource_loop]. apply IH. by apply elem_of_cons in Hnil as [|].
  - done.
Qed.

Lemma sumOf_perm f nodes nodes' : nodes ≡ₚ nodes' → sumOf f nodes = sumOf f nodes'.
Proof.
  unfold sumOf. induction 1 as [|x l l' _ IH|x y l|l1 l2 l3 _ IH1 _ IH2]; simpl;
    [done|by rewrite IH|lia|by rewrite IH1].
Qed.

(** ** A cluster with a node of unrecognised status *)

Definition otherNodes : list (option corev1.Node) :=
  [ exNode [("Ready", "True")] 4 16;
    exNode [("Ready", "Maybe")] 4 16;
    exNode [("MemoryPressure", "False")] 2 8 ].

Lemma all_Some_not_nil (nodes : list (option corev1.Node)) :
  Forall is_Some nodes → None ∉ nodes.
Proof.
  intros Hall Hin. rewrite Forall_forall in Hall.
  destruct (Hall None Hin) as [n Hn]. discriminate.
Qed.

Lemma getNodeStatistics_leaves_other_statuses_uncounted_witness :
  (None ∉ otherNodes)
  ∧ Z.of_nat (length otherNodes) < 2 ^ (32 - 1)
  ∧ ∃ ns, getNodeStatistics 32 otherNodes = Ok ns
          ∧ ReadyNodes ns = inBucket Ready otherNodes
          ∧ NotReadyNodes ns = inBucket NotReady otherNodes
          ∧ UnknownNodes ns = inBucket Unknown otherNodes
          ∧ LostNodes ns = inBucket Lost otherNodes
          ∧ ReadyNodes ns + NotReadyNodes ns + UnknownNodes ns + LostNodes ns
            = Z.of_nat (length otherNodes) - uncounted otherNodes.
Proof.
  assert (None ∉ otherNodes) as Hnil.
  { apply all_Some_not_nil. repeat constructor; by eexists. }
  assert (Z.of_nat (length otherNodes) < 2 ^ (32 - 1)) as Hlen
    by (vm_compute; reflexivity).
  split; [exact Hnil|]. split; [exact Hlen|].
  exact (getNodeStatistics_leaves_other_statuses_uncounted 32 otherNodes Hnil Hlen).
Defined.

Example otherNodes_statistics :
  getNodeStatistics 32 otherNodes
  = Ok {| ReadyNodes := 1; NotReadyNodes := 0; UnknownNodes := 0; LostNodes := 1 |}
  ∧ uncounted otherNodes = 1.
Proof. split; vm_compute; reflexivity. Qed.

Lemma getNodeStatistics_order_independent_witness :
  exNodes ≡ₚ reverse exNodes
  ∧ getNodeStatistics 32 exNodes = getNodeStatistics 32 (reverse exNodes).
Proof.
  assert (exNodes ≡ₚ reverse exNodes) as Hperm
    by (symmetry; apply reverse_Permutation).
  split; [exact Hperm|].
  exact (getNodeStatistics_order_independent 32 exNodes (reverse exNodes) Hperm).
Defined.

End NodeSpec.

(** * Further properties of the controller's memory *)

Module StoreSpec.

Import clusterstatus ClusterStatusSpec ControllerSpec NodeSpec.

Lemma fresh_fresh (m : gmap loc (gmap string Z)) (x : gmap string Z) :
  fresh (dom (<[fresh (dom m) := x]> m)) ≠ fresh (dom m).
Proof.
  intros Heq. pose proof (is_fresh (dom (<[fresh (dom m) := x]> m))) as Hf.
  rewrite Heq in Hf. apply Hf. rewrite dom_insert_L. set_solver.
Qed.

(** The two maps [getNodeResource] allocates and fills leave every map
    that existed as it was. *)
Lemma new_maps_extend (m : gmap loc (gmap string Z)) (f g : gmap string Z → gmap string Z) :
  let l1 := fresh (dom m) in
  let l2 := fresh (dom (<[l1 := ∅]> m)) in
  m ⊆ alter f l2 (alter g l1 (<[l2 := ∅]> (<[l1 := ∅]> m))).
Proof.
  intros l1 l2. apply map_subseteq_spec. intros l x Hl.
  assert (l1 ≠ l) as H1 by (intros <-; unfold l1 in Hl; by rewrite fresh_lookup in Hl).
  assert (l2 ≠ l) as H2.
  { intros <-. pose proof (fresh_lookup (<[l1:=∅]> m)) as Hf. fold l2 in Hf.
    rewrite lookup_insert_ne in Hf by done. congruence. }
  by rewrite !lookup_alter_ne, !lookup_insert_ne.
Qed.

(** X5.  On nodes none of which is nil, [getNodeResource] returns two maps
    that did not exist before and are different from one another; each
    holds exactly the entries [cpu] and [memory], the sums over the nodes
    of the capacities and of the allocatable amounts, a node without the
    entry counting for zero (on no node at all both are zero); no other map
    and no status struct is touched. *)
Theorem getNodeResource_sums_into_new_maps
        (nodes : list (option corev1.Node)) (h : Heap) :
  None ∉ nodes →
  ∃ capacity allocatable h',
    getNodeResource nodes h = (Ok (capacity, allocatable), h')
    ∧ capacity ≠ allocatable
    ∧ lists h !! capacity = None
    ∧ lists h !! allocatable = None
    ∧ lists h' !! capacity
      = Some (resourceList (sumOf capacityCpu nodes) (sumOf capacityMem nodes))
    ∧ lists h' !! allocatable
      = Some (resourceList (sumOf allocatableCpu nodes) (sumOf allocatableMem nodes))
    ∧ statuses h' = statuses h
    ∧ ∀ l, l ≠ capacity → l ≠ allocatable → lists h' !! l = lists h !! l.
Proof.
  intros Hnil. unfold getNodeResource. cbn [allocList lists statuses].
  rewrite getNodeResource_loop_spec by done. rewrite !Z.add_0_l.
  set (l1 := fresh (dom (lists h))).
  set (l2 := fresh (dom (<[l1:=∅]> (lists h)))).
  assert (l2 ≠ l1) as Hne by apply fresh_fresh.
  assert (lists h !! l1 = None) as Hl1 by apply fresh_lookup.
  assert (lists h !! l2 = None) as Hl2.
  { pose proof (fresh_lookup (<[l1:=∅]> (lists h))) as Hf. fold l2 in Hf.
    by rewrite lookup_insert_ne in Hf. }
  exists l1, l2. eexists. split; [done|]. cbn [lists statuses].
  split; [done|]. split; [done|]. split; [done|]. split.
  { rewrite lookup_alter_ne, lookup_alter_eq by done.
    by rewrite lookup_insert_ne, lookup_insert_eq. }
  split.
  { rewrite lookup_alter_eq, lookup_alter_ne by done. by rewrite lookup_insert_eq. }
  split; [done|]. intros l Hc Ha.
  by rewrite !lookup_alter_ne, !lookup_insert_ne.
Qed.

(** X6.  The totals do not depend on the order in which the nodes are
    listed: on two lists that are permutations of one another
    [getNodeResource] gives the same outcome on the same memory. *)
Theorem getNodeResource_order_independent
        (nodes nodes' : list (option corev1.Node)) (h : Heap) :
  nodes ≡ₚ nodes' → getNodeResource nodes h = getNodeResource nodes' h.
Proof.
  intros Hperm. unfold getNodeResource. cbn [allocList].
  destruct (nil_node_cases nodes) as [Hin|Hnot].
  - rewrite !getNodeResource_loop_nil; [done|by rewrite <- Hperm|done].
  - rewrite !getNodeResource_loop_spec; [|by rewrite <- Hperm|done].
    by rewrite !(sumOf_perm _ nodes nodes' Hperm).
Qed.

Section Rounds.

Variable counter_bits : Z.

(** X7.  A round of [collectingClusterStatus] completes exactly when no
    listed node pointer is nil and the version info is not nil.  Otherwise
    it panics with a nil dereference before anything is stored: the
    controller, every status struct and every map that existed are as they
    were. *)
Theorem collectingClusterStatus_completes_iff
        (o : Observed) (c : Controller) (h : Heap) :
  ((collectingClusterStatus counter_bits o c h).1 = Ok tt
   ↔ (None ∉ nodes o) ∧ clusterVersion o ≠ None)
  ∧ ((collectingClusterStatus counter_bits o c h).1 ≠ Ok tt →
     (collectingClusterStatus counter_bits o c h).1 = Panic NilDereference
     ∧ (collectingClusterStatus counter_bits o c h).2.1 = c
     ∧ statuses (collectingClusterStatus counter_bits o c h).2.2 = statuses h
     ∧ extends h (collectingClusterStatus counter_bits o c h).2.2).
Proof.
  unfold collectingClusterStatus.
  destruct (nil_node_cases (nodes o)) as [Hin|Hnot].
  - unfold getNodeStatistics. rewrite getNodeStatistics_loop_nil by done. simpl.
    split; [split; [done|by intros [? _]]|]. intros _.
    split; [done|]. split; [done|]. split; [done|apply extends_refl].
  - unfold getNodeStatistics. rewrite getNodeStatistics_loop_iter by done.
    unfold getNodeResource. cbn [allocList].
    rewrite getNodeResource_loop_spec by done.
    destruct (clusterVersion o) as [[v pf]|]; simpl.
    + split; [split; [done|by split]|]. by intros [].
    + split; [split; [done|by intros [_ []]]|]. intros _.
      split; [done|]. split; [done|]. split; [done|]. split; [done|].
      apply new_maps_extend.
Qed.

End Rounds.

(** X8.  [setClusterStatus] stores a new struct at each call: the stored
    pointer refers to a cell that did not exist before, which holds the
    argument with [LastObservedTime] set to the time of the call, whatever
    the argument held there; the struct stored before, every other struct
    and every map are as they were, and so is the configuration of the
    controller. *)
Theorem setClusterStatus_stores_new_struct
        (status : ManagedClusterStatus) (now : Z) (c : Controller) (h : Heap) :
  ∃ p, clusterStatus (setClusterStatus status now c h).1 = Some p
       ∧ statuses h !! p = None
       ∧ statuses (setClusterStatus status now c h).2 !! p
         = Some (withLastObservedTime now status)
       ∧ extends h (setClusterStatus status now c h).2
       ∧ lists (setClusterStatus status now c h).2 = lists h
       ∧ sameConfig c (setClusterStatus status now c h).1.
Proof.
  assert (∀ (m : gmap loc ManagedClusterStatus) s t,
            m ⊆ alter (withLastObservedTime t) (fresh (dom m))
                      (<[fresh (dom m) := s]> m)) as Hsub.
  { intros m s t. apply map_subseteq_spec. intros p x Hp.
    assert (fresh (dom m) ≠ p) as Hne.
    { intros <-. by rewrite fresh_lookup in Hp. }
    by rewrite lookup_alter_ne, lookup_insert_ne. }
  unfold setClusterStatus. destruct (clusterStatus c) as [p0|]; simpl.
  - eexists. split; [done|]. split; [apply fresh_lookup|].
    split; [by rewrite lookup_alter_eq, lookup_insert_eq|].
    split; [split; [apply Hsub|done]|]. by split.
  - eexists. split; [done|]. split.
    { pose proof (fresh_lookup (<[fresh (dom (statuses h)) := zeroStatus]>
                                  (statuses h))) as Hf.
      apply lookup_insert_None in Hf. tauto. }
    split; [by rewrite lookup_alter_eq, lookup_insert_eq|].
    split; [|by split]. split; [|done]. simpl.
    etrans; [apply (insert_subseteq (statuses h) (fresh (dom (statuses h)))
                      zeroStatus), fresh_lookup|].
    apply Hsub.
Qed.

(** ** The resources of the example cluster *)

Lemma getNodeResource_sums_into_new_maps_witness :
  (None ∉ exNodes)
  ∧ ∃ capacity allocatable h',
      getNodeResource exNodes emptyHeap = (Ok (capacity, allocatable), h')
      ∧ capacity ≠ allocatable
      ∧ lists h' !! capacity
        = Some (resourceList (sumOf capacityCpu exNodes) (sumOf capacityMem exNodes))
      ∧ lists h' !! allocatable
        = Some (resourceList (sumOf allocatableCpu exNodes)
                             (sumOf allocatableMem exNodes)).
Proof.
  assert (None ∉ exNodes) as Hnil.
  { apply all_Some_not_nil. repeat constructor; by eexists. }
  split; [exact Hnil|].
  destruct (getNodeResource_sums_into_new_maps exNodes emptyHeap Hnil)
    as (capacity & allocatable & h' & Hrun & Hne & _ & _ & Hc & Ha & _).
  exists capacity, allocatable, h'. repeat split; assumption.
Defined.

Example exNodes_sums :
  sumOf capacityCpu exNodes = 34 ∧ sumOf capacityMem exNodes = 136
  ∧ sumOf allocatableCpu exNodes = 29 ∧ sumOf allocatableMem exNodes = 131.
Proof. repeat split; vm_compute; reflexivity. Qed.

Lemma getNodeResource_order_independent_witness :
  exNodes ≡ₚ reverse exNodes
  ∧ getNodeResource exNodes emptyHeap = getNodeResource (reverse exNodes) emptyHeap.
Proof.
  assert (exNodes ≡ₚ reverse exNodes) as Hperm
    by (symmetry; apply reverse_Permutation).
  split; [exact Hperm|].
  exact (getNodeResource_order_independent exNodes (reverse exNodes) emptyHeap Hperm).
Defined.

End StoreSpec.

(** * Further properties of the shadow API installer *)

Module InstallerOutcomes.

Import apiserver ShadowSpec.

(** The version-enumeration handlers among web services. *)
Definition groupHandlers (ws : list WebService) : list APIGroup.t :=
  omap (λ w, match w with GroupWS g => Some g | VersionWS _ => None end) ws.

Lemma groupHandlers_app ws1 ws2 :
  groupHandlers (ws1 ++ ws2) = groupHandlers ws1 ++ groupHandlers ws2.
Proof. apply omap_app. Qed.

Lemma groupHandlers_routes {A} (f : A → APIGroupVersion.t) l :
  groupHandlers ((λ x, VersionWS (f x)) <$> l) = [].
Proof. induction l as [|x l IH]; [done|]. simpl. apply IH. Qed.

(** ** How many keys a loop of map assignments leaves *)

Lemma assignAll_size {A V} (key : A → string) (val : A → V) l : ∀ m,
  (size (assignAll key val m l) ≤ size m + length l)%nat.
Proof.
  induction l as [|x l IH]; intros m; simpl; [lia|].
  etrans; [apply IH|]. rewrite map_size_insert. destruct (m !! _); simpl; lia.
Qed.

(** Every assignment adds a key exactly when the keys assigned are
    pairwise distinct and new to the map. *)
Lemma assignAll_size_full {A V} (key : A → string) (val : A → V) l : ∀ m,
  size (assignAll key val m l) = (size m + length l)%nat
  ↔ NoDup (key <$> l) ∧ ∀ x, x ∈ l → m !! key x = None.
Proof.
  induction l as [|x l IH]; intros m.
  - simpl. split; [intros _|lia]. split; [constructor|].
    by intros x Hx%not_elem_of_nil.
  - pose proof (assignAll_size key val l (<[key x := val x]> m)) as Hle.
    rewrite fmap_cons, NoDup_cons.
    change (assignAll key val m (x :: l))
      with (assignAll key val (<[key x := val x]> m) l).
    simpl length. split.
    + intros Heq. rewrite map_size_insert in Hle.
      destruct (m !! key x) as [a|] eqn:Hx; simpl in Hle; [lia|].
      assert (size (assignAll key val (<[key x := val x]> m) l)
              = (size (<[key x := val x]> m) + length l)%nat) as Heq'
        by (rewrite map_size_insert_None by done; lia).
      apply IH in Heq' as [Hnd Hnew].
      assert (∀ y, y ∈ l → key y ≠ key x) as Hne.
      { intros y Hy Hk. specialize (Hnew y Hy).
        by rewrite Hk, lookup_insert_eq in Hnew. }
      split; [split; [|done]|].
      * intros (y & Hk & Hy)%list_elem_of_fmap. by destruct (Hne y Hy).
      * intros y [->|Hy]%elem_of_cons; [done|]. specialize (Hnew y Hy).
        by rewrite lookup_insert_ne in Hnew by (apply not_eq_sym, Hne, Hy).
    + intros [[Hx Hnd] Hnew].
      rewrite (proj2 (IH _)).
      * rewrite map_size_insert_None; [lia|]. apply Hnew. by left.
      * split; [done|]. intros y Hy. rewrite lookup_insert_ne; [apply Hnew; by right|].
        intros Hk. apply Hx. apply list_elem_of_fmap. by exists y.
Qed.

Lemma NoDup_fmap_elem_inj {A B} (f : A → B) (l : list A) x y :
  NoDup (f <$> l) → x ∈ l → y ∈ l → f x = f y → x = y.
Proof.
  intros Hnd [i Hi]%list_elem_of_lookup_1 [j Hj]%list_elem_of_lookup_1 Hf.
  assert (i = j) as ->.
  { apply (NoDup_lookup (f <$> l) i j (f x) Hnd).
    - by rewrite list_lookup_fmap, Hi.
    - by rewrite list_lookup_fmap, Hj, Hf. }
  congruence.
Qed.

Section Outcomes.

Context {external : External}.

(** The web service of one prioritized version of a descriptor. *)
Definition routeOf (ss : ShadowAPIServer) (prefix : string) (info : APIGroupInfo.t)
           (gv : GroupVersion.t) : WebService :=
  VersionWS (preparedVersion ss prefix info gv).

(** What a descriptor adds to the container when its installation
    succeeds: the web services of its versions that have resources, then
    its version-enumeration handler. *)
Definition published (ss : ShadowAPIServer) (info : APIGroupInfo.t)
  : list WebService :=
  (routeOf ss APIGroupPrefix info
     <$> filter (hasResources info) (APIGroupInfo.PrioritizedVersions info))
  ++ from_option (λ e, [GroupWS e]) [] (entryOf info).

(** ** The storage map of a group-version *)

Lemma lowerKeys_is_Some entries k :
  is_Some (lowerKeys entries !! k) ↔ ∃ kv, kv ∈ entries ∧ ToLower kv.1 = k.
Proof.
  rewrite lowerKeys_lookup.
  destruct (lastWriter _ k entries) as [kv|] eqn:Hl; simpl.
  - apply lastWriter_Some in Hl as [Hin Hk]. split; [|by eexists].
    intros _. by exists kv.
  - rewrite lastWriter_None in Hl. split; [by intros [? ?]|].
    intros (kv & Hin & Hk). by destruct (Hl kv Hin).
Qed.

Lemma lowerKeys_Some entries k a :
  lowerKeys entries !! k = Some a → ∃ k0, (k0, a) ∈ entries ∧ ToLower k0 = k.
Proof.
  rewrite lowerKeys_lookup.
  destruct (lastWriter _ k entries) as [[k0 a0]|] eqn:Hl; simpl; [|done].
  intros [= <-]. apply lastWriter_Some in Hl as [Hin Hk]. by exists k0.
Qed.

Lemma lowerKeys_assignAll entries :
  lowerKeys entries = assignAll (λ kv : string * REST.t, ToLower kv.1) snd ∅ entries.
Proof. done. Qed.

Lemma range_order_elem (m : gmap string REST.t) k a :
  (k, a) ∈ range_order m ↔ m !! k = Some a.
Proof. by rewrite range_order_perm, elem_of_map_to_list. Qed.

Lemma range_order_length (m : gmap string REST.t) :
  length (range_order m) = size m.
Proof. by rewrite range_order_perm, length_map_to_list. Qed.

(** X9.  The group-version [getAPIGroupVersion] builds carries the given
    group-version and prefix, and its storage map holds the entries of the
    descriptor's map for that version under lower-cased keys: a key is
    present exactly when it is the lower-cased form of a key of the
    descriptor's map, every entry is an entry of the descriptor's map
    under a key with that lower-cased form, and the map is never larger
    than the descriptor's (a version the descriptor has no map for gives
    an empty one). *)
Theorem getAPIGroupVersion_lowercases_keys
        (ss : ShadowAPIServer) (info : APIGroupInfo.t) (gv : GroupVersion.t)
        (prefix : string) :
  let source := storageOf info (GroupVersion.Version gv) in
  let v := getAPIGroupVersion ss info gv prefix in
  APIGroupVersion.GroupVersion v = gv
  ∧ APIGroupVersion.Root v = prefix
  ∧ (∀ k, is_Some (APIGroupVersion.Storage v !! k)
          ↔ ∃ k0, is_Some (source !! k0) ∧ ToLower k0 = k)
  ∧ (∀ k a, APIGroupVersion.Storage v !! k = Some a →
            ∃ k0, source !! k0 = Some a ∧ ToLower k0 = k)
  ∧ (size (APIGroupVersion.Storage v) ≤ size source)%nat
  ∧ (APIGroupInfo.VersionedResourcesStorageMap info !! GroupVersion.Version gv = None →
     APIGroupVersion.Storage v = ∅).
Proof.
  simpl. split; [done|]. split; [done|]. split; [|split; [|split]].
  - intros k. rewrite lowerKeys_is_Some. split.
    + intros ([k0 a] & Hin & Hk). apply range_order_elem in Hin. exists k0.
      by split; [eexists|].
    + intros (k0 & [a Ha] & Hk). exists (k0, a). by rewrite range_order_elem.
  - intros k a (k0 & Hin & Hk)%lowerKeys_Some. apply range_order_elem in Hin.
    by exists k0.
  - rewrite lowerKeys_assignAll. etrans; [apply assignAll_size|].
    by rewrite map_size_empty, range_order_length.
  - intros Hnone. apply map_size_empty_inv.
    assert (size (lowerKeys (range_order
              (storageOf info (GroupVersion.Version gv)))) ≤ 0)%nat; [|lia].
    rewrite lowerKeys_assignAll. etrans; [apply assignAll_size|].
    rewrite map_size_empty, range_order_length. unfold storageOf.
    rewrite Hnone. simpl. by rewrite map_size_empty.
Qed.

(** X10.  When no two keys of the descriptor's map for the version have
    the same lower-cased form, [getAPIGroupVersion] loses nothing and does
    not depend on the order in which the map is ranged over: every entry
    is found under its lower-cased key and the two maps have the same
    size; when the keys are in lower case already, the storage map is the
    descriptor's map. *)
Theorem getAPIGroupVersion_without_collisions
        (ss : ShadowAPIServer) (info : APIGroupInfo.t) (gv : GroupVersion.t)
        (prefix : string) :
  let source := storageOf info (GroupVersion.Version gv) in
  let v := getAPIGroupVersion ss info gv prefix in
  (∀ k1 k2, is_Some (source !! k1) → is_Some (source !! k2) →
            ToLower k1 = ToLower k2 → k1 = k2) →
  (∀ k0 a, source !! k0 = Some a →
           APIGroupVersion.Storage v !! ToLower k0 = Some a)
  ∧ size (APIGroupVersion.Storage v) = size source
  ∧ ((∀ k0, is_Some (source !! k0) → ToLower k0 = k0) →
     APIGroupVersion.Storage v = source).
Proof.
  simpl. set (source := storageOf info (GroupVersion.Version gv)). intros Hinj.
  assert (∀ k0 a, source !! k0 = Some a →
            lowerKeys (range_order source) !! ToLower k0 = Some a) as Hfound.
  { intros k0 a Ha.
    destruct (proj2 (lowerKeys_is_Some (range_order source) (ToLower k0)))
      as [a' Ha'].
    { exists (k0, a). by rewrite range_order_elem. }
    rewrite Ha'. f_equal.
    apply lowerKeys_Some in Ha' as (k1 & Hin & Hk). apply range_order_elem in Hin.
    assert (k1 = k0) as -> by (apply Hinj; by eauto). congruence. }
  split; [done|]. split.
  - rewrite lowerKeys_assignAll, (proj2 (assignAll_size_full _ _ _ _)).
    + by rewrite map_size_empty, range_order_length.
    + split; [|done]. apply NoDup_fmap_2_strong.
      * intros [k1 a1] [k2 a2] H1%range_order_elem H2%range_order_elem Hk.
        simpl in Hk. assert (k1 = k2) as -> by (apply Hinj; by eauto). congruence.
      * rewrite range_order_perm. apply NoDup_map_to_list.
  - intros Hlow. apply map_eq. intros k.
    destruct (source !! k) as [a|] eqn:Hk.
    + rewrite <- (Hlow k) by by eexists. by apply Hfound.
    + destruct (lowerKeys (range_order source) !! k) as [a|] eqn:Hl; [|done].
      apply lowerKeys_Some in Hl as (k0 & Hin & Hk0).
      apply range_order_elem in Hin. rewrite Hlow in Hk0 by by eexists.
      congruence.
Qed.

(** ** [installAPIResources] *)

(** X11.  [installAPIResources] installs the prioritized versions that
    have resources, in their order, and stops at the first one whose
    installation fails: every version before it was accepted by the route
    installer, the versions after it are not handed to the route
    installer, the error returned wraps the descriptor and the installer's
    error, and nothing is recorded in the storage-version registry, with
    the feature gates enabled too.  When it succeeds, every prioritized
    version that has resources has been installed and accepted by the
    route installer.  It never panics and never touches the scheme or the
    discovery index. *)
Theorem installAPIResources_stops_at_first_failure
        (ss : ShadowAPIServer) (prefix : string) (info : APIGroupInfo.t)
        (st : ServerState) :
  Scheme (installAPIResources ss prefix info st).2 = Scheme st
  ∧ DiscoveryGroupManager (installAPIResources ss prefix info st).2
    = DiscoveryGroupManager st
  ∧ match (installAPIResources ss prefix info st).1 with
    | Ok _ =>
        (∃ rs, installerReturns ss prefix info (GoRestfulContainer st)
                 (filter (hasResources info)
                         (APIGroupInfo.PrioritizedVersions info)) rs)
        ∧ GoRestfulContainer (installAPIResources ss prefix info st).2
          = GoRestfulContainer st
              ++ (routeOf ss prefix info
                    <$> filter (hasResources info)
                               (APIGroupInfo.PrioritizedVersions info))
    | Err e =>
        ∃ before gv after err rs,
          filter (hasResources info) (APIGroupInfo.PrioritizedVersions info)
          = before ++ gv :: after
          ∧ installerReturns ss prefix info (GoRestfulContainer st) before rs
          ∧ InstallREST_returns
              (GoRestfulContainer st ++ (routeOf ss prefix info <$> before))
              (preparedVersion ss prefix info gv) = inl err
          ∧ e = UnableToSetup info err
          ∧ GoRestfulContainer (installAPIResources ss prefix info st).2
            = GoRestfulContainer st ++ (routeOf ss prefix info <$> before ++ [gv])
          ∧ StorageVersionManager (installAPIResources ss prefix info st).2
            = StorageVersionManager st
    | Panic _ => False
    end.
Proof.
  rewrite installAPIResources_spec.
  pose proof (installVersions_frame ss prefix info
                (APIGroupInfo.PrioritizedVersions info) [] st)
    as (HS & HD & HV & _).
  pose proof (installVersions_run ss prefix info
                (APIGroupInfo.PrioritizedVersions info) [] st) as Hout.
  destruct (installVersions _ _ _ _ _ _) as [[infos|e|p] st1]; simpl in *.
  - destruct (recorded_frame infos st1) as (-> & -> & ->).
    destruct Hout as (rs & Hrs & _ & Hc). split; [done|]. split; [done|].
    split; [by exists rs|done].
  - split; [done|]. split; [done|].
    destruct Hout as (before & gv & after & err & rs & H1 & H2 & H3 & H4 & H5).
    exists before, gv, after, err, rs.
    split; [exact H1|]. split; [exact H2|]. split; [exact H3|].
    split; [exact H4|]. split; [exact H5|exact HV].
  - done.
Qed.

(** X12.  Every group-version [installAPIResources] hands to the route
    installer is one of the descriptor's prioritized versions that has
    resources, under the given prefix, with the server's limit on the
    request body and the descriptor's options version, nil included; its
    minimal request timeout is the server's number of seconds in
    nanoseconds, provided that fits 64 bits. *)
Theorem installAPIResources_configures_versions
        (ss : ShadowAPIServer) (prefix : string) (info : APIGroupInfo.t)
        (st : ServerState) (v : APIGroupVersion.t) :
  VersionWS v ∈ GoRestfulContainer (installAPIResources ss prefix info st).2 →
  VersionWS v ∉ GoRestfulContainer st →
  (∃ gv, gv ∈ APIGroupInfo.PrioritizedVersions info
         ∧ hasResources info gv
         ∧ APIGroupVersion.GroupVersion v = gv)
  ∧ APIGroupVersion.Root v = prefix
  ∧ APIGroupVersion.MaxRequestBodyBytes v = maxRequestBodyBytes ss
  ∧ APIGroupVersion.OptionsExternalVersion v
    = APIGroupInfo.OptionsExternalVersion info
  ∧ (-9223372036 ≤ minRequestTimeout ss ≤ 9223372036 →
     APIGroupVersion.MinRequestTimeout v = minRequestTimeout ss * 1000000000).
Proof.
  rewrite installAPIResources_spec.
  pose proof (installVersions_frame ss prefix info
                (APIGroupInfo.PrioritizedVersions info) [] st)
    as (_ & _ & _ & gvs & HC & Hgvs & _).
  assert (GoRestfulContainer
            match installVersions ss prefix info
                    (APIGroupInfo.PrioritizedVersions info) [] st with
            | (Ok infos, st1) => (Ok tt, recorded infos st1)
            | (Err e, st1) => (Err e, st1)
            | (Panic p, st1) => (Panic p, st1)
            end.2
          = GoRestfulContainer
              (installVersions ss prefix info
                 (APIGroupInfo.PrioritizedVersions info) [] st).2) as ->.
  { destruct (installVersions _ _ _ _ _ _) as [[infos|e|p] st1]; simpl; try done.
    by destruct (recorded_frame infos st1) as (_ & -> & _). }
  rewrite HC. intros Hin Hnew.
  apply elem_of_app in Hin as [Hin|Hin]; [done|].
  apply list_elem_of_fmap in Hin as (gv & [= ->] & Hgv).
  destruct (Hgvs gv Hgv) as [Hpv Hres].
  split; [by exists gv|]. split; [done|]. split; [done|]. split.
  { simpl. by destruct (APIGroupInfo.OptionsExternalVersion info). }
  intros Hfit. simpl. rewrite !ClusterStatusSpec.wrap_id; [done|lia|].
  rewrite ClusterStatusSpec.wrap_id by lia. lia.
Qed.

(** ** [installAPIGroups] *)

Lemma installGroup_cases ss info st :
  wellFormed info →
  Scheme (installGroup ss info st).2 = Scheme st
  ∧ (∃ ws, GoRestfulContainer (installGroup ss info st).2
           = GoRestfulContainer st ++ ws
           ∧ DiscoveryGroupManager (installGroup ss info st).2
             = DiscoveryGroupManager st ++ groupHandlers ws
           ∧ ((installGroup ss info st).1 = Ok tt → ws = published ss info))
  ∧ match (installGroup ss info st).1 with
    | Ok _ =>
        length (StorageVersionManager (installGroup ss info st).2)
        = (length (StorageVersionManager st) + if bothEnabled then 1 else 0)%nat
    | Err e => ∃ err, e = UnableToInstall (UnableToSetup info err)
    | Panic _ => False
    end.
Proof.
  intros (v & Hv & _). rewrite (installGroup_spec ss info st v Hv).
  pose proof (installVersions_run ss APIGroupPrefix info
                (APIGroupInfo.PrioritizedVersions info) [] st) as Hout.
  pose proof (installVersions_frame ss APIGroupPrefix info
                (APIGroupInfo.PrioritizedVersions info) [] st)
    as (HS & HD & HV & _).
  rewrite installAPIResources_spec.
  destruct (installVersions _ _ _ _ _ _) as [[infos|e|p] st1]; simpl in *.
  - destruct (recorded_frame infos st1) as (-> & -> & ->).
    destruct Hout as (_ & _ & _ & Hout).
    split; [done|]. split.
    + eexists. split; [by rewrite Hout, <- app_assoc|]. split.
      * rewrite HD, groupHandlers_app.
        unfold routeOf. by rewrite groupHandlers_routes.
      * intros _. unfold published, entryOf. by rewrite Hv.
    + unfold recorded. destruct bothEnabled; simpl.
      * rewrite length_app, HV. simpl. lia.
      * rewrite HV. lia.
  - destruct Hout as (before & gv & after & err & _ & _ & _ & _ & -> & Hc).
    split; [done|]. split; [|by exists err].
    eexists. split; [exact Hc|]. split; [|done].
    unfold routeOf. by rewrite HD, groupHandlers_routes, app_nil_r.
  - done.
Qed.

Lemma installGroups_cases ss infos :
  Forall wellFormed infos → ∀ st,
  Scheme (installGroups ss infos st).2 = Scheme st
  ∧ (∃ ws, GoRestfulContainer (installGroups ss infos st).2
           = GoRestfulContainer st ++ ws
           ∧ DiscoveryGroupManager (installGroups ss infos st).2
             = DiscoveryGroupManager st ++ groupHandlers ws
           ∧ ((installGroups ss infos st).1 = Ok tt → ws = infos ≫= published ss))
  ∧ match (installGroups ss infos st).1 with
    | Ok _ =>
        length (StorageVersionManager (installGroups ss infos st).2)
        = (length (StorageVersionManager st)
           + if bothEnabled then length infos else 0)%nat
    | Err e => ∃ info err, info ∈ infos
                           ∧ e = UnableToInstall (UnableToSetup info err)
    | Panic _ => False
    end.
Proof.
  induction 1 as [|info infos Hwf _ IH]; intros st; simpl.
  - split; [done|]. split.
    + exists []. by rewrite !app_nil_r.
    + destruct bothEnabled; lia.
  - unfold bind.
    destruct (installGroup_cases ss info st Hwf)
      as (HS & (ws & HC & HD & Hws) & Hout).
    destruct (installGroup ss info st) as [[[]|e|p] st1]; simpl in *.
    + destruct (IH st1) as (HS' & (ws' & HC' & HD' & Hws') & Hout').
      split; [congruence|]. split.
      * exists (ws ++ ws'). rewrite HC', HC, HD', HD, groupHandlers_app.
        rewrite <- !app_assoc. split; [done|]. split; [done|].
        intros Hok. by rewrite Hws, Hws'.
      * destruct (installGroups ss infos st1) as [[[]|e|p] st2]; simpl in *.
        -- rewrite Hout', Hout. destruct bothEnabled; lia.
        -- destruct Hout' as (i & err & Hin & ->). exists i, err.
           split; [by right|done].
        -- done.
    + split; [done|]. split; [by exists ws|].
      destruct Hout as [err ->]. exists info, err. split; [by left|done].
    + done.
Qed.

(** X13.  The outcomes of [installAPIGroups].  It returns nil only if
    every descriptor has a first prioritized version with a group and a
    version.  An error it returns is the validation error of a descriptor
    of the batch, with the server left as it was, or, on a batch that
    passed validation, the wrapped error of the route installer for a
    descriptor of the batch.  It panics only on a descriptor without
    prioritized versions, with an index out of range and the server left
    as it was. *)
Theorem installAPIGroups_outcomes
        (ss : ShadowAPIServer) (infos : list APIGroupInfo.t) (st : ServerState) :
  match (installAPIGroups ss infos st).1 with
  | Ok _ => Forall wellFormed infos
  | Err e =>
      (∃ info, info ∈ infos ∧ malformed info
               ∧ (e = EmptyGroup info ∨ e = EmptyVersion info)
               ∧ (installAPIGroups ss infos st).2 = st)
      ∨ (Forall wellFormed infos
         ∧ ∃ info err, info ∈ infos
                       ∧ e = UnableToInstall (UnableToSetup info err))
  | Panic p =>
      p = IndexOutOfRange
      ∧ (∃ info, info ∈ infos ∧ APIGroupInfo.PrioritizedVersions info = [])
      ∧ (installAPIGroups ss infos st).2 = st
  end.
Proof.
  unfold installAPIGroups, bind.
  destruct (validateGroups_cases infos st) as [Hst Hcases].
  destruct (validateGroups infos st) as [[[]|e|p] st1]; simpl in *; subst st1.
  - destruct (installGroups_cases ss infos Hcases st) as (_ & _ & Hout).
    destruct (installGroups ss infos st) as [[[]|e|p] st2]; simpl in *;
      [done| |done].
    right. by split.
  - left. destruct Hcases as (info & Hin & Hm & He). by exists info.
  - destruct Hcases as (-> & info & Hin & Hnil). split; [done|].
    split; [by exists info|done].
Qed.

(** X14.  Validation goes through the batch in order and reports the first
    descriptor it cannot accept, the group being checked before the
    version: after descriptors that pass, a descriptor whose first
    prioritized version has an empty group makes [installAPIGroups] return
    the empty-group error for it, one with a group and an empty version
    the empty-version error for it, whatever follows in the batch, and
    the server is left as it was. *)
Theorem installAPIGroups_reports_first_malformed
        (ss : ShadowAPIServer) (pre post : list APIGroupInfo.t)
        (info : APIGroupInfo.t) (v : GroupVersion.t) (st : ServerState) :
  Forall wellFormed pre →
  head (APIGroupInfo.PrioritizedVersions info) = Some v →
  GroupVersion.Group v = "" ∨ GroupVersion.Version v = "" →
  installAPIGroups ss (pre ++ info :: post) st
  = (Err (if decide (GroupVersion.Group v = "") then EmptyGroup info
          else EmptyVersion info), st).
Proof.
  intros Hpre Hv Hbad. unfold installAPIGroups, bind.
  rewrite validateGroups_app by done. simpl. unfold bind, index0.
  destruct (APIGroupInfo.PrioritizedVersions info) as [|v' vs]; [done|].
  simpl in Hv. injection Hv as ->. simpl.
  case_decide as Hg.
  - apply len_zero in Hg. by rewrite Hg.
  - apply len_nonzero in Hg. rewrite Hg. simpl.
    destruct Hbad as [Hbad|Hbad]; [by apply len_nonzero in Hg|].
    apply len_zero in Hbad. by rewrite Hbad.
Qed.

(** X15.  Whatever its outcome, [installAPIGroups] leaves the scheme as it
    was and only adds to the container and to the discovery index, and
    the two agree: the groups it has added to the discovery index are the
    groups whose version-enumeration handlers it has added to the
    container, in the same order. *)
Theorem installAPIGroups_discovery_matches_handlers
        (ss : ShadowAPIServer) (infos : list APIGroupInfo.t) (st : ServerState) :
  Scheme (installAPIGroups ss infos st).2 = Scheme st
  ∧ ∃ ws, GoRestfulContainer (installAPIGroups ss infos st).2
          = GoRestfulContainer st ++ ws
          ∧ DiscoveryGroupManager (installAPIGroups ss infos st).2
            = DiscoveryGroupManager st ++ groupHandlers ws.
Proof.
  unfold installAPIGroups, bind.
  destruct (validateGroups_cases infos st) as [Hst Hcases].
  destruct (validateGroups infos st) as [[[]|e|p] st1]; simpl in *; subst st1;
    [|split; [done|]; exists []; by rewrite !app_nil_r..].
  destruct (installGroups_cases ss infos Hcases st)
    as (HS & (ws & HC & HD & _) & _).
  split; [done|]. by exists ws.
Qed.

(** X16.  When [installAPIGroups] returns nil, the container has gained,
    for each descriptor in the order of the batch, the web services of its
    prioritized versions that have resources, in their order, followed by
    its version-enumeration handler; the discovery index has gained the
    entry of each descriptor; and the storage-version registry has been
    handed one record for each descriptor if both feature gates are
    enabled, none otherwise. *)
Theorem installAPIGroups_success_layout
        (ss : ShadowAPIServer) (infos : list APIGroupInfo.t) (st : ServerState) :
  (installAPIGroups ss infos st).1 = Ok tt →
  GoRestfulContainer (installAPIGroups ss infos st).2
  = GoRestfulContainer st ++ (infos ≫= published ss)
  ∧ DiscoveryGroupManager (installAPIGroups ss infos st).2
    = DiscoveryGroupManager st ++ omap entryOf infos
  ∧ length (StorageVersionManager (installAPIGroups ss infos st).2)
    = (length (StorageVersionManager st)
       + if Enabled StorageVersionAPI && Enabled APIServerIdentity
         then length infos else 0)%nat.
Proof.
  unfold installAPIGroups, bind.
  destruct (validateGroups_cases infos st) as [Hst Hcases].
  destruct (validateGroups infos st) as [[[]|e|p] st1]; simpl in *; subst st1;
    [|done..].
  intros Hok.
  destruct (installGroups_cases ss infos Hcases st)
    as (_ & (ws & HC & HD & Hws) & Hout).
  destruct (installGroups_entries ss infos Hcases st) as (n & Hn & Hlen).
  rewrite Hok in Hout. rewrite HC, (Hws Hok). split; [done|]. split; [|done].
  rewrite Hn, (Hlen Hok). by rewrite firstn_all.
Qed.

(** ** [InstallShadowAPIGroups] *)

(** The discovery entry of the shadow group, advertising [versions]. *)
Definition shadowEntry (versions : list GroupVersion.t) : APIGroup.t :=
  {| APIGroup.Name := shadowapi.GroupName;
     APIGroup.Versions := toDiscovery <$> versions;
     APIGroup.PreferredVersion := toDiscovery shadowGV |}.

Lemma mirrored_nil groups :
  (∀ g, g ∈ groups → excluded g ∨ resourcesOf g (preferredVersion g) = []) →
  mirrored groups = [].
Proof.
  intros Hno. destruct (mirrored groups) as [|x l] eqn:Hm; [done|].
  assert (x ∈ mirrored groups) as Hx by (rewrite Hm; by left).
  apply elem_of_mirrored in Hx as (g & Hg & Hne & _ & _ & Hr).
  destruct (Hno g Hg) as [Hex|Hnil]; [done|].
  rewrite Hnil in Hr. by apply not_elem_of_nil in Hr.
Qed.

Lemma mirrored_cons groups g r :
  g ∈ groups → ¬ excluded g → r ∈ resourcesOf g (preferredVersion g) →
  mirrored groups ≠ [].
Proof.
  intros Hg Hne Hr Hnil.
  assert ({| fromGroup := groupName g; fromVersion := preferredVersion g;
             resource := r |} ∈ mirrored groups) as Hx.
  { apply elem_of_mirrored. exists g. by repeat split. }
  rewrite Hnil in Hx. by apply not_elem_of_nil in Hx.
Qed.

Lemma shadowEntry_empty groups st :
  mirrored groups = [] →
  discoveryEntry (shadowInfo groups st) shadowGV = shadowEntry [].
Proof.
  intros Hm. unfold discoveryEntry, shadowEntry, advertised. f_equal.
  change (APIGroupInfo.PrioritizedVersions (shadowInfo groups st)) with [shadowGV].
  rewrite filter_cons, decide_False; [done|].
  unfold hasResources. rewrite (shadowInfo_storage groups st).
  apply shadowStorage_empty in Hm. rewrite Hm, map_size_empty. lia.
Qed.

Lemma shadowEntry_one groups st :
  mirrored groups ≠ [] →
  discoveryEntry (shadowInfo groups st) shadowGV = shadowEntry [shadowGV].
Proof.
  intros Hm. unfold discoveryEntry, shadowEntry, advertised. f_equal.
  change (APIGroupInfo.PrioritizedVersions (shadowInfo groups st)) with [shadowGV].
  rewrite filter_cons, decide_True; [done|].
  unfold hasResources. rewrite (shadowInfo_storage groups st).
  destruct (size (shadowStorage groups)) eqn:Hsz; [|lia].
  by apply map_size_empty_iff, shadowStorage_empty in Hsz.
Qed.

(** X17.  With nothing to mirror (no group discovered, or every group
    excluded or without resources under its preferred version),
    [InstallShadowAPIGroups] returns nil without calling the route
    installer: nothing is registered with the scheme, and the shadow group
    is still published, by a version-enumeration handler and a discovery
    entry that names its preferred version and advertises no version at
    all; with both feature gates enabled the storage-version registry is
    handed one empty record. *)
Theorem InstallShadowAPIGroups_nothing_to_mirror
        (ss : ShadowAPIServer) (cl : DiscoveryInterface)
        (groups : list APIGroupResources.t) (st : ServerState) :
  GetAPIGroupResources cl = inr groups →
  (∀ g, g ∈ groups → excluded g ∨ resourcesOf g (preferredVersion g) = []) →
  (InstallShadowAPIGroups ss cl st).1 = Ok tt
  ∧ Scheme (InstallShadowAPIGroups ss cl st).2 = Scheme st
  ∧ GoRestfulContainer (InstallShadowAPIGroups ss cl st).2
    = GoRestfulContainer st ++ [GroupWS (shadowEntry [])]
  ∧ DiscoveryGroupManager (InstallShadowAPIGroups ss cl st).2
    = DiscoveryGroupManager st ++ [shadowEntry []]
  ∧ StorageVersionManager (InstallShadowAPIGroups ss cl st).2
    = if Enabled StorageVersionAPI && Enabled APIServerIdentity
      then StorageVersionManager st ++ [[]]
      else StorageVersionManager st.
Proof.
  intros Hcl Hno. pose proof (mirrored_nil groups Hno) as Hm.
  rewrite (InstallShadowAPIGroups_outcome ss cl groups st Hcl).
  rewrite decide_True by done. rewrite (shadowEntry_empty groups st Hm).
  unfold recorded, bothEnabled. rewrite Hm. simpl.
  destruct (Enabled StorageVersionAPI && Enabled APIServerIdentity); simpl;
    by rewrite app_nil_r.
Qed.

(** X18.  When there is something to mirror and the route installer
    fails, [InstallShadowAPIGroups] returns the installer's error wrapped
    twice, around the descriptor of the shadow group; the kinds it has
    registered with the scheme stay registered, and the shadow group is
    not published: no discovery entry, no version-enumeration handler and
    no record in the storage-version registry. *)
Theorem InstallShadowAPIGroups_installer_failure
        (ss : ShadowAPIServer) (cl : DiscoveryInterface)
        (groups : list APIGroupResources.t) (st : ServerState)
        (g : APIGroupResources.t) (r : APIResource.t) (err : error) :
  GetAPIGroupResources cl = inr groups →
  g ∈ groups → ¬ excluded g → r ∈ resourcesOf g (preferredVersion g) →
  InstallREST_returns (GoRestfulContainer st) (shadowRoutes ss groups st) = inl err →
  (InstallShadowAPIGroups ss cl st).1
  = Err (UnableToInstall (UnableToSetup (shadowInfo groups st) err))
  ∧ Scheme (InstallShadowAPIGroups ss cl st).2
    = Scheme st ++ (kindOf <$> mirrored groups)
  ∧ GoRestfulContainer (InstallShadowAPIGroups ss cl st).2
    = GoRestfulContainer st ++ [VersionWS (shadowRoutes ss groups st)]
  ∧ DiscoveryGroupManager (InstallShadowAPIGroups ss cl st).2
    = DiscoveryGroupManager st
  ∧ StorageVersionManager (InstallShadowAPIGroups ss cl st).2
    = StorageVersionManager st.
Proof.
  intros Hcl Hg Hne Hr Herr.
  pose proof (mirrored_cons groups g r Hg Hne Hr) as Hm.
  rewrite (InstallShadowAPIGroups_outcome ss cl groups st Hcl).
  rewrite decide_False by done. by rewrite Herr.
Qed.

(** X19.  When there is something to mirror and the route installer
    succeeds, [InstallShadowAPIGroups] returns nil; it has handed one
    group-version to the route installer and then published the shadow
    group, by a version-enumeration handler and a discovery entry that
    advertise the one shadow version; with both feature gates enabled the
    storage-version registry is handed the resource infos the installer
    returned, as one record. *)
Theorem InstallShadowAPIGroups_success
        (ss : ShadowAPIServer) (cl : DiscoveryInterface)
        (groups : list APIGroupResources.t) (st : ServerState)
        (g : APIGroupResources.t) (r : APIResource.t)
        (infos : list ResourceInfo.t) :
  GetAPIGroupResources cl = inr groups →
  g ∈ groups → ¬ excluded g → r ∈ resourcesOf g (preferredVersion g) →
  InstallREST_returns (GoRestfulContainer st) (shadowRoutes ss groups st)
  = inr infos →
  (InstallShadowAPIGroups ss cl st).1 = Ok tt
  ∧ GoRestfulContainer (InstallShadowAPIGroups ss cl st).2
    = GoRestfulContainer st
        ++ [VersionWS (shadowRoutes ss groups st); GroupWS (shadowEntry [shadowGV])]
  ∧ DiscoveryGroupManager (InstallShadowAPIGroups ss cl st).2
    = DiscoveryGroupManager st ++ [shadowEntry [shadowGV]]
  ∧ StorageVersionManager (InstallShadowAPIGroups ss cl st).2
    = if Enabled StorageVersionAPI && Enabled APIServerIdentity
      then StorageVersionManager st ++ [infos]
      else StorageVersionManager st.
Proof.
  intros Hcl Hg Hne Hr Hret.
  pose proof (mirrored_cons groups g r Hg Hne Hr) as Hm.
  rewrite (InstallShadowAPIGroups_outcome ss cl groups st Hcl).
  rewrite decide_False by done. rewrite Hret, (shadowEntry_one groups st Hm).
  unfold recorded, bothEnabled.
  destruct (Enabled StorageVersionAPI && Enabled APIServerIdentity); simpl;
    by rewrite <- app_assoc.
Qed.

(** X20.  Whether the installation then succeeds or fails,
    [InstallShadowAPIGroups] registers with the scheme the kind of every
    resource listed under the preferred version of a group that is not
    excluded, under that group and version: one registration for each
    listing, in the order of discovery, also for a resource whose entry in
    the storage map is overwritten by a later one of the same name. *)
Theorem InstallShadowAPIGroups_registers_every_kind
        (ss : ShadowAPIServer) (cl : DiscoveryInterface)
        (groups : list APIGroupResources.t) (st : ServerState) :
  GetAPIGroupResources cl = inr groups →
  Scheme (InstallShadowAPIGroups ss cl st).2
  = Scheme st
      ++ (groups ≫= λ g,
            if isExcluded g then []
            else (λ r, WithKind {| GroupVersion.Group := groupName g;
                                   GroupVersion.Version := preferredVersion g |}
                                (APIResource.Kind r))
                   <$> resourcesOf g (preferredVersion g)).
Proof.
  intros Hcl.
  destruct (InstallShadowAPIGroups_effect ss cl groups st Hcl) as (-> & _).
  f_equal. clear Hcl. unfold mirrored.
  induction groups as [|g groups IH]; [done|].
  rewrite !bind_cons, fmap_app, IH. f_equal. unfold mirroredOf.
  destruct (isExcluded g); [done|]. by rewrite <- list_fmap_compose.
Qed.

(** X21.  The storage map [InstallShadowAPIGroups] hands to the route
    installer holds at most one entry for each mirrored resource, and it
    holds as many entries as there are mirrored resources exactly when
    the lower-cased names of the mirrored resources are pairwise distinct:
    a resource is missing from the published map only because another
    mirrored resource has the same lower-cased name. *)
Theorem InstallShadowAPIGroups_loses_only_collisions
        (ss : ShadowAPIServer) (cl : DiscoveryInterface)
        (groups : list APIGroupResources.t) (st : ServerState) :
  GetAPIGroupResources cl = inr groups →
  ∃ ws, GoRestfulContainer (InstallShadowAPIGroups ss cl st).2
        = GoRestfulContainer st ++ ws
        ∧ ∀ v, VersionWS v ∈ ws →
            (size (APIGroupVersion.Storage v) ≤ length (mirrored groups))%nat
            ∧ (size (APIGroupVersion.Storage v) = length (mirrored groups)
               ↔ NoDup ((λ x, ToLower (nameOf x)) <$> mirrored groups)).
Proof.
  intros Hcl.
  destruct (InstallShadowAPIGroups_effect ss cl groups st Hcl)
    as (_ & ws & Hws & Honly & _).
  exists ws. split; [done|]. intros v Hv.
  rewrite (Honly v Hv), shadowRoutes_storage. unfold publishedStorage.
  rewrite lowerKeys_assignAll.
  pose proof (assignAll_size (λ kv : string * REST.t, ToLower kv.1) snd
                (range_order (shadowStorage groups)) ∅) as Hpub.
  pose proof (assignAll_size nameOf adapterOf (mirrored groups) ∅) as Hsh.
  fold (shadowStorage groups) in Hsh.
  rewrite map_size_empty, range_order_length in Hpub. rewrite map_size_empty in Hsh.
  assert ((λ x, ToLower (nameOf x)) <$> mirrored groups
          = ToLower <$> (nameOf <$> mirrored groups)) as Hcomp
    by by rewrite <- list_fmap_compose.
  split; [lia|]. split.
  - intros Heq.
    assert (size (shadowStorage groups) = (size (∅ : gmap string REST.t)
                                           + length (mirrored groups))%nat) as Hfull
      by (rewrite map_size_empty; lia).
    apply assignAll_size_full in Hfull as [Hnames _].
    assert (size (assignAll (λ kv : string * REST.t, ToLower kv.1) snd ∅
                    (range_order (shadowStorage groups)))
            = (size (∅ : gmap string REST.t)
               + length (range_order (shadowStorage groups)))%nat) as Hfull'
      by (rewrite map_size_empty, range_order_length; lia).
    apply assignAll_size_full in Hfull' as [Hkeys _].
    rewrite Hcomp. apply NoDup_fmap_2_strong; [|done].
    intros n1 n2 (x1 & -> & Hx1)%list_elem_of_fmap (x2 & -> & Hx2)%list_elem_of_fmap Hlow.
    destruct (shadowStorage_key groups x1 Hx1) as [a1 Ha1].
    destruct (shadowStorage_key groups x2 Hx2) as [a2 Ha2].
    apply range_order_elem in Ha1, Ha2.
    by pose proof (NoDup_fmap_elem_inj _ _ _ _ Hkeys Ha1 Ha2 Hlow) as [= ? _].
  - intros Hnd.
    assert (NoDup (nameOf <$> mirrored groups)) as Hnames.
    { rewrite Hcomp in Hnd. by apply NoDup_fmap_1 in Hnd. }
    assert (size (shadowStorage groups) = length (mirrored groups)) as Hfull.
    { unfold shadowStorage. rewrite (proj2 (assignAll_size_full _ _ _ _));
        [by rewrite map_size_empty|done]. }
    rewrite (proj2 (assignAll_size_full _ _ _ _)).
    + by rewrite map_size_empty, range_order_length.
    + split; [|done]. apply NoDup_fmap_2_strong.
      * intros [k1 a1] [k2 a2] H1%range_order_elem H2%range_order_elem Hk.
        simpl in Hk.
        apply shadowStorage_entry in H1 as (x1 & Hx1 & <- & ->).
        apply shadowStorage_entry in H2 as (x2 & Hx2 & <- & ->).
        by rewrite (NoDup_fmap_elem_inj _ _ x1 x2 Hnd Hx1 Hx2 Hk).
      * rewrite range_order_perm. apply NoDup_map_to_list.
Qed.

End Outcomes.

(** ** Concrete installations *)

Definition appsV1 : GroupVersion.t :=
  {| GroupVersion.Group := "apps"; GroupVersion.Version := "v1" |}.

(** A descriptor whose first prioritized version has neither a group nor
    a version. *)
Definition blankInfo : APIGroupInfo.t :=
  {| APIGroupInfo.PrioritizedVersions :=
       [ {| GroupVersion.Group := ""; GroupVersion.Version := "" |} ];
     APIGroupInfo.VersionedResourcesStorageMap := ∅;
     APIGroupInfo.OptionsExternalVersion := None |}.

(** A group that lists nothing under its preferred version. *)
Definition idleGroup : APIGroupResources.t := exGroup "batch" "v1" [].

(** Every route installation fails; both gates are enabled. *)
Definition stormy : External :=
  exampleExternal (λ _, inl (ExternalError "route conflict")) (λ _, true).

(** A descriptor with two versions that have resources, and a route
    installer that refuses the group-versions of one version: with the
    first version refused, the second is not handed to the installer. *)
Definition appsV1beta1 : GroupVersion.t :=
  {| GroupVersion.Group := "apps"; GroupVersion.Version := "v1beta1" |}.

Definition twoVersionInfo : APIGroupInfo.t :=
  {| APIGroupInfo.PrioritizedVersions := [appsV1; appsV1beta1];
     APIGroupInfo.VersionedResourcesStorageMap :=
       {[ "v1" := {[ "deployments" :=
                       resourceRest "apps" "v1"
                         (exResource "deployments" "Deployment") ]};
          "v1beta1" := {[ "deployments" :=
                            resourceRest "apps" "v1beta1"
                              (exResource "deployments" "Deployment") ]} ]};
     APIGroupInfo.OptionsExternalVersion := None |}.

Definition refusing (version : string) : External :=
  exampleExternal
    (λ v, if String.eqb (GroupVersion.Version (APIGroupVersion.GroupVersion v)) version
          then inl (ExternalError "refused") else inr [])
    (λ _, true).

Example first_refusal_ends_installation :
  installAPIResources (external := refusing "v1") exServer APIGroupPrefix
    twoVersionInfo emptyServer
  = (Err (UnableToSetup twoVersionInfo (ExternalError "refused")),
     ContainerAdd
       (VersionWS (preparedVersion (external := refusing "v1") exServer
                     APIGroupPrefix twoVersionInfo appsV1))
       emptyServer).
Proof. vm_compute. reflexivity. Qed.

Example later_refusal_keeps_earlier_routes :
  (installAPIResources (external := refusing "v1beta1") exServer APIGroupPrefix
     twoVersionInfo emptyServer).1
  = Err (UnableToSetup twoVersionInfo (ExternalError "refused"))
  ∧ installedVersions
      (installAPIResources (external := refusing "v1beta1") exServer APIGroupPrefix
         twoVersionInfo emptyServer).2
    = [ preparedVersion (external := refusing "v1beta1") exServer APIGroupPrefix
          twoVersionInfo appsV1;
        preparedVersion (external := refusing "v1beta1") exServer APIGroupPrefix
          twoVersionInfo appsV1beta1 ]
  ∧ StorageVersionManager
      (installAPIResources (external := refusing "v1beta1") exServer APIGroupPrefix
         twoVersionInfo emptyServer).2 = [].
Proof. repeat split; vm_compute; reflexivity. Qed.

Lemma goodInfo_storage :
  storageOf goodInfo "v1"
  = {[ "deployments" :=
         resourceRest "apps" "v1" (exResource "deployments" "Deployment") ]}.
Proof. vm_compute. reflexivity. Qed.

Lemma getAPIGroupVersion_without_collisions_witness :
  (∀ k1 k2, is_Some (storageOf goodInfo "v1" !! k1) →
            is_Some (storageOf goodInfo "v1" !! k2) →
            asciiToLower k1 = asciiToLower k2 → k1 = k2)
  ∧ (∀ k0 a, storageOf goodInfo "v1" !! k0 = Some a →
             APIGroupVersion.Storage
               (getAPIGroupVersion (external := sunny) exServer goodInfo appsV1
                  APIGroupPrefix) !! asciiToLower k0 = Some a)
  ∧ size (APIGroupVersion.Storage
            (getAPIGroupVersion (external := sunny) exServer goodInfo appsV1
               APIGroupPrefix))
    = size (storageOf goodInfo "v1").
Proof.
  assert (∀ k1 k2, is_Some (storageOf goodInfo "v1" !! k1) →
                   is_Some (storageOf goodInfo "v1" !! k2) →
                   asciiToLower k1 = asciiToLower k2 → k1 = k2) as Hinj.
  { intros k1 k2 [a1 H1] [a2 H2] _. rewrite goodInfo_storage in H1, H2.
    apply lookup_singleton_Some in H1 as [<- _].
    by apply lookup_singleton_Some in H2 as [<- _]. }
  split; [exact Hinj|].
  destruct (getAPIGroupVersion_without_collisions (external := sunny) exServer
              goodInfo appsV1 APIGroupPrefix Hinj) as (Hfound & Hsize & _).
  split; [exact Hfound|exact Hsize].
Defined.

Lemma installAPIResources_configures_versions_witness :
  let v := preparedVersion (external := sunny) exServer APIGroupPrefix goodInfo
             appsV1 in
  VersionWS v
    ∈ GoRestfulContainer
        (installAPIResources (external := sunny) exServer APIGroupPrefix goodInfo
           emptyServer).2
  ∧ (VersionWS v ∉ GoRestfulContainer emptyServer)
  ∧ APIGroupVersion.Root v = APIGroupPrefix
  ∧ APIGroupVersion.MaxRequestBodyBytes v = 3145728
  ∧ APIGroupVersion.OptionsExternalVersion v = None
  ∧ APIGroupVersion.MinRequestTimeout v = 1800 * 1000000000.
Proof.
  intros v.
  assert (VersionWS v
            ∈ GoRestfulContainer
                (installAPIResources (external := sunny) exServer APIGroupPrefix
                   goodInfo emptyServer).2) as Hin.
  { replace (GoRestfulContainer
               (installAPIResources (external := sunny) exServer APIGroupPrefix
                  goodInfo emptyServer).2) with [VersionWS v]
      by (vm_compute; reflexivity).
    left. }
  assert (VersionWS v ∉ GoRestfulContainer emptyServer) as Hnew
    by apply not_elem_of_nil.
  destruct (installAPIResources_configures_versions (external := sunny) exServer
              APIGroupPrefix goodInfo emptyServer v Hin Hnew)
    as (_ & Hroot & Hmax & Hopt & Htime).
  split; [exact Hin|]. split; [exact Hnew|]. split; [exact Hroot|].
  split; [exact Hmax|]. split; [exact Hopt|]. apply Htime. simpl. lia.
Defined.

Lemma installAPIGroups_reports_first_malformed_witness :
  Forall (wellFormed) [goodInfo]
  ∧ head (APIGroupInfo.PrioritizedVersions blankInfo)
    = Some {| GroupVersion.Group := ""; GroupVersion.Version := "" |}
  ∧ installAPIGroups (external := sunny) exServer
      ([goodInfo] ++ blankInfo :: [noVersionInfo]) emptyServer
    = (Err (EmptyGroup blankInfo), emptyServer).
Proof.
  assert (Forall wellFormed [goodInfo]) as Hpre.
  { constructor; [|constructor]. exists appsV1. by repeat split. }
  split; [exact Hpre|]. split; [reflexivity|].
  exact (installAPIGroups_reports_first_malformed (external := sunny) exServer
           [goodInfo] [noVersionInfo] blankInfo
           {| GroupVersion.Group := ""; GroupVersion.Version := "" |}
           emptyServer Hpre eq_refl (or_introl eq_refl)).
Defined.

Lemma installAPIGroups_success_layout_witness :
  (installAPIGroups (external := sunny) exServer [goodInfo] emptyServer).1 = Ok tt
  ∧ GoRestfulContainer
      (installAPIGroups (external := sunny) exServer [goodInfo] emptyServer).2
    = [ VersionWS (preparedVersion (external := sunny) exServer APIGroupPrefix
                     goodInfo appsV1);
        GroupWS {| APIGroup.Name := "apps";
                   APIGroup.Versions := [toDiscovery appsV1];
                   APIGroup.PreferredVersion := toDiscovery appsV1 |} ]
  ∧ length (StorageVersionManager
              (installAPIGroups (external := sunny) exServer [goodInfo]
                 emptyServer).2) = 1%nat.
Proof.
  assert ((installAPIGroups (external := sunny) exServer [goodInfo]
             emptyServer).1 = Ok tt) as Hok by (vm_compute; reflexivity).
  destruct (installAPIGroups_success_layout (external := sunny) exServer
              [goodInfo] emptyServer Hok) as (Hc & _ & Hr).
  split; [exact Hok|]. split; [|exact Hr].
  rewrite Hc. vm_compute. reflexivity.
Defined.

Lemma InstallShadowAPIGroups_registers_every_kind_witness :
  GetAPIGroupResources (External := sunny) (inr twoEvents) = inr twoEvents
  ∧ Scheme (InstallShadowAPIGroups (external := sunny) exServer (inr twoEvents)
              emptyServer).2
    = [ {| GroupVersionKind.Group := ""; GroupVersionKind.Version := "v1";
           GroupVersionKind.Kind := "Event" |};
        {| GroupVersionKind.Group := "events.k8s.io";
           GroupVersionKind.Version := "v1"; GroupVersionKind.Kind := "Event" |} ].
Proof.
  split; [reflexivity|].
  rewrite (InstallShadowAPIGroups_registers_every_kind (external := sunny) exServer
             (inr twoEvents) twoEvents emptyServer eq_refl).
  vm_compute. reflexivity.
Defined.

Lemma InstallShadowAPIGroups_nothing_to_mirror_witness :
  let groups := [selfGroup; idleGroup; internalGroup] in
  GetAPIGroupResources (External := sunny) (inr groups) = inr groups
  ∧ (∀ g, g ∈ groups → excluded g ∨ resourcesOf g (preferredVersion g) = [])
  ∧ (InstallShadowAPIGroups (external := sunny) exServer (inr groups)
       emptyServer).1 = Ok tt
  ∧ DiscoveryGroupManager
      (InstallShadowAPIGroups (external := sunny) exServer (inr groups)
         emptyServer).2
    = [shadowEntry []].
Proof.
  intros groups.
  assert (∀ g, g ∈ groups → excluded g ∨ resourcesOf g (preferredVersion g) = [])
    as Hno.
  { intros g Hg. unfold groups in Hg.
    apply elem_of_cons in Hg as [->|Hg];
      [left; apply isExcluded_spec; vm_compute; reflexivity|].
    apply elem_of_cons in Hg as [->|Hg]; [right; vm_compute; reflexivity|].
    apply list_elem_of_singleton in Hg as ->.
    left. apply isExcluded_spec. vm_compute. reflexivity. }
  destruct (InstallShadowAPIGroups_nothing_to_mirror (external := sunny) exServer
              (inr groups) groups emptyServer eq_refl Hno)
    as (Hok & _ & _ & Hd & _).
  split; [reflexivity|]. split; [exact Hno|]. split; [exact Hok|exact Hd].
Defined.

Lemma appsGroup_mirrored :
  appsGroup ∈ scenarioA ∧ ¬ excluded appsGroup
  ∧ exResource "deployments" "Deployment"
      ∈ resourcesOf appsGroup (preferredVersion appsGroup).
Proof.
  split; [by left|]. split.
  - intros Hex%isExcluded_spec. vm_compute in Hex. discriminate.
  - vm_compute. left.
Qed.

Lemma InstallShadowAPIGroups_installer_failure_witness :
  GetAPIGroupResources (External := stormy) (inr scenarioA) = inr scenarioA
  ∧ appsGroup ∈ scenarioA
  ∧ ¬ excluded appsGroup
  ∧ (InstallShadowAPIGroups (external := stormy) exServer (inr scenarioA)
       emptyServer).1
    = Err (UnableToInstall
             (UnableToSetup (shadowInfo (external := stormy) scenarioA emptyServer)
                (ExternalError "route conflict")))
  ∧ DiscoveryGroupManager
      (InstallShadowAPIGroups (external := stormy) exServer (inr scenarioA)
         emptyServer).2 = []
  ∧ StorageVersionManager
      (InstallShadowAPIGroups (external := stormy) exServer (inr scenarioA)
         emptyServer).2 = [].
Proof.
  destruct appsGroup_mirrored as (Hin & Hne & Hr).
  destruct (InstallShadowAPIGroups_installer_failure (external := stormy) exServer
              (inr scenarioA) scenarioA emptyServer appsGroup
              (exResource "deployments" "Deployment")
              (ExternalError "route conflict") eq_refl Hin Hne Hr eq_refl)
    as (Herr & _ & _ & Hd & Hv).
  split; [reflexivity|]. split; [exact Hin|]. split; [exact Hne|].
  split; [exact Herr|]. split; [exact Hd|exact Hv].
Defined.

Lemma InstallShadowAPIGroups_success_witness :
  GetAPIGroupResources (External := sunny) (inr scenarioA) = inr scenarioA
  ∧ appsGroup ∈ scenarioA
  ∧ ¬ excluded appsGroup
  ∧ (InstallShadowAPIGroups (external := sunny) exServer (inr scenarioA)
       emptyServer).1 = Ok tt
  ∧ DiscoveryGroupManager
      (InstallShadowAPIGroups (external := sunny) exServer (inr scenarioA)
         emptyServer).2
    = [shadowEntry [shadowGV]]
  ∧ StorageVersionManager
      (InstallShadowAPIGroups (external := sunny) exServer (inr scenarioA)
         emptyServer).2 = [[]].
Proof.
  destruct appsGroup_mirrored as (Hin & Hne & Hr).
  destruct (InstallShadowAPIGroups_success (external := sunny) exServer
              (inr scenarioA) scenarioA emptyServer appsGroup
              (exResource "deployments" "Deployment") []
              eq_refl Hin Hne Hr eq_refl)
    as (Hok & _ & Hd & Hv).
  split; [reflexivity|]. split; [exact Hin|]. split; [exact Hne|].
  split; [exact Hok|]. split; [exact Hd|exact Hv].
Defined.

(** The two [events]: two resources mirrored, one entry published. *)
Lemma InstallShadowAPIGroups_loses_only_collisions_witness :
  GetAPIGroupResources (External := sunny) (inr twoEvents) = inr twoEvents
  ∧ ∃ ws, GoRestfulContainer
            (InstallShadowAPIGroups (external := sunny) exServer (inr twoEvents)
               emptyServer).2
          = GoRestfulContainer emptyServer ++ ws
          ∧ ∀ v, VersionWS v ∈ ws →
              (size (APIGroupVersion.Storage v) ≤ length (mirrored twoEvents))%nat
              ∧ (size (APIGroupVersion.Storage v) = length (mirrored twoEvents)
                 ↔ NoDup ((λ x, asciiToLower (nameOf x)) <$> mirrored twoEvents)).
Proof.
  split; [reflexivity|].
  exact (InstallShadowAPIGroups_loses_only_collisions (external := sunny) exServer
           (inr twoEvents) twoEvents emptyServer eq_refl).
Defined.

Example twoEvents_published_size :
  length (mirrored twoEvents) = 2%nat
  ∧ size <$> (APIGroupVersion.Storage
                <$> installedVersions
                      (InstallShadowAPIGroups (external := sunny) exServer
                         (inr twoEvents) emptyServer).2)
    = [1%nat].
Proof. split; vm_compute; reflexivity. Qed.

End InstallerOutcomes.
